(** * Market-data feed handler: shallow embedding and verified properties

    The development follows the layout of the repository:
    - [models]         src/models.py            (Tick, FeedStats)
    - [tick_buffer]    src/tick_buffer.py       (RingBuffer, TickBuffer, TickAggregator)
    - [base_handler]   src/base_handler.py      (FeedHandler.start supervisor loop)
    - [databento_handler], [bloomberg_handler], [cme_handler]
                       src/handlers/*.py
    - [feed_stats]     src/models.py            (FeedStats.update)
    - [databento_binary] src/handlers/databento_handler.py
                                                (DatabentoHandlerBinary)
    - [feed_manager]   src/feed_handler/feed_manager.py (tick routing)

    Python integers are unbounded and are modelled by [Z]; [None]-able fields
    are [option]; dictionaries keyed by symbol are [gmap string _]; Python
    lists are [list]. Exceptions are made explicit in the result types. *)

From Stdlib Require Import ZArith QArith Lia.
From Stdlib.Strings Require Byte.
From stdpp Require Import base numbers option list strings gmap pretty sorting.

Local Open Scope Z_scope.

(** ** Python primitives used by the source *)

Module Py.

(** Truthiness of an [Optional[int]]: [None] and [0] are falsy. *)
Definition truthy (o : option Z) : bool :=
  match o with
  | Some v => negb (v =? 0)
  | None => false
  end.

(** [a or b] on [Optional[int]] operands: [a] when truthy, else [b]. *)
Definition or (a b : option Z) : option Z :=
  if truthy a then a else b.

(** [x or 0] where [x : Optional[int]]. *)
Definition or_zero (a : option Z) : Z :=
  match a with
  | Some v => if v =? 0 then 0 else v
  | None => 0
  end.

(** [int.bit_length()]: number of bits of the absolute value. *)
Definition bit_length (n : Z) : Z :=
  if n =? 0 then 0 else Z.log2 (Z.abs n) + 1.

(** [l[i]] on a list: negative indices count from the end; an index out of
    range raises [IndexError], rendered as [None]. *)
Definition getitem {A} (l : list A) (i : Z) : option A :=
  if 0 <=? i then l !! Z.to_nat i
  else if - Z.of_nat (length l) <=? i then l !! Z.to_nat (Z.of_nat (length l) + i)
  else None.

(** [l[i] = x] with the same index conventions. *)
Definition setitem {A} (l : list A) (i : Z) (x : A) : option (list A) :=
  if 0 <=? i then
    if i <? Z.of_nat (length l) then Some (<[Z.to_nat i := x]> l) else None
  else if - Z.of_nat (length l) <=? i then
    Some (<[Z.to_nat (Z.of_nat (length l) + i) := x]> l)
  else None.

(** [int(x)] on a number: truncation toward zero. Numbers that arrive as
    JSON or vendor floats are modelled by rationals. *)
Definition int (q : Q) : Z := Z.quot (Qnum q) (Zpos (Qden q)).

(** Truthiness of a number: zero is falsy. *)
Definition nonzero (q : Q) : bool := negb (Qnum q =? 0).

(** [list.remove(x)]: drops the first occurrence (the callers test
    membership first, so the [ValueError] case does not arise). *)
Fixpoint remove (x : string) (l : list string) : list string :=
  match l with
  | [] => []
  | y :: l' => if decide (x = y) then l' else y :: remove x l'
  end.

(** [x in l]. *)
Definition contains (x : string) (l : list string) : bool :=
  bool_decide (x ∈ l).

End Py.

(** ** src/models.py *)

Module models.

Inductive TickType := TRADE | QUOTE | BBO.

Inductive Vendor := DATABENTO | BLOOMBERG | CME | ICE | REFINITIV.

#[global] Instance TickType_eq_dec : EqDecision TickType.
Proof. solve_decision. Defined.

#[global] Instance Vendor_eq_dec : EqDecision Vendor.
Proof. solve_decision. Defined.

Record Tick := mkTick {
  timestamp_ns : Z;
  symbol : string;
  tick_type : TickType;
  bid_price : option Z;
  ask_price : option Z;
  trade_price : option Z;
  bid_size : option Z;
  ask_size : option Z;
  trade_size : option Z;
  exchange : option string;
  vendor : option Vendor;
  sequence_num : option Z;
  price_precision : Z
}.

(** The tick invariant of the data model: some price is present, and a BBO
    tick carries both sides of the book. *)
Definition has_price (t : Tick) : Prop :=
  is_Some (bid_price t) ∨ is_Some (ask_price t) ∨ is_Some (trade_price t).

Definition bbo_complete (t : Tick) : Prop :=
  tick_type t = BBO → is_Some (bid_price t) ∧ is_Some (ask_price t).

Definition tick_invariant (t : Tick) : Prop :=
  has_price t ∧ bbo_complete t.

Record FeedStats := mkFeedStats {
  fs_vendor : Vendor;
  fs_symbol : string;
  ticks_received : Z;
  last_tick_time_ns : Z;
  gaps_detected : Z;
  last_sequence : Z;
  latency_ns_avg : Z
}.

(** [FeedStats(vendor=v, symbol=s)]: every counter at its default. *)
Definition FeedStats_new (v : Vendor) (s : string) : FeedStats :=
  mkFeedStats v s 0 0 0 0 0.

End models.

(** ** src/tick_buffer.py *)

Module tick_buffer.

Import models.

(** *** RingBuffer *)

Record RingBuffer := mkRingBuffer {
  _capacity : Z;
  _mask : Z;
  _slots : list (option Tick);      (* self._buffer *)
  _write_idx : Z;
  _read_idx : Z
}.

(** [RingBuffer.__init__(capacity)] *)
Definition RingBuffer_init (capacity : Z) : RingBuffer :=
  let cap := Z.shiftl 1 (Py.bit_length (capacity - 1)) in
  {| _capacity := cap;
     _mask := cap - 1;
     _slots := replicate (Z.to_nat cap) None;
     _write_idx := 0;
     _read_idx := 0 |}.

Definition size (rb : RingBuffer) : Z :=
  Z.land (_write_idx rb - _read_idx rb) (_mask rb).

Definition is_full (rb : RingBuffer) : bool :=
  size rb =? _capacity rb - 1.

Definition is_empty (rb : RingBuffer) : bool :=
  _write_idx rb =? _read_idx rb.

(** [RingBuffer.push]. The outer [option] is [None] only if a list access
    raised [IndexError]. *)
Definition push (tick : Tick) (rb : RingBuffer) : option (RingBuffer * bool) :=
  let next_write := Z.land (_write_idx rb + 1) (_mask rb) in
  if next_write =? _read_idx rb then Some (rb, false)
  else
    slots' ← Py.setitem (_slots rb) (_write_idx rb) (Some tick);
    Some ({| _capacity := _capacity rb;
             _mask := _mask rb;
             _slots := slots';
             _write_idx := next_write;
             _read_idx := _read_idx rb |}, true).

(** [RingBuffer.pop] *)
Definition pop (rb : RingBuffer) : option (RingBuffer * option Tick) :=
  if _read_idx rb =? _write_idx rb then Some (rb, None)
  else
    tick ← Py.getitem (_slots rb) (_read_idx rb);
    slots' ← Py.setitem (_slots rb) (_read_idx rb) None;
    Some ({| _capacity := _capacity rb;
             _mask := _mask rb;
             _slots := slots';
             _write_idx := _write_idx rb;
             _read_idx := Z.land (_read_idx rb + 1) (_mask rb) |}, tick).

(** The [for _ in range(count)] loop of [pop_batch]. *)
Fixpoint pop_loop (count : nat) (rb : RingBuffer) (batch : list Tick)
  : option (RingBuffer * list Tick) :=
  match count with
  | O => Some (rb, batch)
  | S count' =>
      '(rb', tick) ← pop rb;
      pop_loop count' rb'
        (match tick with Some t => batch ++ [t] | None => batch end)
  end.

(** [RingBuffer.pop_batch(max_size)] *)
Definition pop_batch (max_size : Z) (rb : RingBuffer)
  : option (RingBuffer * list Tick) :=
  pop_loop (Z.to_nat (Z.min max_size (size rb))) rb [].

(** *** TickBuffer *)

Record BufferStats := mkBufferStats {
  ticks_received : Z;
  ticks_processed : Z;
  ticks_dropped : Z;
  batches_flushed : Z;
  max_latency_ns : Z;
  avg_latency_ns : Z
}.

(** The batcher. The awaited [on_batch] sink is rendered by the log
    [delivered] of the batches handed to it, oldest first; the sink is
    taken to return normally. *)
Record TickBuffer := mkTickBuffer {
  _batch_size : Z;
  _flush_interval_ns : Z;
  _buffer : RingBuffer;
  _stats : BufferStats;
  _last_flush_time : Z;
  _running : bool;
  delivered : list (list Tick)
}.

(** [TickBuffer.__init__]; [now] is the reading of [current_time_ns()]. *)
Definition TickBuffer_init (batch_size flush_interval_ms buffer_capacity now : Z)
  : TickBuffer :=
  {| _batch_size := batch_size;
     _flush_interval_ns := flush_interval_ms * 1000000;
     _buffer := RingBuffer_init buffer_capacity;
     _stats := mkBufferStats 0 0 0 0 0 0;
     _last_flush_time := now;
     _running := false;
     delivered := [] |}.

(** [int(0.9 * avg + 0.1 * latency)], computed on rationals. *)
Definition ewma (avg latency : Z) : Z :=
  Py.int (Qplus (Qmult (9 # 10) (inject_Z avg)) (Qmult (1 # 10) (inject_Z latency))).

(** [TickBuffer._flush]; [now] is the clock reading taken inside. *)
Definition _flush (now : Z) (tb : TickBuffer) : option TickBuffer :=
  '(rb', batch) ← pop_batch (_batch_size tb) (_buffer tb);
  match batch with
  | [] =>
      Some {| _batch_size := _batch_size tb;
              _flush_interval_ns := _flush_interval_ns tb;
              _buffer := rb';
              _stats := _stats tb;
              _last_flush_time := _last_flush_time tb;
              _running := _running tb;
              delivered := delivered tb |}
  | oldest_tick :: _ =>
      let latency := now - timestamp_ns oldest_tick in
      let st := _stats tb in
      Some {| _batch_size := _batch_size tb;
              _flush_interval_ns := _flush_interval_ns tb;
              _buffer := rb';
              _stats :=
                {| ticks_received := ticks_received st;
                   ticks_processed := ticks_processed st + Z.of_nat (length batch);
                   ticks_dropped := ticks_dropped st;
                   batches_flushed := batches_flushed st + 1;
                   max_latency_ns := Z.max (max_latency_ns st) latency;
                   avg_latency_ns := ewma (avg_latency_ns st) latency |};
              _last_flush_time := now;
              _running := _running tb;
              delivered := delivered tb ++ [batch] |}
  end.

Definition received_incr (st : BufferStats) : BufferStats :=
  {| ticks_received := ticks_received st + 1;
     ticks_processed := ticks_processed st;
     ticks_dropped := ticks_dropped st;
     batches_flushed := batches_flushed st;
     max_latency_ns := max_latency_ns st;
     avg_latency_ns := avg_latency_ns st |}.

Definition dropped_incr (st : BufferStats) : BufferStats :=
  {| ticks_received := ticks_received st;
     ticks_processed := ticks_processed st;
     ticks_dropped := ticks_dropped st + 1;
     batches_flushed := batches_flushed st;
     max_latency_ns := max_latency_ns st;
     avg_latency_ns := avg_latency_ns st |}.

Definition with_ring (rb : RingBuffer) (st : BufferStats) (tb : TickBuffer)
  : TickBuffer :=
  {| _batch_size := _batch_size tb;
     _flush_interval_ns := _flush_interval_ns tb;
     _buffer := rb;
     _stats := st;
     _last_flush_time := _last_flush_time tb;
     _running := _running tb;
     delivered := delivered tb |}.

(** [TickBuffer.push]; [now] is the clock reading used if the push
    triggers a flush. *)
Definition TickBuffer_push (tick : Tick) (now : Z) (tb : TickBuffer)
  : option (TickBuffer * bool) :=
  let st := received_incr (_stats tb) in
  '(rb', ok) ← push tick (_buffer tb);
  if negb ok then Some (with_ring rb' (dropped_incr st) tb, false)
  else
    let tb' := with_ring rb' st tb in
    if _batch_size tb' <=? size rb' then
      tb'' ← _flush now tb'; Some (tb'', true)
    else Some (tb', true).

(** *** TickAggregator *)

Record Bar := mkBar {
  bar_timestamp_ns : Z;             (* Bar.timestamp_ns *)
  bar_symbol : string;              (* Bar.symbol *)
  open : Z;
  high : Z;
  low : Z;
  close : Z;
  volume : Z;
  tick_count : Z;
  precision : Z
}.

(** The aggregator. [_on_bar] records whether a bar sink is set; [emitted]
    is the log of the bars handed to it. *)
Record TickAggregator := mkTickAggregator {
  _timeframe_ns : Z;
  _on_bar : bool;
  _bars : gmap string Bar;
  emitted : list Bar
}.

Definition TickAggregator_init (timeframe_seconds : Z) (on_bar : bool)
  : TickAggregator :=
  {| _timeframe_ns := timeframe_seconds * 1000000000;
     _on_bar := on_bar;
     _bars := ∅;
     emitted := [] |}.

(** [_get_bar_timestamp]: floor division; a zero timeframe raises
    [ZeroDivisionError] ([None]). *)
Definition _get_bar_timestamp (agg : TickAggregator) (tick_time_ns : Z) : option Z :=
  if _timeframe_ns agg =? 0 then None
  else Some ((tick_time_ns / _timeframe_ns agg) * _timeframe_ns agg).

(** [price = tick.trade_price or tick.bid_price or tick.ask_price] *)
Definition select_price (tick : Tick) : option Z :=
  Py.or (Py.or (trade_price tick) (bid_price tick)) (ask_price tick).

(** [size = tick.trade_size or 0] *)
Definition select_size (tick : Tick) : Z :=
  Py.or_zero (trade_size tick).

Definition new_bar (bar_ts : Z) (tick : Tick) (price size : Z) : Bar :=
  {| bar_timestamp_ns := bar_ts;
     bar_symbol := symbol tick;
     open := price;
     high := price;
     low := price;
     close := price;
     volume := size;
     tick_count := 1;
     precision := price_precision tick |}.

(** The in-place update of the [else] branch. *)
Definition update_bar (current_bar : Bar) (price size : Z) : Bar :=
  {| bar_timestamp_ns := bar_timestamp_ns current_bar;
     bar_symbol := bar_symbol current_bar;
     open := open current_bar;
     high := Z.max (high current_bar) price;
     low := Z.min (low current_bar) price;
     close := price;
     volume := volume current_bar + size;
     tick_count := tick_count current_bar + 1;
     precision := precision current_bar |}.

Definition set_bar (s : string) (b : Bar) (agg : TickAggregator) : TickAggregator :=
  {| _timeframe_ns := _timeframe_ns agg;
     _on_bar := _on_bar agg;
     _bars := <[s := b]> (_bars agg);
     emitted := emitted agg |}.

Definition emit (b : Bar) (agg : TickAggregator) : TickAggregator :=
  {| _timeframe_ns := _timeframe_ns agg;
     _on_bar := _on_bar agg;
     _bars := _bars agg;
     emitted := if _on_bar agg then emitted agg ++ [b] else emitted agg |}.

(** [TickAggregator.process_tick]: the new state and the returned
    completed bar. *)
Definition process_tick (tick : Tick) (agg : TickAggregator)
  : option (TickAggregator * option Bar) :=
  bar_ts ← _get_bar_timestamp agg (timestamp_ns tick);
  match select_price tick with
  | None => Some (agg, None)
  | Some price =>
      let size := select_size tick in
      match _bars agg !! symbol tick with
      | Some current_bar =>
          if bar_timestamp_ns current_bar <? bar_ts then
            Some (set_bar (symbol tick) (new_bar bar_ts tick price size)
                    (emit current_bar agg),
                  Some current_bar)
          else
            Some (set_bar (symbol tick) (update_bar current_bar price size) agg,
                  None)
      | None =>
          Some (set_bar (symbol tick) (new_bar bar_ts tick price size) agg, None)
      end
  end.

End tick_buffer.

(** ** src/base_handler.py *)

Module base_handler.

Import models.

(** The fields of [FeedHandler] that [start] itself reads or writes. The
    reconnect delay is a float in the source; every value it takes is an
    integer number of seconds (1, 2, 4, ..., 32, 60), so [Z] represents it
    exactly. *)
Record FeedHandler := mkFeedHandler {
  _on_error : bool;                 (* whether an error callback is set *)
  _running : bool;
  _connected : bool;
  _reconnect_delay : Z;
  _max_reconnect_delay : Z
}.

(** [FeedHandler.__init__] *)
Definition FeedHandler_init (on_error : bool) : FeedHandler :=
  {| _on_error := on_error;
     _running := false;
     _connected := false;
     _reconnect_delay := 1;
     _max_reconnect_delay := 60 |}.

(** How an awaited call completes. *)
Inductive completion := Returned | Raised | Cancelled.

(** One [await]: its completion, and whether [stop()] ran on another task
    while this one was suspended. *)
Record await := mkAwait {
  how : completion;
  stop_requested : bool
}.

(** What the environment does during one pass of the [while] loop. The
    vendor methods [connect], [subscribe], [_read_messages] and the user
    callbacks are abstract in the base class, so their completions are
    inputs. [has_subscriptions] is the truth value of [self._subscriptions]
    when it is tested. *)
Record Iteration := mkIteration {
  connect_ : await;
  has_subscriptions : bool;
  subscribe_ : await;
  deliveries : list (Tick * await);  (* ticks yielded, with the completion of on_tick *)
  stream_end : await;                (* the last step of the generator *)
  on_error_ : await;
  sleep_ : await
}.

(** Observable calls made by the supervisor. *)
Inductive Action :=
| Connect
| Resubscribe
| OnTick (tick : Tick)
| OnError
| Sleep (seconds : Z)
| Disconnect.

#[global] Instance Action_inhabited : Inhabited Action := populate Connect.

Definition set_running (b : bool) (h : FeedHandler) : FeedHandler :=
  {| _on_error := _on_error h;
     _running := b;
     _connected := _connected h;
     _reconnect_delay := _reconnect_delay h;
     _max_reconnect_delay := _max_reconnect_delay h |}.

Definition set_connected (b : bool) (h : FeedHandler) : FeedHandler :=
  {| _on_error := _on_error h;
     _running := _running h;
     _connected := b;
     _reconnect_delay := _reconnect_delay h;
     _max_reconnect_delay := _max_reconnect_delay h |}.

Definition set_reconnect_delay (d : Z) (h : FeedHandler) : FeedHandler :=
  {| _on_error := _on_error h;
     _running := _running h;
     _connected := _connected h;
     _reconnect_delay := d;
     _max_reconnect_delay := _max_reconnect_delay h |}.

(** [FeedHandler.stop], as it lands during an await. *)
Definition during (a : await) (h : FeedHandler) : FeedHandler :=
  if stop_requested a then set_running false h else h.

(** How the [try] body ends. *)
Inductive body_result :=
| StreamEnded       (* _read_messages finished without raising *)
| LoopBroken        (* [if not self._running: break] *)
| Failed            (* an exception other than CancelledError *)
| Cancel.           (* asyncio.CancelledError *)

(** [async for tick in self._read_messages(): ...] *)
Fixpoint read_loop (ds : list (Tick * await)) (fin : await) (h : FeedHandler)
  : body_result * FeedHandler * list Action :=
  match ds with
  | [] =>
      let h := during fin h in
      match how fin with
      | Returned => (StreamEnded, h, [])
      | Raised => (Failed, h, [])
      | Cancelled => (Cancel, h, [])
      end
  | (tick, a) :: ds' =>
      if negb (_running h) then (LoopBroken, h, [])
      else
        let h := during a h in
        match how a with
        | Returned =>
            let '(r, h', tr) := read_loop ds' fin h in (r, h', OnTick tick :: tr)
        | Raised => (Failed, h, [OnTick tick])
        | Cancelled => (Cancel, h, [OnTick tick])
        end
  end.

(** The body of the [try]. *)
Definition try_body (it : Iteration) (h : FeedHandler)
  : body_result * FeedHandler * list Action :=
  let h := during (connect_ it) h in
  match how (connect_ it) with
  | Raised => (Failed, h, [Connect])
  | Cancelled => (Cancel, h, [Connect])
  | Returned =>
      let h := set_reconnect_delay 1 (set_connected true h) in
      if has_subscriptions it then
        let h := during (subscribe_ it) h in
        match how (subscribe_ it) with
        | Raised => (Failed, h, [Connect; Resubscribe])
        | Cancelled => (Cancel, h, [Connect; Resubscribe])
        | Returned =>
            let '(r, h', tr) := read_loop (deliveries it) (stream_end it) h in
            (r, h', Connect :: Resubscribe :: tr)
        end
      else
        let '(r, h', tr) := read_loop (deliveries it) (stream_end it) h in
        (r, h', Connect :: tr)
  end.

(** How one pass of the [while] loop ends. *)
Inductive status :=
| Continue          (* back to the [while] test *)
| Break             (* the [break] of the CancelledError clause *)
| Escape.           (* an exception leaves [start] *)

(** The [except Exception as e:] clause. *)
Definition on_failure (it : Iteration) (h : FeedHandler)
  : status * FeedHandler * list Action :=
  let h := set_connected false h in
  let '(ok, h, tr) :=
    if _on_error h then
      (match how (on_error_ it) with Returned => true | _ => false end,
       during (on_error_ it) h, [OnError])
    else (true, h, []) in
  if negb ok then (Escape, h, tr)
  else if _running h then
    let d := _reconnect_delay h in
    let h := during (sleep_ it) h in
    match how (sleep_ it) with
    | Returned =>
        (Continue,
         set_reconnect_delay (Z.min (d * 2) (_max_reconnect_delay h)) h,
         tr ++ [Sleep d])
    | _ => (Escape, h, tr ++ [Sleep d])
    end
  else (Continue, h, tr).

(** One pass of the [while] loop body. *)
Definition iteration (it : Iteration) (h : FeedHandler)
  : status * FeedHandler * list Action :=
  let '(r, h1, tr1) := try_body it h in
  match r with
  | StreamEnded | LoopBroken => (Continue, h1, tr1)
  | Cancel => (Break, set_running false h1, tr1)
  | Failed =>
      let '(s, h2, tr2) := on_failure it h1 in (s, h2, tr1 ++ tr2)
  end.

(** How a run of [start] stands after the scripted passes. *)
Inductive exit :=
| Exited            (* the loop was left; [disconnect] follows *)
| Escaped           (* an exception left [start] *)
| Pending.          (* still looping: the script of passes is used up *)

(** [while self._running: ...] over the scripted passes. *)
Fixpoint supervise (script : list Iteration) (h : FeedHandler)
  : exit * FeedHandler * list Action :=
  if negb (_running h) then (Exited, h, [])
  else
    match script with
    | [] => (Pending, h, [])
    | it :: rest =>
        match iteration it h with
        | (Continue, h', tr) =>
            let '(e, h'', tr') := supervise rest h' in (e, h'', tr ++ tr')
        | (Break, h', tr) => (Exited, h', tr)
        | (Escape, h', tr) => (Escaped, h', tr)
        end
    end.

(** [FeedHandler.start]; [disconnect_] is the completion of the final
    [disconnect()]. *)
Definition start (script : list Iteration) (disconnect_ : await) (h : FeedHandler)
  : exit * FeedHandler * list Action :=
  let '(e, h', tr) := supervise script (set_running true h) in
  match e with
  | Exited =>
      let h' := during disconnect_ h' in
      match how disconnect_ with
      | Returned => (Exited, set_connected false h', tr ++ [Disconnect])
      | _ => (Escaped, h', tr ++ [Disconnect])
      end
  | _ => (e, h', tr)
  end.

(** [FeedHandler.stop] *)
Definition stop (h : FeedHandler) : FeedHandler := set_running false h.

End base_handler.

(** ** src/handlers *)

Module handlers.

Import models.

(** Statements repeated verbatim in the three vendor handlers. *)

(** [for symbol in symbols: self._stats[symbol] = FeedStats(vendor=v, symbol=symbol)] *)
Definition init_stats (v : Vendor) (symbols : list string)
    (stats : gmap string FeedStats) : gmap string FeedStats :=
  foldl (λ m s, <[s := FeedStats_new v s]> m) stats symbols.

(** [for symbol in symbols: if symbol in subs: subs.remove(symbol)] *)
Definition remove_each (symbols : list string) (subs : list string) : list string :=
  foldl (λ l s, if Py.contains s l then Py.remove s l else l) subs symbols.

(** *** src/handlers/databento_handler.py *)

Module databento_handler.

(** A decoded JSON message: each key of the documented schema is either
    absent or holds a value of its documented type. *)
Record Message := mkMessage {
  msg_type : option string;       (* "type" *)
  msg_symbol : option string;     (* "symbol" *)
  ts_event : option Z;
  bid_px : option Q;
  ask_px : option Q;
  trade_px : option Q;
  bid_sz : option Z;
  ask_sz : option Z;
  trade_sz : option Z;
  msg_exchange : option string;   (* "exchange" *)
  sequence : option Z
}.

(** [int(msg[k] * multiplier) if k in msg else None] *)
Definition to_fixed (multiplier : Z) (px : option Q) : option Z :=
  match px with
  | Some x => Some (Py.int (Qmult x (inject_Z multiplier)))
  | None => None
  end.

(** [DatabentoHandler._parse_message] *)
Definition _parse_message (msg : Message) (receive_time : Z) : option Tick :=
  let msg_type := default "mbp"%string (msg_type msg) in
  if decide (msg_type = "heartbeat"%string) then None
  else
    let symbol := default ""%string (msg_symbol msg) in
    let timestamp := default receive_time (ts_event msg) in
    let tick_type :=
      if bool_decide (is_Some (trade_px msg)) then TRADE
      else if bool_decide (is_Some (bid_px msg)) && bool_decide (is_Some (ask_px msg))
           then BBO
      else QUOTE in
    let precision := 2 in
    let multiplier := 10 ^ precision in
    Some {| timestamp_ns := timestamp;
            symbol := symbol;
            tick_type := tick_type;
            bid_price := to_fixed multiplier (bid_px msg);
            ask_price := to_fixed multiplier (ask_px msg);
            trade_price := to_fixed multiplier (trade_px msg);
            bid_size := bid_sz msg;
            ask_size := ask_sz msg;
            trade_size := trade_sz msg;
            exchange := msg_exchange msg;
            vendor := Some DATABENTO;
            sequence_num := sequence msg;
            price_precision := precision |}.

(** The subscription state of the handler. *)
Record DatabentoHandler := mkDatabentoHandler {
  _subscriptions : list string;
  _stats : gmap string FeedStats
}.

(** The subscription state set up by [FeedHandler.__init__]. *)
Definition DatabentoHandler_init : DatabentoHandler :=
  {| _subscriptions := []; _stats := ∅ |}.

(** Frames written to the gateway by [_send_json]. *)
Inductive Frame :=
| subscribe_frame (symbols : list string)
| unsubscribe_frame (symbols : list string).

(** [DatabentoHandler.subscribe], the send completing normally;
    [symbols] is a list of the caller's own. *)
Definition subscribe (symbols : list string) (h : DatabentoHandler)
  : DatabentoHandler * list Frame :=
  ({| _subscriptions := _subscriptions h ++ symbols;
      _stats := init_stats DATABENTO symbols (_stats h) |},
   [subscribe_frame symbols]).

(** [DatabentoHandler.unsubscribe] *)
Definition unsubscribe (symbols : list string) (h : DatabentoHandler)
  : DatabentoHandler * list Frame :=
  ({| _subscriptions := remove_each symbols (_subscriptions h);
      _stats := _stats h |},
   [unsubscribe_frame symbols]).

End databento_handler.

(** *** src/handlers/bloomberg_handler.py *)

Module bloomberg_handler.

(** A session event, by the keys the handler reads. A key that is absent
    and a key that holds [None] both read as [None]. *)
Record Event := mkEvent {
  ev_type : option string;        (* "type" *)
  ev_symbol : option string;      (* "symbol" *)
  BID : option Q;
  ASK : option Q;
  LAST_PRICE : option Q;
  BID_SIZE : option Z;
  ASK_SIZE : option Z
}.

(** [int(x * multiplier) if x else None]: the guard is truthiness. *)
Definition to_fixed (multiplier : Z) (px : option Q) : option Z :=
  match px with
  | Some x =>
      if Py.nonzero x then Some (Py.int (Qmult x (inject_Z multiplier))) else None
  | None => None
  end.

(** [BloombergHandler._parse_event]; [now] is [current_time_ns()]. *)
Definition _parse_event (event : Event) (now : Z) : option Tick :=
  if negb (bool_decide (ev_type event = Some "SUBSCRIPTION_DATA"%string)) then None
  else
    let symbol := default ""%string (ev_symbol event) in
    let timestamp := now in
    let bid := BID event in
    let ask := ASK event in
    let last := LAST_PRICE event in
    let precision := 4 in
    let multiplier := 10 ^ precision in
    let tick_type :=
      if bool_decide (is_Some last) then TRADE
      else if bool_decide (is_Some bid) && bool_decide (is_Some ask) then BBO
      else QUOTE in
    Some {| timestamp_ns := timestamp;
            symbol := symbol;
            tick_type := tick_type;
            bid_price := to_fixed multiplier bid;
            ask_price := to_fixed multiplier ask;
            trade_price := to_fixed multiplier last;
            bid_size := BID_SIZE event;
            ask_size := ASK_SIZE event;
            trade_size := None;
            exchange := None;
            vendor := Some BLOOMBERG;
            sequence_num := None;
            price_precision := precision |}.

(** The subscription state of the handler. The Bloomberg session is an
    external collaborator; calls into it are listed as commands. *)
Record BloombergHandler := mkBloombergHandler {
  _subscriptions : list string;
  _stats : gmap string FeedStats
}.

(** The subscription state set up by [FeedHandler.__init__]. *)
Definition BloombergHandler_init : BloombergHandler :=
  {| _subscriptions := []; _stats := ∅ |}.

Inductive SessionCall :=
| session_subscribe (symbols : list string)
| session_unsubscribe (symbols : list string).

(** [BloombergHandler.subscribe] *)
Definition subscribe (symbols : list string) (h : BloombergHandler)
  : BloombergHandler * list SessionCall :=
  ({| _subscriptions := _subscriptions h ++ symbols;
      _stats := init_stats BLOOMBERG symbols (_stats h) |},
   [session_subscribe symbols]).

(** [BloombergHandler.unsubscribe] *)
Definition unsubscribe (symbols : list string) (h : BloombergHandler)
  : BloombergHandler * list SessionCall :=
  ({| _subscriptions := remove_each symbols (_subscriptions h);
      _stats := _stats h |},
   [session_unsubscribe symbols]).

End bloomberg_handler.

(** *** src/handlers/cme_handler.py *)

Module cme_handler.

(** [struct.unpack] of an unsigned little-endian field. *)
Definition le_uint (bs : list Byte.byte) : Z :=
  foldr (λ b acc, Z.of_N (Byte.to_N b) + 256 * acc) 0 bs.

(** [struct.unpack('<q', bs)]: signed 64-bit little-endian. *)
Definition le_int64 (bs : list Byte.byte) : Z :=
  let u := le_uint bs in
  if u <? 2 ^ 63 then u else u - 2 ^ 64.

(** [data[a:b]] for non-negative bounds. *)
Definition slice {A} (data : list A) (a b : Z) : list A :=
  take (Z.to_nat (b - a)) (drop (Z.to_nat a) data).

Definition len {A} (data : list A) : Z := Z.of_nat (length data).

Definition TEMPLATE_MD_INCREMENTAL_REFRESH : Z := 32.
Definition TEMPLATE_MD_SNAPSHOT_FULL_REFRESH : Z := 38.
Definition TEMPLATE_SECURITY_STATUS : Z := 30.

Definition ENTRY_TYPE_BID : Z := 48.      (* ord('0') *)
Definition ENTRY_TYPE_OFFER : Z := 49.    (* ord('1') *)
Definition ENTRY_TYPE_TRADE : Z := 50.    (* ord('2') *)

Definition PACKET_HEADER_SIZE : Z := 12.  (* struct.calcsize("<IQ") *)
Definition MSG_HEADER_SIZE : Z := 10.     (* struct.calcsize("<HHHHH") *)

(** An order book: [{'bids': {}, 'asks': {}}]. *)
Record Book := mkBook {
  bids : gmap Z Z;
  asks : gmap Z Z
}.

Record CMEHandler := mkCMEHandler {
  _subscriptions : list string;
  _stats : gmap string FeedStats;
  _expected_seq : Z;
  _gaps : list (Z * Z);
  _security_map : gmap Z string;
  _books : gmap string Book
}.

(** [CMEHandler.__init__] *)
Definition CMEHandler_init : CMEHandler :=
  {| _subscriptions := [];
     _stats := ∅;
     _expected_seq := 0;
     _gaps := [];
     _security_map := ∅;
     _books := ∅ |}.

(** [CMEHandler.subscribe] *)
Definition subscribe (symbols : list string) (h : CMEHandler) : CMEHandler :=
  {| _subscriptions := _subscriptions h ++ symbols;
     _stats := init_stats CME symbols (_stats h);
     _expected_seq := _expected_seq h;
     _gaps := _gaps h;
     _security_map := _security_map h;
     _books := foldl (λ m s, <[s := mkBook ∅ ∅]> m) (_books h) symbols |}.

(** One turn of the loop of [CMEHandler.unsubscribe]. *)
Definition unsubscribe_one (h : CMEHandler) (s : string) : CMEHandler :=
  {| _subscriptions :=
       if Py.contains s (_subscriptions h) then Py.remove s (_subscriptions h)
       else _subscriptions h;
     _stats := _stats h;
     _expected_seq := _expected_seq h;
     _gaps := _gaps h;
     _security_map := _security_map h;
     _books :=
       if bool_decide (is_Some (_books h !! s)) then delete s (_books h)
       else _books h |}.

(** [CMEHandler.unsubscribe] *)
Definition unsubscribe (symbols : list string) (h : CMEHandler) : CMEHandler :=
  foldl unsubscribe_one h symbols.

(** [CMEHandler._parse_incremental_refresh] *)
Definition _parse_incremental_refresh (h : CMEHandler)
    (data : list Byte.byte) (timestamp : Z) : list Tick :=
  if len data <? 20 then []
  else
    let entry_type := le_uint (slice data 0 1) in
    let security_id := le_uint (slice data 1 5) in
    let price_mantissa := le_int64 (slice data 5 13) in
    let size := le_uint (slice data 13 17) in
    let symbol :=
      default ("SEC_" +:+ pretty security_id) (_security_map h !! security_id) in
    let price := price_mantissa in
    if entry_type =? ENTRY_TYPE_BID then
      [ {| timestamp_ns := timestamp; symbol := symbol; tick_type := QUOTE;
           bid_price := Some price; ask_price := None; trade_price := None;
           bid_size := Some size; ask_size := None; trade_size := None;
           exchange := None; vendor := Some CME; sequence_num := None;
           price_precision := 7 |} ]
    else if entry_type =? ENTRY_TYPE_OFFER then
      [ {| timestamp_ns := timestamp; symbol := symbol; tick_type := QUOTE;
           bid_price := None; ask_price := Some price; trade_price := None;
           bid_size := None; ask_size := Some size; trade_size := None;
           exchange := None; vendor := Some CME; sequence_num := None;
           price_precision := 7 |} ]
    else if entry_type =? ENTRY_TYPE_TRADE then
      [ {| timestamp_ns := timestamp; symbol := symbol; tick_type := TRADE;
           bid_price := None; ask_price := None; trade_price := Some price;
           bid_size := None; ask_size := None; trade_size := Some size;
           exchange := None; vendor := Some CME; sequence_num := None;
           price_precision := 7 |} ]
    else [].

(** The [while offset + MSG_HEADER_SIZE <= len(data)] loop of
    [parse_packet]. Every turn advances [offset] by [msg_size >= 1], so
    [fuel = len(data)] turns are never used up (see
    [parse_messages_fuel]). *)
Fixpoint parse_messages (fuel : nat) (h : CMEHandler) (data : list Byte.byte)
    (sending_time offset : Z) (ticks : list Tick) : list Tick :=
  match fuel with
  | O => ticks
  | S fuel' =>
      if offset + MSG_HEADER_SIZE <=? len data then
        let header := slice data offset (offset + MSG_HEADER_SIZE) in
        let msg_size := le_uint (slice header 0 2) in
        let template_id := le_uint (slice header 4 6) in
        if msg_size =? 0 then ticks
        else
          let msg_data := slice data (offset + MSG_HEADER_SIZE) (offset + msg_size) in
          let ticks :=
            if template_id =? TEMPLATE_MD_INCREMENTAL_REFRESH
            then ticks ++ _parse_incremental_refresh h msg_data sending_time
            else ticks in
          parse_messages fuel' h data sending_time (offset + msg_size) ticks
      else ticks
  end.

(** The gap-detection statements of [parse_packet]. *)
Definition track_sequence (seq_num : Z) (h : CMEHandler) : CMEHandler :=
  {| _subscriptions := _subscriptions h;
     _stats := _stats h;
     _expected_seq := seq_num + 1;
     _gaps :=
       if (0 <? _expected_seq h) && negb (seq_num =? _expected_seq h) then
         if _expected_seq h <? seq_num
         then _gaps h ++ [(_expected_seq h, seq_num - 1)]
         else _gaps h
       else _gaps h;
     _security_map := _security_map h;
     _books := _books h |}.

(** [CMEHandler.parse_packet] *)
Definition parse_packet (data : list Byte.byte) (h : CMEHandler)
  : CMEHandler * list Tick :=
  if len data <? PACKET_HEADER_SIZE then (h, [])
  else
    let header := slice data 0 PACKET_HEADER_SIZE in
    let seq_num := le_uint (slice header 0 4) in
    let sending_time := le_uint (slice header 4 12) in
    let h' := track_sequence seq_num h in
    (h', parse_messages (length data) h' data sending_time PACKET_HEADER_SIZE []).

End cme_handler.

End handlers.

(** ** Runs of the buffer operations and their invariants *)

Module tick_buffer_runs.
Import models tick_buffer.

(** Pushes in a row, with their return values. *)
Fixpoint push_all (ts : list Tick) (rb : RingBuffer)
  : option (RingBuffer * list bool) :=
  match ts with
  | [] => Some (rb, [])
  | t :: ts' =>
      '(rb', ok) ← push t rb;
      '(rb'', oks) ← push_all ts' rb';
      Some (rb'', ok :: oks)
  end.

(** Pops in a row, with their return values. *)
Fixpoint pop_times (k : nat) (rb : RingBuffer)
  : option (RingBuffer * list (option Tick)) :=
  match k with
  | O => Some (rb, [])
  | S k' =>
      '(rb', r) ← pop rb;
      '(rb'', rs) ← pop_times k' rb';
      Some (rb'', r :: rs)
  end.

(** Any interleaving of pushes and pops. *)
Inductive ring_op := do_push (t : Tick) | do_pop.

Definition ring_step (rb : RingBuffer) (op : ring_op) : option RingBuffer :=
  match op with
  | do_push t => fst <$> push t rb
  | do_pop => fst <$> pop rb
  end.

Fixpoint run_ring (ops : list ring_op) (rb : RingBuffer) : option RingBuffer :=
  match ops with
  | [] => Some rb
  | op :: ops' => rb' ← ring_step rb op; run_ring ops' rb'
  end.

(** Any interleaving of batcher pushes and flushes, each with the clock
    reading it takes. *)
Inductive buffer_op := op_push (t : Tick) (now : Z) | op_flush (now : Z).

Definition buffer_step (tb : TickBuffer) (op : buffer_op) : option TickBuffer :=
  match op with
  | op_push t now => fst <$> TickBuffer_push t now tb
  | op_flush now => _flush now tb
  end.

Fixpoint run_buffer (ops : list buffer_op) (tb : TickBuffer) : option TickBuffer :=
  match ops with
  | [] => Some tb
  | op :: ops' => tb' ← buffer_step tb op; run_buffer ops' tb'
  end.

(** Ticks accepted by the ring and not yet flushed. *)
Definition in_flight (tb : TickBuffer) : Z := size (_buffer tb).

(** *** Representation invariants *)

(** The fields of a ring buffer are consistent: the capacity is a power
    of two, the mask is its predecessor, and both indices are in range. *)
Definition ring_wf (rb : RingBuffer) : Prop :=
  (∃ k, 0 ≤ k ∧ _capacity rb = 2 ^ k) ∧
  _mask rb = _capacity rb - 1 ∧
  Z.of_nat (length (_slots rb)) = _capacity rb ∧
  0 ≤ _read_idx rb < _capacity rb ∧
  0 ≤ _write_idx rb < _capacity rb.

(** The ring holds exactly the queue [q], oldest tick first: [q] lies in
    the slots from the read index on, wrapping around. *)
Definition holds (rb : RingBuffer) (q : list Tick) : Prop :=
  ring_wf rb ∧
  Z.of_nat (length q) < _capacity rb ∧
  _write_idx rb = (_read_idx rb + Z.of_nat (length q)) mod _capacity rb ∧
  ∀ (i : nat) (t : Tick), q !! i = Some t →
    _slots rb !! Z.to_nat ((_read_idx rb + Z.of_nat i) mod _capacity rb) = Some (Some t).

(** The counter identity of the batcher. *)
Definition accounted (tb : TickBuffer) : Prop :=
  ticks_received (_stats tb)
  = ticks_processed (_stats tb) + ticks_dropped (_stats tb) + in_flight tb.

Definition buffer_inv (tb : TickBuffer) : Prop :=
  (∃ q, holds (_buffer tb) q) ∧ accounted tb.

End tick_buffer_runs.

(** ** Handler invariants and sample traffic *)

Module handler_runs.

Import models handlers.

(** The sequence number carried by a packet's header. *)
Definition packet_seq (data : list Byte.byte) : Z :=
  cme_handler.le_uint
    (cme_handler.slice (cme_handler.slice data 0 cme_handler.PACKET_HEADER_SIZE) 0 4).

(** Every symbol with an order book is subscribed. *)
Definition books_subscribed (h : cme_handler.CMEHandler) : Prop :=
  ∀ s, is_Some (cme_handler._books h !! s) → s ∈ cme_handler._subscriptions h.

(** Little-endian encoding on [n] bytes, used to build sample packets. *)
Fixpoint le_bytes (n : nat) (v : Z) : list Byte.byte :=
  match n with
  | O => []
  | S n' =>
      default Byte.x00 (Byte.of_N (Z.to_N (v mod 256))) :: le_bytes n' (v / 256)
  end.

(** A packet with one MD Incremental Refresh message (template 32) of one
    entry: 12 header bytes, 10 message-header bytes, 20 body bytes. *)
Definition refresh_packet
    (seq sending_time entry_type security_id price size : Z) : list Byte.byte :=
  le_bytes 4 seq ++ le_bytes 8 sending_time
  ++ le_bytes 2 30 ++ le_bytes 2 20 ++ le_bytes 2 32 ++ le_bytes 2 1 ++ le_bytes 2 9
  ++ le_bytes 1 entry_type ++ le_bytes 4 security_id ++ le_bytes 8 price
  ++ le_bytes 4 size ++ le_bytes 3 0.

Definition packet_100 : list Byte.byte := refresh_packet 100 1000 48 7 45322500000 10.
Definition packet_101 : list Byte.byte := refresh_packet 101 2000 49 7 45325000000 12.
Definition packet_105 : list Byte.byte := refresh_packet 105 3000 50 7 45323750000 3.

(** A Databento data message that carries no price key. *)
Definition priceless_message : databento_handler.Message :=
  {| databento_handler.msg_type := None;
     databento_handler.msg_symbol := Some "ESZ4"%string;
     databento_handler.ts_event := Some 1700000000000000000;
     databento_handler.bid_px := None;
     databento_handler.ask_px := None;
     databento_handler.trade_px := None;
     databento_handler.bid_sz := Some 150;
     databento_handler.ask_sz := Some 200;
     databento_handler.trade_sz := None;
     databento_handler.msg_exchange := None;
     databento_handler.sequence := Some 1 |}.

(** The MBP-1 message of the documentation. *)
Definition mbp1_message : databento_handler.Message :=
  {| databento_handler.msg_type := None;
     databento_handler.msg_symbol := Some "ESZ4"%string;
     databento_handler.ts_event := Some 1700000000000000000;
     databento_handler.bid_px := Some (453225 # 100);
     databento_handler.ask_px := Some (453250 # 100);
     databento_handler.trade_px := None;
     databento_handler.bid_sz := Some 150;
     databento_handler.ask_sz := Some 200;
     databento_handler.trade_sz := None;
     databento_handler.msg_exchange := None;
     databento_handler.sequence := Some 1 |}.

(** A Bloomberg quote event with both sides. *)
Definition quote_event : bloomberg_handler.Event :=
  {| bloomberg_handler.ev_type := Some "SUBSCRIPTION_DATA"%string;
     bloomberg_handler.ev_symbol := Some "ESZ4 Index"%string;
     bloomberg_handler.BID := Some (4532 # 1);
     bloomberg_handler.ASK := Some (18129 # 4);
     bloomberg_handler.LAST_PRICE := None;
     bloomberg_handler.BID_SIZE := Some 10;
     bloomberg_handler.ASK_SIZE := Some 20 |}.

(** The operations that change the state of a CME handler, and the
    states a handler reaches by them. *)
Inductive cme_op :=
| cme_subscribe (symbols : list string)
| cme_unsubscribe (symbols : list string)
| cme_packet (data : list Byte.byte).

Definition cme_step (h : cme_handler.CMEHandler) (op : cme_op)
  : cme_handler.CMEHandler :=
  match op with
  | cme_subscribe symbols => cme_handler.subscribe symbols h
  | cme_unsubscribe symbols => cme_handler.unsubscribe symbols h
  | cme_packet data => (cme_handler.parse_packet data h).1
  end.

Definition cme_run (ops : list cme_op) (h : cme_handler.CMEHandler)
  : cme_handler.CMEHandler :=
  foldl cme_step h ops.

End handler_runs.

(** ** Sample inputs *)

Module samples.

Import models tick_buffer tick_buffer_runs.

(** A trade tick for "ES". *)
Definition trade (ts price size : Z) : Tick :=
  {| timestamp_ns := ts; symbol := "ES"; tick_type := TRADE;
     bid_price := None; ask_price := None; trade_price := Some price;
     bid_size := None; ask_size := None; trade_size := Some size;
     exchange := None; vendor := Some CME; sequence_num := None;
     price_precision := 2 |}.

Definition three_ticks : list Tick :=
  [trade 1 100 1; trade 2 101 1; trade 3 102 1].

(** The ring of requested capacity 5 after the three pushes. *)
Definition three_pushed : RingBuffer :=
  Eval vm_compute in
    default (RingBuffer_init 5) (fst <$> push_all three_ticks (RingBuffer_init 5)).

(** A one-minute aggregator whose current "ES" bar starts at 60 s. *)
Definition minute_aggregator : TickAggregator :=
  default (TickAggregator_init 60 true)
    (fst <$> process_tick (trade 61000000000 100 5) (TickAggregator_init 60 true)).

(** A tick stamped 1 s: it belongs to the bar that starts at 0. *)
Definition late_tick : Tick := trade 1000000000 90 3.

(** A priced tick whose trade price is 0; the bid is 4532.25. *)
Definition zero_trade_tick : Tick :=
  {| timestamp_ns := 1000000000; symbol := "ES"; tick_type := TRADE;
     bid_price := Some 453225; ask_price := None; trade_price := Some 0;
     bid_size := None; ask_size := None; trade_size := Some 1;
     exchange := None; vendor := Some DATABENTO; sequence_num := None;
     price_precision := 2 |}.

(** A tick whose only price is a trade at 0. *)
Definition zero_only_tick : Tick :=
  {| timestamp_ns := 1000000000; symbol := "ES"; tick_type := TRADE;
     bid_price := None; ask_price := None; trade_price := Some 0;
     bid_size := None; ask_size := None; trade_size := Some 1;
     exchange := None; vendor := Some DATABENTO; sequence_num := None;
     price_precision := 2 |}.

End samples.

(** ** Supervisor scripts *)

Module supervisor_runs.

Import models base_handler.

(** An await that returns, with no stop in between. *)
Definition returns : await := mkAwait Returned false.

(** An await that raises, with no stop in between. *)
Definition raises : await := mkAwait Raised false.

(** A pass in which [connect] raises (say, the gateway refuses). *)
Definition connect_fails : Iteration :=
  {| connect_ := raises; has_subscriptions := false; subscribe_ := returns;
     deliveries := []; stream_end := returns;
     on_error_ := returns; sleep_ := returns |}.


(** A pass in which the stream delivers [ticks] and then ends normally. *)
Definition stream_ends (ticks : list Tick) : Iteration :=
  {| connect_ := returns; has_subscriptions := false; subscribe_ := returns;
     deliveries := (λ t, (t, returns)) <$> ticks; stream_end := returns;
     on_error_ := returns; sleep_ := returns |}.

(** The seconds slept, in order. *)
Definition sleeps (tr : list Action) : list Z :=
  omap (λ a, match a with Sleep d => Some d | _ => None end) tr.

(** A handler on which [start] has just set [running]. *)
Definition started (on_error : bool) : FeedHandler :=
  set_running true (FeedHandler_init on_error).



(** *** What the environment does to a pass

    The outcome of a pass is fixed by how the awaits of its try body
    complete. The descriptions below speak of these completions only. *)

(** An await that returns, with no [stop()] in between. *)
Definition quiet (a : await) : Prop :=
  how a = Returned ∧ stop_requested a = false.

Definition returned (a : await) : Prop := how a = Returned.

Definition no_stop (a : await) : Prop := stop_requested a = false.

(** The awaits made before the stream is read: [connect], and
    [subscribe] when there are subscriptions; and the calls they are. *)
Definition setup_awaits (it : Iteration) : list await :=
  connect_ it :: (if has_subscriptions it then [subscribe_ it] else []).

Definition setup_calls (it : Iteration) : list Action :=
  Connect :: (if has_subscriptions it then [Resubscribe] else []).

(** [on_tick] for every tick of [ds]. *)
Definition on_ticks (ds : list (Tick * await)) : list Action :=
  (λ d, OnTick d.1) <$> ds.

(** [interrupted it c a tr]: the try body of the pass is left by an
    exception, [Raised] or [Cancelled] according to [c], out of the await
    [a], after the calls [tr]. That is: [a] completes as [c] and every
    await before it returned. A tick reaches [on_tick] only while the
    handler is running, so for an exception out of [on_tick] no stop was
    requested before that call, and for an exception out of the stream's
    last step none was requested before the last [on_tick]. *)
Inductive interrupted (it : Iteration) (c : completion)
  : await → list Action → Prop :=
| in_connect :
    how (connect_ it) = c →
    interrupted it c (connect_ it) [Connect]
| in_subscribe :
    returned (connect_ it) → has_subscriptions it = true →
    how (subscribe_ it) = c →
    interrupted it c (subscribe_ it) [Connect; Resubscribe]
| in_on_tick pre tick a post :
    Forall quiet (setup_awaits it) →
    deliveries it = pre ++ (tick, a) :: post →
    Forall (λ d, quiet d.2) pre →
    how a = c →
    interrupted it c a (setup_calls it ++ on_ticks pre ++ [OnTick tick])
| in_stream_end :
    Forall returned (setup_awaits it) →
    Forall (λ d, returned d.2) (deliveries it) →
    (∀ pre d, deliveries it = pre ++ [d] →
       Forall no_stop (setup_awaits it) ∧ Forall (λ d, no_stop d.2) pre) →
    how (stream_end it) = c →
    interrupted it c (stream_end it) (setup_calls it ++ on_ticks (deliveries it)).

(** Every await of the try body returns: the stream ends normally. *)
Definition ends_normally (it : Iteration) : Prop :=
  Forall returned (setup_awaits it) ∧
  Forall (λ d, returned d.2) (deliveries it) ∧
  returned (stream_end it).

(** No stop is requested during the awaits of the try body. *)
Definition body_undisturbed (it : Iteration) : Prop :=
  Forall no_stop (setup_awaits it) ∧
  Forall (λ d, no_stop d.2) (deliveries it) ∧
  no_stop (stream_end it).


(** The seconds the except clause sleeps on: 1 once [connect] returned in
    this pass, the delay [d] left by earlier passes otherwise. *)
Definition delay_at_failure (it : Iteration) (d : Z) : Z :=
  match how (connect_ it) with Returned => 1 | _ => d end.

(** How the try body ends when its last await completes as [c]. *)
Definition body_end (c : completion) : body_result :=
  match c with
  | Returned => StreamEnded
  | Raised => Failed
  | Cancelled => Cancel
  end.


(** A pass in which the second [on_tick] is cancelled. *)
Definition second_tick_cancelled : Iteration :=
  {| connect_ := returns; has_subscriptions := false; subscribe_ := returns;
     deliveries := [(samples.trade 1 100 1, returns);
                    (samples.trade 2 101 1, mkAwait Cancelled false);
                    (samples.trade 3 102 1, returns)];
     stream_end := returns; on_error_ := returns; sleep_ := returns |}.

(** The handler when the stream is first read, [connect] and [subscribe]
    having returned. *)
Definition after_setup (it : Iteration) (h : FeedHandler) : FeedHandler :=
  let h := set_reconnect_delay 1 (set_connected true (during (connect_ it) h)) in
  if has_subscriptions it then during (subscribe_ it) h else h.

End supervisor_runs.

(** ** More of src/tick_buffer.py: observable runs, timer and stop *)

Module tick_buffer_more.

Import models tick_buffer tick_buffer_runs.

(** What a ring operation hands back to its caller. *)
Inductive ring_result := pushed (ok : bool) | popped (tick : option Tick).

Definition ring_step_out (rb : RingBuffer) (op : ring_op)
  : option (RingBuffer * ring_result) :=
  match op with
  | do_push t => '(rb', ok) ← push t rb; Some (rb', pushed ok)
  | do_pop => '(rb', r) ← pop rb; Some (rb', popped r)
  end.

(** An interleaving of pushes and pops, with every return value. *)
Fixpoint run_ring_out (ops : list ring_op) (rb : RingBuffer)
  : option (RingBuffer * list ring_result) :=
  match ops with
  | [] => Some (rb, [])
  | op :: ops' =>
      '(rb', r) ← ring_step_out rb op;
      '(rb'', rs) ← run_ring_out ops' rb';
      Some (rb'', r :: rs)
  end.

(** The reference the ring is compared with: a FIFO queue, as a list with
    the oldest tick first, that refuses a push once it holds [bound]
    ticks. *)
Definition queue_step (bound : Z) (q : list Tick) (op : ring_op)
  : list Tick * ring_result :=
  match op with
  | do_push t =>
      if Z.of_nat (length q) <? bound then (q ++ [t], pushed true)
      else (q, pushed false)
  | do_pop => (tail q, popped (head q))
  end.

Fixpoint queue_run (bound : Z) (ops : list ring_op) (q : list Tick)
  : list Tick * list ring_result :=
  match ops with
  | [] => (q, [])
  | op :: ops' =>
      let '(q', r) := queue_step bound q op in
      let '(q'', rs) := queue_run bound ops' q' in
      (q'', r :: rs)
  end.

Definition set_buffer_running (b : bool) (tb : TickBuffer) : TickBuffer :=
  {| _batch_size := _batch_size tb;
     _flush_interval_ns := _flush_interval_ns tb;
     _buffer := _buffer tb;
     _stats := _stats tb;
     _last_flush_time := _last_flush_time tb;
     _running := b;
     delivered := delivered tb |}.

(** [TickBuffer.start]: the flush task it creates is rendered by the
    timer events below. *)
Definition TickBuffer_start (tb : TickBuffer) : TickBuffer :=
  set_buffer_running true tb.

(** One turn of [TickBuffer._flush_loop] after its sleep:
    [if not self._buffer.is_empty: await self._flush()]. *)
Definition _flush_loop_turn (now : Z) (tb : TickBuffer) : option TickBuffer :=
  if negb (is_empty (_buffer tb)) then _flush now tb else Some tb.

(** [TickBuffer.stop]: the flush task is cancelled, then one final flush. *)
Definition TickBuffer_stop (now : Z) (tb : TickBuffer) : option TickBuffer :=
  _flush now (set_buffer_running false tb).

(** What can happen to a batcher, each event with the clock reading it
    takes. The timer fires only while the batcher is running. *)
Inductive buffer_event :=
| ev_start
| ev_push (tick : Tick) (now : Z)
| ev_timer (now : Z)
| ev_stop (now : Z).

(** One event; a push is logged with its return value. *)
Definition buffer_event_step (tb : TickBuffer) (ev : buffer_event)
  : option (TickBuffer * list (Tick * bool)) :=
  match ev with
  | ev_start => Some (TickBuffer_start tb, [])
  | ev_push t now => '(tb', ok) ← TickBuffer_push t now tb; Some (tb', [(t, ok)])
  | ev_timer now =>
      if _running tb then tb' ← _flush_loop_turn now tb; Some (tb', [])
      else Some (tb, [])
  | ev_stop now => tb' ← TickBuffer_stop now tb; Some (tb', [])
  end.

Fixpoint run_events (evs : list buffer_event) (tb : TickBuffer)
  : option (TickBuffer * list (Tick * bool)) :=
  match evs with
  | [] => Some (tb, [])
  | ev :: evs' =>
      '(tb', log) ← buffer_event_step tb ev;
      '(tb'', log') ← run_events evs' tb';
      Some (tb'', log ++ log')
  end.

(** The ticks whose push returned true, in push order. *)
Definition accepted (log : list (Tick * bool)) : list Tick :=
  fst <$> filter (λ p, p.2 = true) log.

(** The ticks whose push returned false. *)
Definition rejected (log : list (Tick * bool)) : list Tick :=
  fst <$> filter (λ p, p.2 = false) log.

(** The ring holds [q] and no popped tick is left in a slot: the slots
    past the queue are [None]. *)
Definition holds_clean (rb : RingBuffer) (q : list Tick) : Prop :=
  holds rb q ∧
  ∀ i : nat, (length q ≤ i)%nat → Z.of_nat i < _capacity rb →
    _slots rb !! Z.to_nat ((_read_idx rb + Z.of_nat i) mod _capacity rb) = Some None.

(** What holds of a batcher whose ring holds the queue [q] after a run
    with push log [log]: nothing is lost, repeated or reordered; the
    counters count what they name; the batches respect the batch size. *)
Definition batcher_core (tb : TickBuffer) (log : list (Tick * bool))
    (q : list Tick) : Prop :=
  holds (_buffer tb) q ∧
  concat (delivered tb) ++ q = accepted log ∧
  ticks_received (_stats tb) = Z.of_nat (length log) ∧
  ticks_dropped (_stats tb) = Z.of_nat (length (rejected log)) ∧
  ticks_processed (_stats tb) = Z.of_nat (length (concat (delivered tb))) ∧
  batches_flushed (_stats tb) = Z.of_nat (length (delivered tb)) ∧
  Forall (λ b, b ≠ [] ∧ Z.of_nat (length b) ≤ _batch_size tb) (delivered tb).

(** Between events the count trigger has kept the ring below the batch
    size (when the batch size is positive). *)
Definition batcher_inv (tb : TickBuffer) (log : list (Tick * bool)) : Prop :=
  ∃ q, batcher_core tb log q ∧
       (1 ≤ _batch_size tb → Z.of_nat (length q) < _batch_size tb).

End tick_buffer_more.

(** ** More of the aggregator: runs over a tick stream *)

Module aggregator_more.

Import models tick_buffer.

(** [TickAggregator.get_current_bar] *)
Definition get_current_bar (s : string) (agg : TickAggregator) : option Bar :=
  _bars agg !! s.

(** [process_tick] over a stream, with the completed bars it returned, in
    order. *)
Fixpoint run_ticks (ticks : list Tick) (agg : TickAggregator)
  : option (TickAggregator * list Bar) :=
  match ticks with
  | [] => Some (agg, [])
  | t :: ts =>
      '(agg', out) ← process_tick t agg;
      '(agg'', outs) ← run_ticks ts agg';
      Some (agg'', option_list out ++ outs)
  end.

(** A bar is well formed for the key [s] it is stored under. *)
Definition bar_ok (timeframe_ns : Z) (s : string) (b : Bar) : Prop :=
  bar_symbol b = s ∧
  low b ≤ open b ≤ high b ∧
  low b ≤ close b ≤ high b ∧
  1 ≤ tick_count b ∧
  (timeframe_ns | bar_timestamp_ns b).

Definition bars_ok (agg : TickAggregator) : Prop :=
  ∀ s b, _bars agg !! s = Some b → bar_ok (_timeframe_ns agg) s b.

(** The completed bars of one symbol, in the order they were returned. *)
Definition bars_of (s : string) (outs : list Bar) : list Bar :=
  filter (λ b, bar_symbol b = s) outs.

(** The ticks of one symbol. *)
Definition ticks_of (s : string) (ticks : list Tick) : list Tick :=
  filter (λ t, symbol t = s) ticks.

(** The ticks that contribute a price. *)
Definition priced (ticks : list Tick) : list Tick :=
  filter (λ t, is_Some (select_price t)) ticks.

(** Totals of a bar field over completed bars and over the current bars. *)
Definition list_total (f : Bar → Z) (bars : list Bar) : Z :=
  foldr (λ b acc, f b + acc) 0 bars.

Definition bars_total (f : Bar → Z) (m : gmap string Bar) : Z :=
  map_fold (λ _ b acc, f b + acc) 0 m.

(** The total of a per-tick amount over a stream. *)
Definition tick_total (c : Tick → Z) (ticks : list Tick) : Z :=
  foldr (λ t acc, c t + acc) 0 ticks.

End aggregator_more.

(** ** More on the supervisor loop *)

Module supervisor_more.

Import models base_handler.

(** The values the reconnect delay takes. *)
Definition delay_schedule : list Z := [1; 2; 4; 8; 16; 32; 60].

(** The calls the [try] body can make. *)
Definition body_action (a : Action) : Prop :=
  match a with
  | Connect | Resubscribe | OnTick _ => True
  | OnError | Sleep _ | Disconnect => False
  end.

(** The calls one pass of the loop can make. *)
Definition pass_action (a : Action) : Prop :=
  match a with
  | Disconnect => False
  | _ => True
  end.

End supervisor_more.

(** ** src/models.py: FeedStats.update *)

Module feed_stats.

Import models.

(** [FeedStats.update]; the moving average is computed on rationals. *)
Definition update (tick : Tick) (receive_time_ns : Z) (st : FeedStats) : FeedStats :=
  let ticks_received := ticks_received st + 1 in
  let '(gaps_detected, last_sequence) :=
    match sequence_num tick with
    | Some s =>
        (if (0 <? last_sequence st) && negb (s =? last_sequence st + 1)
         then gaps_detected st + 1 else gaps_detected st,
         s)
    | None => (gaps_detected st, last_sequence st)
    end in
  let latency_ns_avg :=
    if 0 <? timestamp_ns tick then
      let latency := receive_time_ns - timestamp_ns tick in
      if latency_ns_avg st =? 0 then latency
      else tick_buffer.ewma (latency_ns_avg st) latency
    else latency_ns_avg st in
  {| fs_vendor := fs_vendor st;
     fs_symbol := fs_symbol st;
     ticks_received := ticks_received;
     last_tick_time_ns := receive_time_ns;
     gaps_detected := gaps_detected;
     last_sequence := last_sequence;
     latency_ns_avg := latency_ns_avg |}.

(** The ticks of one symbol, each with the clock reading at its receipt,
    applied in order. *)
Definition update_all (ups : list (Tick * Z)) (st : FeedStats) : FeedStats :=
  foldl (λ st up, update up.1 up.2 st) st ups.

(** The sequence numbers a stream carries, unsequenced ticks left out. *)
Definition sequence_nums (ups : list (Tick * Z)) : list Z :=
  omap (λ up, sequence_num up.1) ups.

(** The number of sequence numbers that do not follow their predecessor,
    [last] being the one before the first; a predecessor that is not
    positive is no predecessor. *)
Fixpoint breaks (last : Z) (seqs : list Z) : Z :=
  match seqs with
  | [] => 0
  | s :: rest =>
      (if (0 <? last) && negb (s =? last + 1) then 1 else 0) + breaks s rest
  end.

(** Each number is its predecessor plus one. *)
Definition consecutive (seqs : list Z) : Prop :=
  ∀ (i : nat) a b, seqs !! i = Some a → seqs !! S i = Some b → b = a + 1.

End feed_stats.

(** ** More on the CME packet parser *)

Module cme_more.

Import models handlers handler_runs.

(** Packets handed to [parse_packet] one after the other. *)
Definition run_packets (packets : list (list Byte.byte))
    (h : cme_handler.CMEHandler) : cme_handler.CMEHandler :=
  foldl (λ h p, (cme_handler.parse_packet p h).1) h packets.

(** The sequence numbers of the packets that carry a whole header. *)
Definition header_seqs (packets : list (list Byte.byte)) : list Z :=
  packet_seq <$>
    filter (λ p, cme_handler.PACKET_HEADER_SIZE ≤ cme_handler.len p) packets.

(** A sequence number lies in one of the recorded gaps. *)
Definition covered (n : Z) (gaps : list (Z * Z)) : Prop :=
  ∃ g, g ∈ gaps ∧ g.1 ≤ n ≤ g.2.

(** The symbol given to a security id. *)
Definition symbol_of (h : cme_handler.CMEHandler) (security_id : Z) : string :=
  default ("SEC_" +:+ pretty security_id)
          (cme_handler._security_map h !! security_id).

(** What a tick of the CME parser looks like: one side only, with its
    size, stamped and labelled by the parser. *)
Definition cme_tick_shape (sending_time : Z) (t : Tick) : Prop :=
  timestamp_ns t = sending_time ∧ vendor t = Some CME ∧
  price_precision t = 7 ∧ sequence_num t = None ∧ exchange t = None ∧
  ∃ price size,
    - 2 ^ 63 ≤ price < 2 ^ 63 ∧ 0 ≤ size < 2 ^ 32 ∧
    ((tick_type t = QUOTE ∧
      (bid_price t, ask_price t, trade_price t) = (Some price, None, None) ∧
      (bid_size t, ask_size t, trade_size t) = (Some size, None, None)) ∨
     (tick_type t = QUOTE ∧
      (bid_price t, ask_price t, trade_price t) = (None, Some price, None) ∧
      (bid_size t, ask_size t, trade_size t) = (None, Some size, None)) ∨
     (tick_type t = TRADE ∧
      (bid_price t, ask_price t, trade_price t) = (None, None, Some price) ∧
      (bid_size t, ask_size t, trade_size t) = (None, None, Some size))).

(** Sequence numbers handed to the gap detection one after the other. *)
Definition track_all (seqs : list Z) (h : cme_handler.CMEHandler)
  : cme_handler.CMEHandler :=
  foldl (λ h s, cme_handler.track_sequence s h) h seqs.

(** The sending time carried by a packet's header. *)
Definition packet_time (data : list Byte.byte) : Z :=
  cme_handler.le_uint
    (cme_handler.slice
       (cme_handler.slice data 0 cme_handler.PACKET_HEADER_SIZE) 4 12).

End cme_more.

(** ** src/handlers/databento_handler.py: DatabentoHandlerBinary *)

Module databento_binary.

Import models handlers handler_runs.

Definition MBP1_SIZE : Z := 34.           (* struct.calcsize("<qqqIIBB") *)

(** [DatabentoHandlerBinary._parse_binary_record] *)
Definition _parse_binary_record (rtype timestamp : Z) (data : list Byte.byte)
    (receive_time : Z) : option Tick :=
  if cme_handler.len data <? MBP1_SIZE then None
  else
    let values := cme_handler.slice data 0 MBP1_SIZE in
    let bid_px := cme_handler.le_int64 (cme_handler.slice values 0 8) in
    let ask_px := cme_handler.le_int64 (cme_handler.slice values 8 16) in
    let trade_px := cme_handler.le_int64 (cme_handler.slice values 16 24) in
    let bid_sz := cme_handler.le_uint (cme_handler.slice values 24 28) in
    let ask_sz := cme_handler.le_uint (cme_handler.slice values 28 32) in
    let precision := 9 in
    Some {| timestamp_ns := timestamp;
            symbol := "";
            tick_type := BBO;
            bid_price := Some bid_px;
            ask_price := Some ask_px;
            trade_price := if negb (trade_px =? 0) then Some trade_px else None;
            bid_size := Some bid_sz;
            ask_size := Some ask_sz;
            trade_size := None;
            exchange := None;
            vendor := Some DATABENTO;
            sequence_num := None;
            price_precision := precision |}.

(** An MBP-1 record as [struct.pack("<qqqIIBB", ...)] lays it out. *)
Definition mbp1_record (bid_px ask_px trade_px bid_sz ask_sz flags pad : Z)
  : list Byte.byte :=
  le_bytes 8 bid_px ++ le_bytes 8 ask_px ++ le_bytes 8 trade_px
  ++ le_bytes 4 bid_sz ++ le_bytes 4 ask_sz ++ le_bytes 1 flags ++ le_bytes 1 pad.

End databento_binary.

(** ** src/feed_handler/feed_manager.py: tick routing *)

Module feed_manager.

Import models tick_buffer tick_buffer_more aggregator_more.

(** The fields of [FeedManager] that [_handle_tick] reads or writes;
    [forwarded] lists the calls of the tick callback. *)
Record FeedManager := mkFeedManager {
  _on_tick : bool;                          (* whether a tick callback is set *)
  _buffer : option TickBuffer;
  _aggregator : option TickAggregator;
  _total_ticks : Z;
  forwarded : list Tick
}.

(** [FeedManager.__init__]; [on_batch] tells whether a batch callback is
    given, [now] is the clock reading taken by [TickBuffer.__init__]. *)
Definition FeedManager_init (on_tick on_batch : bool)
    (buffer_size batch_size flush_interval_ms now : Z) : FeedManager :=
  {| _on_tick := on_tick;
     _buffer :=
       if on_batch
       then Some (TickBuffer_init batch_size flush_interval_ms buffer_size now)
       else None;
     _aggregator := None;
     _total_ticks := 0;
     forwarded := [] |}.

(** [FeedManager.enable_aggregation] *)
Definition enable_aggregation (timeframe_seconds : Z) (on_bar : bool)
    (m : FeedManager) : FeedManager :=
  {| _on_tick := _on_tick m;
     _buffer := _buffer m;
     _aggregator := Some (TickAggregator_init timeframe_seconds on_bar);
     _total_ticks := _total_ticks m;
     forwarded := forwarded m |}.

(** [FeedManager._handle_tick], the tick callback returning; [now] is the
    clock reading a count triggered flush would take.  An exception raised
    by the buffer or the aggregator is rendered by [None]. *)
Definition _handle_tick (tick : Tick) (now : Z) (m : FeedManager)
  : option FeedManager :=
  let total := _total_ticks m + 1 in
  buffer ← match _buffer m with
           | Some tb => '(tb', _) ← TickBuffer_push tick now tb; Some (Some tb')
           | None => Some None
           end;
  let forwarded := if _on_tick m then forwarded m ++ [tick] else forwarded m in
  aggregator ← match _aggregator m with
               | Some agg => '(agg', _) ← process_tick tick agg; Some (Some agg')
               | None => Some None
               end;
  Some {| _on_tick := _on_tick m;
          _buffer := buffer;
          _aggregator := aggregator;
          _total_ticks := total;
          forwarded := forwarded |}.

(** The ticks a handler hands over, each with its clock reading. *)
Fixpoint handle_all (stream : list (Tick * Z)) (m : FeedManager)
  : option FeedManager :=
  match stream with
  | [] => Some m
  | (tick, now) :: rest => m' ← _handle_tick tick now m; handle_all rest m'
  end.

(** The same stream as seen by the batcher alone and by the aggregator
    alone. *)
Definition pushes (stream : list (Tick * Z)) : list buffer_event :=
  (λ p, ev_push p.1 p.2) <$> stream.

Definition buffer_route (stream : list (Tick * Z)) (buffer : option TickBuffer)
  : option (option TickBuffer) :=
  match buffer with
  | Some tb => '(tb', _) ← run_events (pushes stream) tb; Some (Some tb')
  | None => Some None
  end.

Definition aggregator_route (stream : list (Tick * Z))
    (aggregator : option TickAggregator) : option (option TickAggregator) :=
  match aggregator with
  | Some agg => '(agg', _) ← run_ticks (fst <$> stream) agg; Some (Some agg')
  | None => Some None
  end.

End feed_manager.

(** ** More sample inputs *)

Module more_samples.

Import models tick_buffer tick_buffer_runs tick_buffer_more aggregator_more.
Import base_handler supervisor_runs handlers handler_runs.

(** A batcher's life: start, three pushes, a timer tick, stop. *)
Definition batcher_events : list buffer_event :=
  [ev_start; ev_push (samples.trade 1 100 1) 10; ev_push (samples.trade 2 101 1) 20;
   ev_push (samples.trade 3 102 1) 30; ev_timer 40].

(** A trade tick for "NQ". *)
Definition nq_trade (ts price size : Z) : Tick :=
  {| timestamp_ns := ts; symbol := "NQ"; tick_type := TRADE;
     bid_price := None; ask_price := None; trade_price := Some price;
     bid_size := None; ask_size := None; trade_size := Some size;
     exchange := None; vendor := Some CME; sequence_num := None;
     price_precision := 2 |}.

(** Two symbols over three minutes: "ES" trades in minutes 1, 1, 2 and 3,
    "NQ" in minutes 1 and 3. *)
Definition two_symbols : list Tick :=
  [samples.trade 61000000000 100 5; nq_trade 62000000000 200 1;
   samples.trade 63000000000 102 2; samples.trade 125000000000 99 1;
   nq_trade 181000000000 201 4; samples.trade 182000000000 101 3].

(** The one-minute aggregator after [two_symbols], and the bars it
    completed on the way. *)
Definition two_symbols_run : option (TickAggregator * list Bar) :=
  run_ticks two_symbols (TickAggregator_init 60 true).

Definition two_symbols_agg : TickAggregator :=
  default (TickAggregator_init 60 true) (fst <$> two_symbols_run).

Definition two_symbols_bars : list Bar :=
  default [] (snd <$> two_symbols_run).

(** The same ticks as handed over by a handler, with clock readings. *)
Definition two_symbols_stream : list (Tick * Z) :=
  (λ t, (t, timestamp_ns t + 1000)) <$> two_symbols.

(** A tick carrying a sequence number. *)
Definition sequenced (seq : Z) : Tick :=
  {| timestamp_ns := 1700000000000000000 + seq; symbol := "ESZ4";
     tick_type := TRADE;
     bid_price := None; ask_price := None; trade_price := Some 453225;
     bid_size := None; ask_size := None; trade_size := Some 1;
     exchange := None; vendor := Some DATABENTO; sequence_num := Some seq;
     price_precision := 2 |}.

(** Sequence numbers 5, 6, 7, with an unsequenced tick in between. *)
Definition in_order_updates : list (Tick * Z) :=
  [(sequenced 5, 1700000000000001000); (sequenced 6, 1700000000000002000);
   (samples.trade 1700000000000000000 100 1, 1700000000000003000);
   (sequenced 7, 1700000000000004000)].

(** The three packets numbered 100, 101 and 105. *)
Definition three_packets : list (list Byte.byte) :=
  [packet_100; packet_101; packet_105].

End more_samples.

(** * Verified properties *)

(** ** Ring buffer and batcher *)

Section ring_buffer_facts.
Import models tick_buffer tick_buffer_runs samples.

Lemma mod_wrap a c :
  0 ≤ a < 2 * c → a mod c = if a <? c then a else a - c.
Proof.
  intros H. destruct (Z.ltb_spec a c).
  - apply Z.mod_small. lia.
  - symmetry. apply (Z.mod_unique a c 1); lia.
Qed.

Ltac ltb_cases :=
  repeat match goal with
         | |- context [?a <? ?b] => destruct (Z.ltb_spec a b)
         end.

(** Normalises every [_ mod c] of the goal whose argument lies in
    [0, 2c) and finishes by linear arithmetic. *)
Ltac wrap := repeat (rewrite mod_wrap by (ltb_cases; lia)); ltb_cases; try lia.

Ltac mod_bound :=
  match goal with
  | |- context [?a mod ?c] => pose proof (Z.mod_pos_bound a c ltac:(lia)); lia
  end.

Lemma land_mask rb a : ring_wf rb → Z.land a (_mask rb) = a mod _capacity rb.
Proof.
  intros ([k [Hk Hc]] & Hm & _). rewrite Hm, Hc.
  rewrite <- Z.land_ones by done. f_equal. rewrite Z.ones_equiv. lia.
Qed.

Lemma bit_length_nonneg n : 0 ≤ Py.bit_length n.
Proof.
  unfold Py.bit_length. destruct (n =? 0); [done|].
  pose proof (Z.log2_nonneg (Z.abs n)). lia.
Qed.

Lemma init_capacity N : _capacity (RingBuffer_init N) = 2 ^ Py.bit_length (N - 1).
Proof. simpl. rewrite Z.shiftl_1_l. done. Qed.

Lemma init_holds N : holds (RingBuffer_init N) [].
Proof.
  pose proof (bit_length_nonneg (N - 1)) as Hk.
  pose proof (init_capacity N) as Hc.
  assert (0 < _capacity (RingBuffer_init N)) as Hpos.
  { rewrite Hc. by apply Z.pow_pos_nonneg. }
  simpl in Hpos.
  split; [|split; [|split]].
  - split; [eauto|]. simpl. rewrite length_replicate. lia.
  - done.
  - simpl. rewrite Z.mod_0_l; [done|]. lia.
  - intros i t Hi. done.
Qed.

Lemma size_holds rb q : holds rb q → size rb = Z.of_nat (length q).
Proof.
  intros (Hwf & Hlen & Hw & _). unfold size.
  rewrite land_mask by done. rewrite Hw.
  destruct Hwf as (_ & _ & _ & Hr & _).
  rewrite (mod_wrap (_ + _)) by lia.
  ltb_cases; [rewrite Z.mod_small; lia|].
  rewrite <- (Z.mod_unique (_read_idx rb + Z.of_nat (length q) - _capacity rb - _read_idx rb)
    (_capacity rb) (-1) (Z.of_nat (length q))); lia.
Qed.

Lemma setitem_in_range {A} (l : list A) i x :
  0 ≤ i < Z.of_nat (length l) → Py.setitem l i x = Some (<[Z.to_nat i := x]> l).
Proof.
  intros H. unfold Py.setitem.
  destruct (Z.leb_spec 0 i); [|lia]. destruct (Z.ltb_spec i (Z.of_nat (length l))); [done|lia].
Qed.

Lemma getitem_in_range {A} (l : list A) i :
  0 ≤ i → Py.getitem l i = l !! Z.to_nat i.
Proof. intros H. unfold Py.getitem. destruct (Z.leb_spec 0 i); [done|lia]. Qed.

Lemma push_accepts rb q t :
  holds rb q → Z.of_nat (length q) < _capacity rb - 1 →
  ∃ rb', push t rb = Some (rb', true) ∧ holds rb' (q ++ [t]) ∧
         _capacity rb' = _capacity rb.
Proof.
  intros (Hwf & Hlen & Hw & Hq) Hroom.
  pose proof Hwf as (Hpow & Hm & Hsl & Hr & Hwr).
  unfold push. rewrite land_mask by done.
  assert ((_write_idx rb + 1) mod _capacity rb
          = (_read_idx rb + Z.of_nat (length q) + 1) mod _capacity rb) as Hnext.
  { rewrite Hw. rewrite (mod_wrap (_read_idx rb + _)) by lia.
    ltb_cases; [done|]. wrap. }
  rewrite Hnext.
  assert ((_read_idx rb + Z.of_nat (length q) + 1) mod _capacity rb ≠ _read_idx rb) as Hne.
  { wrap. }
  apply Z.eqb_neq in Hne. rewrite Hne.
  rewrite setitem_in_range by lia. simpl.
  eexists. split; [done|]. split; [|done].
  split; [|split; [|split]]; simpl.
  - unfold ring_wf; simpl. rewrite length_insert.
    split_and!; try done; try lia; mod_bound.
  - rewrite length_app. simpl. lia.
  - rewrite length_app. simpl. f_equal. lia.
  - intros i t' Hi.
    destruct (decide (i = length q)) as [->|Hneq].
    + rewrite lookup_app_r in Hi by lia. rewrite Nat.sub_diag in Hi. simpl in Hi.
      injection Hi as <-. rewrite <- Hw. apply list_lookup_insert_eq. lia.
    + assert (i < length q)%nat as Hlt.
      { apply lookup_lt_Some in Hi. rewrite length_app in Hi. simpl in Hi. lia. }
      rewrite lookup_app_l in Hi by done.
      rewrite list_lookup_insert_ne; [by apply Hq|].
      rewrite Hw. wrap.
Qed.

Lemma push_rejects rb q t :
  holds rb q → Z.of_nat (length q) = _capacity rb - 1 →
  push t rb = Some (rb, false).
Proof.
  intros (Hwf & Hlen & Hw & Hq) Hfull.
  pose proof Hwf as (Hpow & Hm & Hsl & Hr & Hwr).
  unfold push. rewrite land_mask by done.
  assert ((_write_idx rb + 1) mod _capacity rb = _read_idx rb) as ->.
  { rewrite Hw. rewrite (mod_wrap (_read_idx rb + _)) by lia.
    ltb_cases; wrap. }
  by rewrite Z.eqb_refl.
Qed.

Lemma pop_empty rb : holds rb [] → pop rb = Some (rb, None).
Proof.
  intros (Hwf & Hlen & Hw & Hq).
  pose proof Hwf as (Hpow & Hm & Hsl & Hr & Hwr).
  unfold pop. simpl in Hw. rewrite Z.add_0_r, Z.mod_small in Hw by lia.
  rewrite Hw. by rewrite Z.eqb_refl.
Qed.

Lemma pop_head rb t q :
  holds rb (t :: q) →
  ∃ rb', pop rb = Some (rb', Some t) ∧ holds rb' q ∧ _capacity rb' = _capacity rb.
Proof.
  intros (Hwf & Hlen & Hw & Hq).
  pose proof Hwf as (Hpow & Hm & Hsl & Hr & Hwr).
  simpl length in *.
  unfold pop.
  assert (_read_idx rb ≠ _write_idx rb) as Hne.
  { rewrite Hw. wrap. }
  apply Z.eqb_neq in Hne. rewrite Hne.
  rewrite getitem_in_range by lia.
  pose proof (Hq 0%nat t eq_refl) as H0. simpl in H0.
  rewrite Z.add_0_r, Z.mod_small in H0 by lia. rewrite H0. simpl.
  rewrite setitem_in_range by lia. simpl.
  rewrite land_mask by done.
  eexists. split; [done|]. split; [|done].
  split; [|split; [|split]]; simpl.
  - unfold ring_wf; simpl. rewrite length_insert.
    split_and!; try done; try lia; mod_bound.
  - lia.
  - rewrite Hw. rewrite (mod_wrap (_read_idx rb + 1)) by lia.
    ltb_cases; [f_equal; lia|]. wrap.
  - intros i t' Hi.
    assert (i < length q)%nat as Hlt by (by apply lookup_lt_Some in Hi).
    specialize (Hq (S i) t' Hi).
    assert ((_read_idx rb + Z.of_nat (S i)) mod _capacity rb
            = ((_read_idx rb + 1) mod _capacity rb + Z.of_nat i) mod _capacity rb) as Heq.
    { rewrite (mod_wrap (_read_idx rb + 1)) by lia.
      ltb_cases; [f_equal; lia|]. wrap. }
    rewrite <- Heq.
    rewrite list_lookup_insert_ne; [done|]. wrap.
Qed.

Lemma holds_bound rb q : holds rb q → Z.of_nat (length q) ≤ _capacity rb - 1.
Proof. intros (_ & Hlen & _). lia. Qed.

Lemma holds_empty rb : holds rb [] → is_empty rb = true ∧ size rb = 0.
Proof.
  intros H. split; [|by rewrite (size_holds _ _ H)].
  destruct H as (Hwf & Hlen & Hw & Hq).
  destruct Hwf as (Hpow & Hm & Hsl & Hr & Hwr).
  unfold is_empty. simpl in Hw. rewrite Z.add_0_r, Z.mod_small in Hw by lia.
  rewrite Hw. apply Z.eqb_refl.
Qed.

(** One push from a represented state: the ring either accepts and the
    queue grows at its tail, or it is full and nothing changes. *)
Lemma push_cases rb q t :
  holds rb q →
  (Z.of_nat (length q) < _capacity rb - 1 ∧
     ∃ rb', push t rb = Some (rb', true) ∧ holds rb' (q ++ [t]) ∧
            _capacity rb' = _capacity rb) ∨
  (Z.of_nat (length q) = _capacity rb - 1 ∧ push t rb = Some (rb, false)).
Proof.
  intros H. pose proof (holds_bound _ _ H).
  destruct (decide (Z.of_nat (length q) = _capacity rb - 1)) as [E|E].
  - right. split; [done|]. by eapply push_rejects.
  - left. split; [lia|]. apply push_accepts; [done|lia].
Qed.

Lemma pop_cases rb q :
  holds rb q →
  ∃ rb', pop rb = Some (rb', head q) ∧ holds rb' (tail q) ∧
         _capacity rb' = _capacity rb.
Proof.
  intros H. destruct q as [|t q]; simpl.
  - exists rb. split; [by apply pop_empty|done].
  - by apply pop_head.
Qed.

Lemma push_all_accepted ts : ∀ rb q rb1 oks,
  holds rb q → push_all ts rb = Some (rb1, oks) → Forall (λ ok, ok = true) oks →
  holds rb1 (q ++ ts).
Proof.
  induction ts as [|t ts IH]; intros rb q rb1 oks H Hp Hok; simpl in Hp.
  - injection Hp as <- <-. by rewrite app_nil_r.
  - destruct (push_cases rb q t H) as [(_ & rb' & Hpush & H' & _)|(_ & Hpush)];
      rewrite Hpush in Hp; simpl in Hp.
    + destruct (push_all ts rb') as [[rb'' oks']|] eqn:E; [|done]. simpl in Hp.
      injection Hp as <- <-. apply Forall_cons in Hok as [_ Hok].
      rewrite (assoc_L _ q [t] ts : q ++ t :: ts = (q ++ [t]) ++ ts).
      by eapply IH.
    + destruct (push_all ts rb) as [[rb'' oks']|] eqn:E; [|done]. simpl in Hp.
      injection Hp as <- <-. by apply Forall_cons in Hok as [? _].
Qed.

Lemma pop_times_drains ts : ∀ rb q,
  holds rb (ts ++ q) →
  ∃ rb2, pop_times (length ts) rb = Some (rb2, Some <$> ts) ∧ holds rb2 q.
Proof.
  induction ts as [|t ts IH]; intros rb q H; simpl.
  - by exists rb.
  - destruct (pop_head rb t (ts ++ q) H) as (rb' & Hpop & H' & _).
    rewrite Hpop. simpl.
    destruct (IH rb' q H') as (rb2 & -> & H2). simpl. by exists rb2.
Qed.

Lemma pow2_least N :
  1 ≤ N →
  N ≤ 2 ^ Py.bit_length (N - 1) ∧
  ∀ j, 0 ≤ j → N ≤ 2 ^ j → 2 ^ Py.bit_length (N - 1) ≤ 2 ^ j.
Proof.
  intros HN. unfold Py.bit_length.
  destruct (Z.eqb_spec (N - 1) 0) as [E|E].
  - split; [simpl; lia|]. intros j Hj _. simpl.
    pose proof (Z.pow_pos_nonneg 2 j). lia.
  - rewrite Z.abs_eq by lia.
    pose proof (Z.log2_spec (N - 1) ltac:(lia)) as [Hlo Hhi].
    pose proof (Z.log2_nonneg (N - 1)) as Hnn.
    replace (Z.succ (Z.log2 (N - 1))) with (Z.log2 (N - 1) + 1) in Hhi by lia.
    split; [lia|]. intros j Hj Hle.
    apply Z.pow_le_mono_r; [lia|].
    destruct (Z.le_gt_cases (Z.log2 (N - 1) + 1) j) as [|Hlt]; [done|].
    assert (2 ^ j ≤ 2 ^ Z.log2 (N - 1)) by (apply Z.pow_le_mono_r; lia).
    lia.
Qed.

Lemma run_ring_holds ops : ∀ rb q,
  holds rb q →
  ∃ rb' q', run_ring ops rb = Some rb' ∧ holds rb' q' ∧ _capacity rb' = _capacity rb.
Proof.
  induction ops as [|op ops IH]; intros rb q H; simpl.
  - by exists rb, q.
  - destruct op as [t|]; simpl.
    + destruct (push_cases rb q t H) as [(_ & rb' & -> & H' & Hc)|(_ & ->)]; simpl.
      * destruct (IH rb' _ H') as (rb2 & q2 & ? & ? & ?).
        exists rb2, q2. split_and!; [done..|congruence].
      * by apply (IH rb q).
    + destruct (pop_cases rb q H) as (rb' & -> & H' & Hc). simpl.
      destruct (IH rb' _ H') as (rb2 & q2 & ? & ? & ?).
      exists rb2, q2. split_and!; [done..|congruence].
Qed.

Lemma pop_loop_spec count : ∀ rb q batch,
  holds rb q → (count ≤ length q)%nat →
  ∃ rb', pop_loop count rb batch = Some (rb', batch ++ take count q) ∧
         holds rb' (drop count q).
Proof.
  induction count as [|count IH]; intros rb q batch H Hc; simpl.
  - exists rb. rewrite take_0, drop_0, app_nil_r. done.
  - destruct q as [|t q]; [simpl in Hc; lia|].
    destruct (pop_head rb t q H) as (rb' & -> & H' & _). simpl.
    destruct (IH rb' q (batch ++ [t]) H') as (rb2 & -> & H2).
    { simpl in Hc. lia. }
    exists rb2. split; [|done]. by rewrite <- app_assoc.
Qed.

Lemma pop_batch_spec rb q max_size :
  holds rb q →
  ∃ rb', pop_batch max_size rb = Some (rb', take (Z.to_nat max_size) q) ∧
         holds rb' (drop (Z.to_nat max_size) q).
Proof.
  intros H. unfold pop_batch. rewrite (size_holds _ _ H).
  destruct (pop_loop_spec (Z.to_nat (Z.min max_size (Z.of_nat (length q)))) rb q [] H)
    as (rb' & -> & H'); [lia|].
  exists rb'. simpl.
  destruct (Z.le_gt_cases max_size (Z.of_nat (length q))).
  - rewrite Z.min_l in * by done. done.
  - rewrite Z.min_r in * by lia. rewrite Nat2Z.id in *.
    rewrite (take_ge q (Z.to_nat max_size)), (drop_ge q (Z.to_nat max_size)) by lia.
    rewrite drop_ge in H' by lia. rewrite take_ge by lia. done.
Qed.

Lemma run_ring_capacity_one ops :
  run_ring ops (RingBuffer_init 1) = Some (RingBuffer_init 1).
Proof.
  induction ops as [|op ops IH]; [done|].
  destruct op as [t|]; cbn [run_ring ring_step].
  - rewrite (push_rejects _ [] t (init_holds 1)) by done. apply IH.
  - rewrite (pop_empty _ (init_holds 1)). apply IH.
Qed.

(** C5. For every requested capacity N >= 1 the actual capacity of the
    ring buffer is the least power of two that is >= N; and after K
    successful pushes followed by K pops on a fresh buffer, every pop
    returned a tick (the ticks pushed, in push order) and the buffer is
    empty. *)
Theorem ring_capacity_and_drain
    (N : Z) (ts : list Tick) (rb1 : RingBuffer) (oks : list bool) :
  1 ≤ N →
  ((∃ k, 0 ≤ k ∧ _capacity (RingBuffer_init N) = 2 ^ k) ∧
   N ≤ _capacity (RingBuffer_init N) ∧
   (∀ j, 0 ≤ j → N ≤ 2 ^ j → _capacity (RingBuffer_init N) ≤ 2 ^ j)) ∧
  (push_all ts (RingBuffer_init N) = Some (rb1, oks) →
   Forall (λ ok, ok = true) oks →
   ∃ rb2, pop_times (length ts) rb1 = Some (rb2, Some <$> ts) ∧
          is_empty rb2 = true ∧ size rb2 = 0).
Proof.
  intros HN. split.
  - rewrite init_capacity. destruct (pow2_least N HN) as [Hge Hleast].
    split_and!; [|done..]. exists (Py.bit_length (N - 1)).
    split; [apply bit_length_nonneg|done].
  - intros Hpush Hok.
    pose proof (push_all_accepted ts _ [] rb1 oks (init_holds N) Hpush Hok) as H1.
    simpl in H1. rewrite <- (app_nil_r ts) in H1.
    destruct (pop_times_drains ts rb1 [] H1) as (rb2 & Hpop & H2).
    exists rb2. split; [done|]. by apply holds_empty.
Qed.

(** Witness of C5: requested capacity 5 gives capacity 8, and three
    accepted pushes are drained by three pops. *)
Lemma ring_capacity_and_drain_witness :
  1 ≤ 5 ∧
  push_all three_ticks (RingBuffer_init 5)
    = Some (three_pushed, [true; true; true]) ∧
  Forall (λ ok, ok = true) [true; true; true] ∧
  ∃ rb2, pop_times 3 three_pushed = Some (rb2, Some <$> three_ticks) ∧
         is_empty rb2 = true ∧ size rb2 = 0.
Proof.
  assert (1 ≤ 5) as H1 by lia.
  assert (push_all three_ticks (RingBuffer_init 5)
          = Some (three_pushed, [true; true; true])) as H2 by (vm_compute; reflexivity).
  assert (Forall (λ ok, ok = true) [true; true; true]) as H3 by (repeat constructor).
  split_and!; [done..|].
  destruct (ring_capacity_and_drain 5 three_ticks three_pushed [true; true; true] H1)
    as [_ Hdrain].
  exact (Hdrain H2 H3).
Defined.

(** C9. A ring buffer of requested capacity 1 has actual capacity 1 and
    never holds a tick: whatever pushes and pops came before, push returns
    false and pop returns none. In general, after any pushes and pops the
    ring holds at most capacity - 1 ticks: push is refused at that size
    and accepted below it. *)
Theorem ring_one_slot_unused (ops : list ring_op) (t : Tick) (N : Z) :
  (_capacity (RingBuffer_init 1) = 1 ∧
   ∃ rb, run_ring ops (RingBuffer_init 1) = Some rb ∧
         push t rb = Some (rb, false) ∧ pop rb = Some (rb, None) ∧ size rb = 0) ∧
  (∃ rb, run_ring ops (RingBuffer_init N) = Some rb ∧
         _capacity rb = _capacity (RingBuffer_init N) ∧
         0 ≤ size rb ≤ _capacity rb - 1 ∧
         (size rb = _capacity rb - 1 → push t rb = Some (rb, false)) ∧
         (size rb < _capacity rb - 1 →
          ∃ rb', push t rb = Some (rb', true) ∧ size rb' = size rb + 1)).
Proof.
  split.
  - split; [done|]. exists (RingBuffer_init 1).
    split; [apply run_ring_capacity_one|].
    split; [by apply (push_rejects _ [] t (init_holds 1))|].
    split; [apply (pop_empty _ (init_holds 1))|done].
  - destruct (run_ring_holds ops _ [] (init_holds N)) as (rb & q & Hrun & H & Hc).
    exists rb. rewrite (size_holds _ _ H). pose proof (holds_bound _ _ H).
    split_and!; [done|done|lia|lia|..].
    + intros Hfull. by apply (push_rejects _ q).
    + intros Hroom.
      destruct (push_accepts rb q t H Hroom) as (rb' & Hp & H' & _).
      exists rb'. split; [done|].
      rewrite (size_holds _ _ H'), length_app. simpl. lia.
Qed.

(** *** The batcher *)

(** What one flush does: the first [batch_size] ticks of the queue leave
    the ring as one batch; an empty batch is not delivered. *)
Lemma flush_spec now tb q :
  holds (_buffer tb) q →
  let batch := take (Z.to_nat (_batch_size tb)) q in
  ∃ tb', _flush now tb = Some tb' ∧
    holds (_buffer tb') (drop (Z.to_nat (_batch_size tb)) q) ∧
    _batch_size tb' = _batch_size tb ∧
    ticks_received (_stats tb') = ticks_received (_stats tb) ∧
    ticks_dropped (_stats tb') = ticks_dropped (_stats tb) ∧
    ticks_processed (_stats tb')
      = ticks_processed (_stats tb) + Z.of_nat (length batch) ∧
    delivered tb' = delivered tb ++ (if decide (batch = []) then [] else [batch]).
Proof.
  intros H batch. unfold _flush.
  destruct (pop_batch_spec _ _ (_batch_size tb) H) as (rb' & -> & H'). simpl.
  fold batch. destruct batch as [|oldest rest] eqn:E.
  - eexists. split; [done|]. simpl. split_and!; try done; [lia|].
    by rewrite app_nil_r.
  - eexists. split; [done|]. simpl. split_and!; done.
Qed.

Lemma flush_preserves now tb :
  buffer_inv tb → ∃ tb', _flush now tb = Some tb' ∧ buffer_inv tb'.
Proof.
  intros [[q H] Hacc].
  destruct (flush_spec now tb q H) as (tb' & Hf & H' & _ & Hr & Hd & Hp & _).
  exists tb'. split; [done|]. split; [eauto|].
  unfold accounted, in_flight in *.
  rewrite (size_holds _ _ H) in Hacc. rewrite (size_holds _ _ H').
  rewrite Hr, Hd, Hp, Hacc.
  rewrite <- (take_drop (Z.to_nat (_batch_size tb)) q) at 1.
  rewrite length_app. lia.
Qed.

(** What one push does to the counters. *)
Lemma push_spec t now tb :
  buffer_inv tb →
  ∃ tb' ok, TickBuffer_push t now tb = Some (tb', ok) ∧ buffer_inv tb' ∧
    ticks_received (_stats tb') = ticks_received (_stats tb) + 1 ∧
    (ok = false ↔ ∃ rb, push t (_buffer tb) = Some (rb, false)) ∧
    ticks_dropped (_stats tb')
      = ticks_dropped (_stats tb) + (if ok then 0 else 1).
Proof.
  intros [[q H] Hacc]. unfold TickBuffer_push.
  unfold accounted, in_flight in Hacc. rewrite (size_holds _ _ H) in Hacc.
  destruct (push_cases _ q t H) as [(_ & rb' & Hp & H' & _)|(Hfull & Hp)];
    rewrite Hp; simpl.
  - set (tb1 := with_ring rb' (received_incr (_stats tb)) tb).
    assert (buffer_inv tb1) as Hinv1.
    { split; [by exists (q ++ [t])|]. unfold accounted, in_flight. simpl.
      rewrite (size_holds _ _ H'), length_app. simpl. lia. }
    assert (∀ rb, push t (_buffer tb) = Some (rb, false) → False) as Hno.
    { intros rb. rewrite Hp. done. }
    destruct (_ <=? _).
    + destruct (flush_preserves now tb1 Hinv1) as (tb2 & Hf & Hinv2).
      destruct Hinv1 as [[q1 H1] _].
      destruct (flush_spec now tb1 q1 H1) as (tb2' & Hf' & _ & _ & Hr & Hd & _).
      rewrite Hf in Hf'. injection Hf' as <-.
      rewrite Hf. simpl. exists tb2, true. split_and!; try done.
      * split; [done|]. intros [rb Hrb]. by destruct (Hno rb).
      * rewrite Hd. simpl. lia.
    + exists tb1, true. split_and!; try done.
      * split; [done|]. intros [rb Hrb]. by destruct (Hno rb).
      * simpl. lia.
  - eexists _, false. split; [done|]. split_and!; try done.
    + split; [by exists q|]. unfold accounted, in_flight. simpl.
      rewrite (size_holds _ _ H). lia.
    + split; [eauto|done].
Qed.

Lemma init_inv batch_size flush_interval_ms capacity now :
  buffer_inv (TickBuffer_init batch_size flush_interval_ms capacity now).
Proof.
  split.
  - exists []. apply init_holds.
  - unfold accounted, in_flight. simpl _buffer.
    rewrite (size_holds _ _ (init_holds capacity)). done.
Qed.

Lemma run_buffer_inv ops : ∀ tb,
  buffer_inv tb → ∃ tb', run_buffer ops tb = Some tb' ∧ buffer_inv tb'.
Proof.
  induction ops as [|op ops IH]; intros tb Hinv; simpl.
  - by exists tb.
  - destruct op as [t now|now]; simpl.
    + destruct (push_spec t now tb Hinv) as (tb1 & ok & -> & Hinv1 & _). simpl.
      by apply IH.
    + destruct (flush_preserves now tb Hinv) as (tb1 & -> & Hinv1). simpl.
      by apply IH.
Qed.

(** C6. At every observation point between batcher operations, that is
    after any sequence of pushes and flushes on a fresh batcher,
    ticks_received = ticks_processed + ticks_dropped + in_flight. From
    there a push increments received, and it returns false and increments
    dropped exactly when the ring rejects; a flush increments processed by
    the length of the batch it delivers. *)
Theorem batcher_accounting
    (batch_size flush_interval_ms capacity now0 : Z) (ops : list buffer_op) :
  ∃ tb,
    run_buffer ops (TickBuffer_init batch_size flush_interval_ms capacity now0)
      = Some tb ∧
    accounted tb ∧
    (∀ t now, ∃ tb' ok,
       TickBuffer_push t now tb = Some (tb', ok) ∧ accounted tb' ∧
       ticks_received (_stats tb') = ticks_received (_stats tb) + 1 ∧
       (ok = false ↔ ∃ rb, push t (_buffer tb) = Some (rb, false)) ∧
       ticks_dropped (_stats tb')
         = ticks_dropped (_stats tb) + (if ok then 0 else 1)) ∧
    (∀ now, ∃ tb' batch,
       _flush now tb = Some tb' ∧ accounted tb' ∧
       delivered tb'
         = delivered tb ++ (if decide (batch = []) then [] else [batch]) ∧
       ticks_processed (_stats tb')
         = ticks_processed (_stats tb) + Z.of_nat (length batch)).
Proof.
  destruct (run_buffer_inv ops _
              (init_inv batch_size flush_interval_ms capacity now0))
    as (tb & Hrun & Hinv).
  exists tb. split; [done|]. split; [apply Hinv|]. split.
  - intros t now.
    destruct (push_spec t now tb Hinv) as (tb' & ok & Hp & Hinv' & Hr & Hok & Hd).
    exists tb', ok. split_and!; try done. apply Hinv'.
  - intros now.
    destruct (flush_preserves now tb Hinv) as (tb' & Hf & Hinv').
    destruct Hinv as [[q H] _].
    destruct (flush_spec now tb q H) as (tb2 & Hf2 & _ & _ & _ & _ & Hp & Hdel).
    rewrite Hf in Hf2. injection Hf2 as <-.
    exists tb', (take (Z.to_nat (_batch_size tb)) q).
    split_and!; try done. apply Hinv'.
Qed.

End ring_buffer_facts.

(** ** OHLCV aggregator *)

Section aggregator_facts.
Import models tick_buffer samples.

Lemma select_price_none tick agg :
  _timeframe_ns agg ≠ 0 → select_price tick = None →
  process_tick tick agg = Some (agg, None).
Proof.
  intros Htf Hp. unfold process_tick, _get_bar_timestamp.
  apply Z.eqb_neq in Htf. rewrite Htf. simpl. by rewrite Hp.
Qed.

(** C1 (as amended). A priced tick whose bar timestamp
    floor(timestamp_ns / timeframe_ns) * timeframe_ns is at most the
    current bar's timestamp for its symbol, a late tick included, is
    folded into the current bar in place: high = max, low = min,
    close = price, volume += size, tick_count += 1, while the bar's
    timestamp, open and precision stay; no bar is returned or emitted. *)
Theorem process_tick_not_newer
    (tick : Tick) (agg : TickAggregator) (current_bar : Bar) (price : Z) :
  _timeframe_ns agg ≠ 0 →
  select_price tick = Some price →
  _bars agg !! symbol tick = Some current_bar →
  timestamp_ns tick / _timeframe_ns agg * _timeframe_ns agg
    ≤ bar_timestamp_ns current_bar →
  ∃ agg',
    process_tick tick agg = Some (agg', None) ∧
    emitted agg' = emitted agg ∧
    _timeframe_ns agg' = _timeframe_ns agg ∧
    _bars agg' =
      <[symbol tick :=
          {| bar_timestamp_ns := bar_timestamp_ns current_bar;
             bar_symbol := bar_symbol current_bar;
             open := open current_bar;
             high := Z.max (high current_bar) price;
             low := Z.min (low current_bar) price;
             close := price;
             volume := volume current_bar + select_size tick;
             tick_count := tick_count current_bar + 1;
             precision := precision current_bar |}]> (_bars agg).
Proof.
  intros Htf Hp Hb Hle. unfold process_tick, _get_bar_timestamp.
  apply Z.eqb_neq in Htf. rewrite Htf. simpl.
  rewrite Hp, Hb.
  destruct (Z.ltb_spec (bar_timestamp_ns current_bar)
              (timestamp_ns tick / _timeframe_ns agg * _timeframe_ns agg)); [lia|].
  eexists. split; [done|]. done.
Qed.

(** Witness of C1: the late tick of the counterexample. *)
Lemma process_tick_not_newer_witness :
  _timeframe_ns minute_aggregator ≠ 0 ∧
  select_price late_tick = Some 90 ∧
  _bars minute_aggregator !! symbol late_tick
    = Some (new_bar 60000000000 (trade 61000000000 100 5) 100 5) ∧
  timestamp_ns late_tick / _timeframe_ns minute_aggregator
    * _timeframe_ns minute_aggregator
    ≤ bar_timestamp_ns (new_bar 60000000000 (trade 61000000000 100 5) 100 5) ∧
  ∃ agg',
    process_tick late_tick minute_aggregator = Some (agg', None) ∧
    emitted agg' = emitted minute_aggregator ∧
    _timeframe_ns agg' = _timeframe_ns minute_aggregator ∧
    _bars agg' =
      <[symbol late_tick :=
          {| bar_timestamp_ns := 60000000000; bar_symbol := "ES";
             open := 100; high := Z.max 100 90; low := Z.min 100 90; close := 90;
             volume := 5 + select_size late_tick; tick_count := 1 + 1;
             precision := 2 |}]> (_bars minute_aggregator).
Proof.
  assert (_timeframe_ns minute_aggregator ≠ 0) as H1 by (vm_compute; discriminate).
  assert (select_price late_tick = Some 90) as H2 by reflexivity.
  assert (_bars minute_aggregator !! symbol late_tick
          = Some (new_bar 60000000000 (trade 61000000000 100 5) 100 5))
    as H3 by (vm_compute; reflexivity).
  assert (timestamp_ns late_tick / _timeframe_ns minute_aggregator
            * _timeframe_ns minute_aggregator
          ≤ bar_timestamp_ns (new_bar 60000000000 (trade 61000000000 100 5) 100 5))
    as H4 by (vm_compute; discriminate).
  split_and!; [done..|].
  exact (process_tick_not_newer late_tick minute_aggregator _ 90 H1 H2 H3 H4).
Defined.

(** Counterexample to C1 as stated: the current "ES" bar starts at 60 s,
    the tick's bar timestamp is 0 < 60 s, and yet the bar is not left
    unchanged: its low, close, volume and tick_count change. *)
Lemma late_tick_is_merged :
  _get_bar_timestamp minute_aggregator (timestamp_ns late_tick) = Some 0 ∧
  _bars minute_aggregator !! "ES"%string =
    Some {| bar_timestamp_ns := 60000000000; bar_symbol := "ES";
            open := 100; high := 100; low := 100; close := 100;
            volume := 5; tick_count := 1; precision := 2 |} ∧
  ∃ agg',
    process_tick late_tick minute_aggregator = Some (agg', None) ∧
    _bars agg' !! "ES"%string =
      Some {| bar_timestamp_ns := 60000000000; bar_symbol := "ES";
              open := 100; high := 100; low := 90; close := 90;
              volume := 8; tick_count := 2; precision := 2 |} ∧
    _bars agg' !! "ES"%string ≠ _bars minute_aggregator !! "ES"%string.
Proof.
  split; [reflexivity|]. split; [vm_compute; reflexivity|].
  eexists. split; [reflexivity|].
  assert (∀ a b : option Bar, (tick_count <$> a) ≠ (tick_count <$> b) → a ≠ b) as Hne
    by (intros a b H ->; done).
  split; [vm_compute; reflexivity|].
  apply Hne. vm_compute. discriminate.
Qed.

(** C4, evaluated where the code departs from the claim. With trade_price
    set to 0 and bid_price set to 453225, the selected price is the bid,
    not the trade price; with trade_price = 0 as the only price set, no
    price is selected and the tick is dropped although a price is set. *)
Theorem select_price_skips_zero :
  select_price zero_trade_tick = Some 453225 ∧
  trade_price zero_trade_tick = Some 0 ∧
  select_price zero_only_tick = None ∧
  trade_price zero_only_tick = Some 0 ∧
  process_tick zero_only_tick (TickAggregator_init 60 true)
    = Some (TickAggregator_init 60 true, None).
Proof. split_and!; reflexivity. Qed.

(** Where no price that is set equals 0 the selection is the one the
    specification describes: trade, else bid, else ask; and a tick with no
    price set is dropped without touching the bars. The size is
    [trade_size] when set and 0 otherwise, zero included. *)
Lemma select_price_nonzero tick :
  trade_price tick ≠ Some 0 → bid_price tick ≠ Some 0 →
  select_price tick =
    match trade_price tick with
    | Some p => Some p
    | None => match bid_price tick with
              | Some p => Some p
              | None => ask_price tick
              end
    end.
Proof.
  intros Ht Hb. unfold select_price, Py.or, Py.truthy.
  destruct (trade_price tick) as [p|]; simpl.
  - destruct (Z.eqb_spec p 0); [congruence|]. simpl.
    destruct (Z.eqb_spec p 0); [congruence|done].
  - destruct (bid_price tick) as [p|]; simpl; [|done].
    destruct (Z.eqb_spec p 0); [congruence|]. simpl.
    destruct (Z.eqb_spec p 0); [congruence|done].
Qed.

Lemma select_size_coalesce tick : select_size tick = default 0 (trade_size tick).
Proof.
  unfold select_size, Py.or_zero. destruct (trade_size tick) as [v|]; [|done].
  simpl. by destruct (Z.eqb_spec v 0).
Qed.

End aggregator_facts.

(** ** Vendor handlers *)

Section handler_facts.
Import models handlers handler_runs.

(** *** Parsed ticks and the tick invariant *)

Lemma databento_to_fixed_some m px :
  is_Some (databento_handler.to_fixed m px) ↔ is_Some px.
Proof. destruct px; simpl; split; intros [? ?]; eauto; done. Qed.

(** C2 (as amended). A tick parsed by DatabentoHandler._parse_message
    from a non-heartbeat message carries a bid, ask or trade price exactly
    when the message has the key bid_px, ask_px or trade_px; so a BBO tick
    has both bid and ask, and the tick has some price exactly when the
    message has one of the three keys. A tick parsed by
    BloombergHandler._parse_event from a SUBSCRIPTION_DATA event carries
    every price whose field is present and non-zero and none whose field is
    absent; so it has some price when a field is present and non-zero, and
    a BBO tick has both bid and ask when BID and ASK are non-zero. *)
Theorem parsed_tick_prices :
  (∀ msg receive_time t,
     databento_handler._parse_message msg receive_time = Some t →
     (is_Some (bid_price t) ↔ is_Some (databento_handler.bid_px msg)) ∧
     (is_Some (ask_price t) ↔ is_Some (databento_handler.ask_px msg)) ∧
     (is_Some (trade_price t) ↔ is_Some (databento_handler.trade_px msg)) ∧
     bbo_complete t ∧
     (has_price t ↔
        is_Some (databento_handler.bid_px msg) ∨
        is_Some (databento_handler.ask_px msg) ∨
        is_Some (databento_handler.trade_px msg))) ∧
  (∀ event now t,
     bloomberg_handler._parse_event event now = Some t →
     (∀ x, bloomberg_handler.BID event = Some x → Py.nonzero x = true →
           is_Some (bid_price t)) ∧
     (∀ x, bloomberg_handler.ASK event = Some x → Py.nonzero x = true →
           is_Some (ask_price t)) ∧
     (∀ x, bloomberg_handler.LAST_PRICE event = Some x → Py.nonzero x = true →
           is_Some (trade_price t)) ∧
     (bloomberg_handler.BID event = None → bid_price t = None) ∧
     (bloomberg_handler.ASK event = None → ask_price t = None) ∧
     (bloomberg_handler.LAST_PRICE event = None → trade_price t = None) ∧
     (tick_type t = BBO →
      (∀ x, bloomberg_handler.BID event = Some x → Py.nonzero x = true) →
      (∀ x, bloomberg_handler.ASK event = Some x → Py.nonzero x = true) →
      is_Some (bid_price t) ∧ is_Some (ask_price t))).
Proof.
  split.
  - intros msg rt t. unfold databento_handler._parse_message.
    case_decide; [done|]. intros [= <-]. simpl.
    rewrite !databento_to_fixed_some.
    split_and!; try done.
    + unfold bbo_complete. simpl. rewrite !databento_to_fixed_some.
      repeat case_bool_decide; simpl; done.
    + unfold has_price. simpl. by rewrite !databento_to_fixed_some.
  - intros event now t. unfold bloomberg_handler._parse_event.
    case_bool_decide; [|done]. simpl. intros [= <-]. simpl.
    split_and!.
    + intros x -> Hx. simpl. rewrite Hx. eauto.
    + intros x -> Hx. simpl. rewrite Hx. eauto.
    + intros x -> Hx. simpl. rewrite Hx. eauto.
    + by intros ->.
    + by intros ->.
    + by intros ->.
    + destruct (bloomberg_handler.LAST_PRICE event); [done|].
      destruct (bloomberg_handler.BID event) as [b|]; [|done].
      destruct (bloomberg_handler.ASK event) as [a|]; [|done].
      simpl. intros _ Hb Ha. rewrite (Hb b eq_refl), (Ha a eq_refl). eauto.
Qed.

(** Witness of C2: the documented MBP-1 message and a two-sided quote
    event both parse to BBO ticks with bid and ask. *)
Lemma parsed_tick_prices_witness :
  ∃ t1 t2,
    databento_handler._parse_message mbp1_message 0 = Some t1 ∧
    bloomberg_handler._parse_event quote_event 0 = Some t2 ∧
    tick_type t1 = BBO ∧ bid_price t1 = Some 453225 ∧ ask_price t1 = Some 453250 ∧
    bbo_complete t1 ∧ has_price t1 ∧
    tick_type t2 = BBO ∧ is_Some (bid_price t2) ∧ is_Some (ask_price t2).
Proof.
  destruct parsed_tick_prices as [Hd Hb].
  eexists _, _.
  assert (databento_handler._parse_message mbp1_message 0 = Some _) as H1
    by reflexivity.
  assert (bloomberg_handler._parse_event quote_event 0 = Some _) as H2
    by reflexivity.
  split; [exact H1|]. split; [exact H2|].
  destruct (Hd _ _ _ H1) as (_ & _ & _ & Hbbo & Hprice).
  destruct (Hb _ _ _ H2) as (_ & _ & _ & _ & _ & _ & Hboth).
  split; [reflexivity|]. split; [reflexivity|]. split; [reflexivity|].
  split; [exact Hbbo|]. split; [apply Hprice; left; simpl; eauto|].
  split; [reflexivity|].
  apply Hboth; [reflexivity|..]; intros x [= <-]; reflexivity.
Defined.

(** Counterexample to C2 as stated: a data message without any price key
    (it is not a heartbeat) parses to a QUOTE tick with no price at all. *)
Lemma priceless_tick_breaks_invariant :
  ∃ t, databento_handler._parse_message priceless_message 0 = Some t ∧
       tick_type t = QUOTE ∧
       bid_price t = None ∧ ask_price t = None ∧ trade_price t = None ∧
       ¬ tick_invariant t.
Proof.
  eexists. split; [reflexivity|]. split_and!; try reflexivity.
  intros [[H|[H|H]] _]; by destruct H.
Qed.

(** *** CME sequence tracking *)

Lemma le_uint_nonneg bs : 0 ≤ cme_handler.le_uint bs.
Proof.
  induction bs as [|b bs IH]; simpl; [done|].
  pose proof (N2Z.is_nonneg (Byte.to_N b)). lia.
Qed.

(** The message loop never runs out of turns: any two amounts of fuel that
    cover the bytes left give the same ticks. *)
Lemma parse_messages_fuel fuel1 : ∀ fuel2 h data sending_time offset ticks,
  cme_handler.len data - offset ≤ Z.of_nat fuel1 →
  cme_handler.len data - offset ≤ Z.of_nat fuel2 →
  cme_handler.parse_messages fuel1 h data sending_time offset ticks
  = cme_handler.parse_messages fuel2 h data sending_time offset ticks.
Proof.
  unfold cme_handler.MSG_HEADER_SIZE.
  induction fuel1 as [|fuel1 IH]; intros fuel2 h data st offset ticks H1 H2.
  - destruct fuel2 as [|fuel2]; [done|]. simpl.
    unfold cme_handler.MSG_HEADER_SIZE.
    destruct (Z.leb_spec (offset + 10) (cme_handler.len data)); [lia|done].
  - destruct fuel2 as [|fuel2]; simpl; unfold cme_handler.MSG_HEADER_SIZE.
    + destruct (Z.leb_spec (offset + 10) (cme_handler.len data)); [lia|done].
    + destruct (Z.leb_spec (offset + 10) (cme_handler.len data)); [|done].
      set (msg_size := cme_handler.le_uint _).
      pose proof (le_uint_nonneg
        (cme_handler.slice (cme_handler.slice data offset (offset + 10)) 0 2)) as Hnn.
      fold msg_size in Hnn.
      destruct (Z.eqb_spec msg_size 0); [done|].
      apply IH; lia.
Qed.

(** The ticks of a packet depend on the handler only through its
    security map, not through its sequence state. *)
Lemma parse_messages_security_map fuel : ∀ h1 h2 data sending_time offset ticks,
  cme_handler._security_map h1 = cme_handler._security_map h2 →
  cme_handler.parse_messages fuel h1 data sending_time offset ticks
  = cme_handler.parse_messages fuel h2 data sending_time offset ticks.
Proof.
  induction fuel as [|fuel IH]; intros h1 h2 data st offset ticks Hm; simpl; [done|].
  destruct (_ <=? _); [|done]. destruct (_ =? 0); [done|].
  unfold cme_handler._parse_incremental_refresh. rewrite Hm.
  by apply IH.
Qed.

(** The fuel handed over by [parse_packet] is therefore enough. *)
Lemma parse_packet_fuel fuel h data :
  (length data ≤ fuel)%nat →
  cme_handler.PACKET_HEADER_SIZE ≤ cme_handler.len data →
  (cme_handler.parse_packet data h).2
  = cme_handler.parse_messages fuel
      (cme_handler.track_sequence (packet_seq data) h) data
      (cme_handler.le_uint
         (cme_handler.slice (cme_handler.slice data 0 cme_handler.PACKET_HEADER_SIZE) 4 12))
      cme_handler.PACKET_HEADER_SIZE [].
Proof.
  intros Hfuel Hlen. unfold cme_handler.parse_packet.
  destruct (Z.ltb_spec (cme_handler.len data) cme_handler.PACKET_HEADER_SIZE); [lia|].
  simpl. apply parse_messages_fuel; unfold cme_handler.len, cme_handler.PACKET_HEADER_SIZE; lia.
Qed.

(** Ticks parsed from a packet carry no sequence number, so the
    per-symbol [FeedStats.gaps_detected] counter never moves for them; the
    gaps of the feed are the entries of [_gaps]. *)
Lemma incremental_refresh_unsequenced h data timestamp t :
  t ∈ cme_handler._parse_incremental_refresh h data timestamp →
  sequence_num t = None ∧ vendor t = Some CME ∧ price_precision t = 7.
Proof.
  unfold cme_handler._parse_incremental_refresh.
  repeat case_match; intros Hin; try (by apply elem_of_nil in Hin);
    apply list_elem_of_singleton in Hin; by subst t.
Qed.

Lemma parse_packet_state data h :
  cme_handler.PACKET_HEADER_SIZE ≤ cme_handler.len data →
  (cme_handler.parse_packet data h).1
  = cme_handler.track_sequence (packet_seq data) h.
Proof.
  intros Hlen. unfold cme_handler.parse_packet.
  destruct (Z.ltb_spec (cme_handler.len data) cme_handler.PACKET_HEADER_SIZE); [lia|].
  done.
Qed.

(** C3 (as amended). Starting from a fresh CME handler, packets with
    sequence numbers 100, 101 and 105 leave exactly one recorded gap,
    (102, 104), so the gap list has length 1. For every packet that has
    its 12 header bytes, expected_seq becomes seq + 1 regardless; the gap
    (expected_seq, seq - 1) is recorded when seq exceeds an expected_seq
    that is positive, and nothing is recorded while expected_seq is still
    0 (before the first packet) or when seq does not exceed it. A shorter
    packet changes nothing, and the ticks parsed from a packet do not
    depend on the sequence state. *)
Theorem cme_gap_detection :
  (∀ h p100 p101 p105,
     cme_handler._expected_seq h = 0 → cme_handler._gaps h = [] →
     cme_handler.PACKET_HEADER_SIZE ≤ cme_handler.len p100 →
     cme_handler.PACKET_HEADER_SIZE ≤ cme_handler.len p101 →
     cme_handler.PACKET_HEADER_SIZE ≤ cme_handler.len p105 →
     packet_seq p100 = 100 → packet_seq p101 = 101 → packet_seq p105 = 105 →
     let h1 := (cme_handler.parse_packet p100 h).1 in
     let h2 := (cme_handler.parse_packet p101 h1).1 in
     let h3 := (cme_handler.parse_packet p105 h2).1 in
     cme_handler._gaps h3 = [(102, 104)] ∧
     length (cme_handler._gaps h3) = 1%nat ∧
     cme_handler._expected_seq h3 = 106) ∧
  (∀ h data,
     cme_handler.PACKET_HEADER_SIZE ≤ cme_handler.len data →
     let h' := (cme_handler.parse_packet data h).1 in
     let seq := packet_seq data in
     let expected := cme_handler._expected_seq h in
     cme_handler._expected_seq h' = seq + 1 ∧
     (0 < expected → expected < seq →
      cme_handler._gaps h' = cme_handler._gaps h ++ [(expected, seq - 1)]) ∧
     (expected ≤ 0 ∨ seq ≤ expected →
      cme_handler._gaps h' = cme_handler._gaps h)) ∧
  (∀ h data,
     cme_handler.len data < cme_handler.PACKET_HEADER_SIZE →
     cme_handler.parse_packet data h = (h, [])) ∧
  (∀ h1 h2 data,
     cme_handler._security_map h1 = cme_handler._security_map h2 →
     (cme_handler.parse_packet data h1).2 = (cme_handler.parse_packet data h2).2).
Proof.
  split_and!.
  - intros h p100 p101 p105 He Hg L1 L2 L3 S1 S2 S3. simpl.
    rewrite !parse_packet_state by done. rewrite S1, S2, S3.
    unfold cme_handler.track_sequence. simpl. rewrite He, Hg. done.
  - intros h data Hlen. simpl. rewrite parse_packet_state by done.
    unfold cme_handler.track_sequence. simpl.
    split; [done|]. split.
    + intros Hpos Hlt.
      destruct (Z.ltb_spec 0 (cme_handler._expected_seq h)); [|lia].
      destruct (Z.eqb_spec (packet_seq data) (cme_handler._expected_seq h)); [lia|].
      simpl. destruct (Z.ltb_spec (cme_handler._expected_seq h) (packet_seq data)); [done|lia].
    + intros Hor.
      destruct (Z.ltb_spec 0 (cme_handler._expected_seq h)); [|done].
      destruct (Z.eqb_spec (packet_seq data) (cme_handler._expected_seq h)); [done|].
      simpl. destruct (Z.ltb_spec (cme_handler._expected_seq h) (packet_seq data)); [lia|done].
  - intros h data Hlen. unfold cme_handler.parse_packet.
    destruct (Z.ltb_spec (cme_handler.len data) cme_handler.PACKET_HEADER_SIZE); [done|lia].
  - intros h1 h2 data Hm. unfold cme_handler.parse_packet.
    destruct (_ <? _); [done|]. simpl.
    by apply parse_messages_security_map.
Qed.

(** Witness of C3: three packets, each one Incremental Refresh message
    with one entry (a bid, an offer, a trade), numbered 100, 101, 105. Each
    yields its tick, and the one gap (102, 104) is recorded. *)
Lemma cme_gap_detection_witness :
  cme_handler._expected_seq cme_handler.CMEHandler_init = 0 ∧
  cme_handler._gaps cme_handler.CMEHandler_init = [] ∧
  cme_handler.PACKET_HEADER_SIZE ≤ cme_handler.len packet_100 ∧
  cme_handler.PACKET_HEADER_SIZE ≤ cme_handler.len packet_101 ∧
  cme_handler.PACKET_HEADER_SIZE ≤ cme_handler.len packet_105 ∧
  packet_seq packet_100 = 100 ∧ packet_seq packet_101 = 101 ∧
  packet_seq packet_105 = 105 ∧
  (length <$> [(cme_handler.parse_packet packet_100 cme_handler.CMEHandler_init).2;
               (cme_handler.parse_packet packet_101 cme_handler.CMEHandler_init).2;
               (cme_handler.parse_packet packet_105 cme_handler.CMEHandler_init).2])
    = [1; 1; 1]%nat ∧
  let h1 := (cme_handler.parse_packet packet_100 cme_handler.CMEHandler_init).1 in
  let h2 := (cme_handler.parse_packet packet_101 h1).1 in
  let h3 := (cme_handler.parse_packet packet_105 h2).1 in
  cme_handler._gaps h3 = [(102, 104)] ∧
  length (cme_handler._gaps h3) = 1%nat ∧
  cme_handler._expected_seq h3 = 106.
Proof.
  assert (cme_handler.PACKET_HEADER_SIZE ≤ cme_handler.len packet_100) as L1
    by (vm_compute; discriminate).
  assert (cme_handler.PACKET_HEADER_SIZE ≤ cme_handler.len packet_101) as L2
    by (vm_compute; discriminate).
  assert (cme_handler.PACKET_HEADER_SIZE ≤ cme_handler.len packet_105) as L3
    by (vm_compute; discriminate).
  assert (packet_seq packet_100 = 100) as S1 by (vm_compute; reflexivity).
  assert (packet_seq packet_101 = 101) as S2 by (vm_compute; reflexivity).
  assert (packet_seq packet_105 = 105) as S3 by (vm_compute; reflexivity).
  split; [reflexivity|]. split; [reflexivity|].
  split_and!; [done..| vm_compute; reflexivity |].
  destruct cme_gap_detection as [Hscenario _].
  exact (Hscenario cme_handler.CMEHandler_init packet_100 packet_101 packet_105
           eq_refl eq_refl L1 L2 L3 S1 S2 S3).
Defined.

(** Counterexample to C3 as stated: on a fresh handler expected_seq is 0,
    the first packet's seq 100 exceeds it, and no gap (0, 99) is recorded;
    the packet's tick is parsed all the same. *)
Lemma first_packet_records_no_gap :
  cme_handler._expected_seq cme_handler.CMEHandler_init < packet_seq packet_100 ∧
  cme_handler._gaps (cme_handler.parse_packet packet_100 cme_handler.CMEHandler_init).1
    = [] ∧
  cme_handler._gaps (cme_handler.parse_packet packet_100 cme_handler.CMEHandler_init).1
    ≠ [(cme_handler._expected_seq cme_handler.CMEHandler_init,
        packet_seq packet_100 - 1)] ∧
  (cme_handler.parse_packet packet_100 cme_handler.CMEHandler_init).2
    = [ {| timestamp_ns := 1000; symbol := "SEC_7"; tick_type := QUOTE;
           bid_price := Some 45322500000; ask_price := None; trade_price := None;
           bid_size := Some 10; ask_size := None; trade_size := None;
           exchange := None; vendor := Some CME; sequence_num := None;
           price_precision := 7 |} ].
Proof.
  split; [vm_compute; reflexivity|].
  split; [vm_compute; reflexivity|].
  split; [vm_compute; discriminate|].
  vm_compute; reflexivity.
Qed.

(** *** Subscriptions *)

Lemma insert_each_lookup {V} (f : string → V) symbols : ∀ (m : gmap string V) k,
  foldl (λ m s, <[s := f s]> m) m symbols !! k
  = if decide (k ∈ symbols) then Some (f k) else m !! k.
Proof.
  induction symbols as [|s symbols IH]; intros m k; cbn [foldl].
  - rewrite decide_False; [done|]. apply not_elem_of_nil.
  - rewrite IH. destruct (decide (k ∈ symbols)) as [Hin|Hnin].
    + rewrite decide_True by (by right). done.
    + destruct (decide (k = s)) as [->|Hne].
      * rewrite decide_True by left. by rewrite lookup_insert_eq.
      * rewrite decide_False by (intros [?|?]%elem_of_cons; done).
        by rewrite lookup_insert_ne.
Qed.

Lemma insert_each_twice {V} (f : string → V) symbols (m : gmap string V) :
  foldl (λ m s, <[s := f s]> m) (foldl (λ m s, <[s := f s]> m) m symbols) symbols
  = foldl (λ m s, <[s := f s]> m) m symbols.
Proof.
  apply map_eq. intros k. rewrite !insert_each_lookup.
  by case_decide.
Qed.

Lemma subscriptions_same_set (subs symbols : list string) :
  list_to_set ((subs ++ symbols) ++ symbols) =@{gset string} list_to_set (subs ++ symbols).
Proof.
  rewrite !list_to_set_app_L. apply set_eq. intros x.
  rewrite !elem_of_union. tauto.
Qed.

Lemma contains_false s (l : list string) : s ∉ l → Py.contains s l = false.
Proof. intros H. unfold Py.contains. by rewrite bool_decide_eq_false. Qed.

Lemma remove_each_absent symbols : ∀ subs,
  (∀ s, s ∈ symbols → s ∉ subs) → remove_each symbols subs = subs.
Proof.
  unfold remove_each.
  induction symbols as [|s symbols IH]; intros subs H; simpl; [done|].
  rewrite contains_false by (apply H; left).
  apply IH. intros s' Hs'. apply H. by right.
Qed.

Lemma remove_keeps x s (l : list string) : x ≠ s → x ∈ l → x ∈ Py.remove s l.
Proof.
  intros Hne. induction l as [|y l IH]; simpl; [done|].
  intros [->|Hin]%elem_of_cons.
  - rewrite decide_False by done. left.
  - case_decide; [done|]. right. by apply IH.
Qed.

(** The invariant [books_subscribed] holds initially and is kept by every
    operation of the CME handler. *)
Lemma books_subscribed_init : books_subscribed cme_handler.CMEHandler_init.
Proof. intros s [b Hb]. simpl in Hb. by rewrite lookup_empty in Hb. Qed.

Lemma books_subscribed_subscribe symbols h :
  books_subscribed h → books_subscribed (cme_handler.subscribe symbols h).
Proof.
  intros Hinv s. unfold cme_handler.subscribe. simpl.
  rewrite (insert_each_lookup (λ _, cme_handler.mkBook ∅ ∅)).
  rewrite elem_of_app. case_decide; [by right|]. intros Hs. left. by apply Hinv.
Qed.

Lemma books_subscribed_unsubscribe_one h s :
  books_subscribed h → books_subscribed (cme_handler.unsubscribe_one h s).
Proof.
  intros Hinv x. unfold cme_handler.unsubscribe_one. simpl. intros Hx.
  assert (x ≠ s ∧ is_Some (cme_handler._books h !! x)) as [Hne Hold].
  { destruct (decide (is_Some (cme_handler._books h !! s))) as [Hs|Hs].
    - rewrite bool_decide_eq_true_2 in Hx by done.
      destruct (decide (x = s)) as [->|Hne].
      + rewrite lookup_delete_eq in Hx. by destruct Hx.
      + by rewrite lookup_delete_ne in Hx.
    - rewrite bool_decide_eq_false_2 in Hx by done.
      split; [|done]. by intros ->. }
  unfold Py.contains.
  destruct (decide (s ∈ cme_handler._subscriptions h)) as [Hs|Hs].
  - rewrite bool_decide_eq_true_2 by done.
    apply remove_keeps; [done|]. by apply Hinv.
  - rewrite bool_decide_eq_false_2 by done. by apply Hinv.
Qed.

Lemma books_subscribed_unsubscribe symbols : ∀ h,
  books_subscribed h → books_subscribed (cme_handler.unsubscribe symbols h).
Proof.
  unfold cme_handler.unsubscribe.
  induction symbols as [|s symbols IH]; intros h Hinv; simpl; [done|].
  apply IH. by apply books_subscribed_unsubscribe_one.
Qed.

Lemma books_subscribed_parse_packet data h :
  books_subscribed h → books_subscribed (cme_handler.parse_packet data h).1.
Proof.
  intros Hinv. unfold cme_handler.parse_packet. by destruct (_ <? _).
Qed.

Lemma cme_unsubscribe_absent symbols : ∀ h,
  books_subscribed h →
  (∀ s, s ∈ symbols → s ∉ cme_handler._subscriptions h) →
  cme_handler.unsubscribe symbols h = h.
Proof.
  unfold cme_handler.unsubscribe.
  induction symbols as [|s symbols IH]; intros h Hinv H; simpl; [done|].
  assert (cme_handler.unsubscribe_one h s = h) as ->.
  { unfold cme_handler.unsubscribe_one.
    rewrite contains_false by (apply H; left).
    rewrite bool_decide_eq_false_2; [by destruct h|].
    intros Hb. by apply (H s); [left|apply Hinv]. }
  apply IH; [done|]. intros s' Hs'. apply H. by right.
Qed.

Lemma books_subscribed_run ops : ∀ h,
  books_subscribed h → books_subscribed (cme_run ops h).
Proof.
  unfold cme_run. induction ops as [|op ops IH]; intros h Hinv; [done|].
  cbn [foldl]. apply IH. destruct op; simpl.
  - by apply books_subscribed_subscribe.
  - by apply books_subscribed_unsubscribe.
  - by apply books_subscribed_parse_packet.
Qed.

(** C7. For each of the three handlers and every symbol list S:
    subscribe(S) called twice in succession yields the same subscription
    set as one call, and the same stats and, for CME, the same books and
    sequence state; and unsubscribe of symbols that are not in the
    subscription set leaves the subscription set and the handler's other
    state unchanged. This holds on every state of a Databento or
    Bloomberg handler, and on every state a CME handler reaches from its
    initial state by subscribe, unsubscribe and parse_packet. *)
Theorem subscribe_twice_same_symbols (S : list string) :
  (∀ h : databento_handler.DatabentoHandler,
     let once := (databento_handler.subscribe S h).1 in
     let twice := (databento_handler.subscribe S once).1 in
     list_to_set (databento_handler._subscriptions twice)
       =@{gset string} list_to_set (databento_handler._subscriptions once) ∧
     databento_handler._stats twice = databento_handler._stats once) ∧
  (∀ h : bloomberg_handler.BloombergHandler,
     let once := (bloomberg_handler.subscribe S h).1 in
     let twice := (bloomberg_handler.subscribe S once).1 in
     list_to_set (bloomberg_handler._subscriptions twice)
       =@{gset string} list_to_set (bloomberg_handler._subscriptions once) ∧
     bloomberg_handler._stats twice = bloomberg_handler._stats once) ∧
  (∀ h : cme_handler.CMEHandler,
     let once := cme_handler.subscribe S h in
     let twice := cme_handler.subscribe S once in
     list_to_set (cme_handler._subscriptions twice)
       =@{gset string} list_to_set (cme_handler._subscriptions once) ∧
     cme_handler._stats twice = cme_handler._stats once ∧
     cme_handler._books twice = cme_handler._books once ∧
     cme_handler._expected_seq twice = cme_handler._expected_seq once ∧
     cme_handler._gaps twice = cme_handler._gaps once ∧
     cme_handler._security_map twice = cme_handler._security_map once) ∧
  (∀ h : databento_handler.DatabentoHandler,
     (∀ s, s ∈ S →
        s ∉@{gset string} list_to_set (databento_handler._subscriptions h)) →
     (databento_handler.unsubscribe S h).1 = h) ∧
  (∀ h : bloomberg_handler.BloombergHandler,
     (∀ s, s ∈ S →
        s ∉@{gset string} list_to_set (bloomberg_handler._subscriptions h)) →
     (bloomberg_handler.unsubscribe S h).1 = h) ∧
  (∀ ops : list cme_op,
     let h := cme_run ops cme_handler.CMEHandler_init in
     (∀ s, s ∈ S →
        s ∉@{gset string} list_to_set (cme_handler._subscriptions h)) →
     cme_handler.unsubscribe S h = h).
Proof.
  split_and!.
  - intros h. simpl. split; [apply subscriptions_same_set|].
    apply (insert_each_twice (FeedStats_new DATABENTO)).
  - intros h. simpl. split; [apply subscriptions_same_set|].
    apply (insert_each_twice (FeedStats_new BLOOMBERG)).
  - intros h. simpl. split; [apply subscriptions_same_set|].
    split; [apply (insert_each_twice (FeedStats_new CME))|].
    split; [apply (insert_each_twice (λ _, cme_handler.mkBook ∅ ∅))|done].
  - intros h H. unfold databento_handler.unsubscribe. simpl.
    rewrite remove_each_absent; [by destruct h|].
    intros s Hs Hin. apply (H s Hs). by apply elem_of_list_to_set.
  - intros h H. unfold bloomberg_handler.unsubscribe. simpl.
    rewrite remove_each_absent; [by destruct h|].
    intros s Hs Hin. apply (H s Hs). by apply elem_of_list_to_set.
  - intros ops h H. apply cme_unsubscribe_absent.
    + apply books_subscribed_run, books_subscribed_init.
    + intros s Hs Hin. apply (H s Hs). by apply elem_of_list_to_set.
Qed.

(** Witness of C7: a CME handler that subscribed to "ES" and received a
    packet, and an unsubscribe of "NQ" and "CL", which are not in its
    subscription set. *)
Lemma subscribe_twice_same_symbols_witness :
  let h := cme_run [cme_subscribe ["ES"%string]; cme_packet packet_100]
                   cme_handler.CMEHandler_init in
  list_to_set (cme_handler._subscriptions h) =@{gset string} {["ES"%string]} ∧
  (∀ s, s ∈ ["NQ"; "CL"]%string →
     s ∉@{gset string} list_to_set (cme_handler._subscriptions h)) ∧
  cme_handler.unsubscribe ["NQ"; "CL"]%string h = h.
Proof.
  cbv zeta.
  set (ops := [cme_subscribe ["ES"%string]; cme_packet packet_100]).
  assert (cme_handler._subscriptions (cme_run ops cme_handler.CMEHandler_init)
          = ["ES"%string]) as Hsubs by (vm_compute; reflexivity).
  assert (∀ s, s ∈ ["NQ"; "CL"]%string →
            s ∉@{gset string}
              list_to_set (cme_handler._subscriptions
                             (cme_run ops cme_handler.CMEHandler_init))) as H.
  { intros s Hs. rewrite Hsubs, elem_of_list_to_set, list_elem_of_singleton.
    intros ->. repeat (apply elem_of_cons in Hs as [Hs|Hs]; [discriminate Hs|]).
    by apply elem_of_nil in Hs. }
  split; [rewrite Hsubs; simpl; by rewrite union_empty_r_L|].
  split; [exact H|].
  destruct (subscribe_twice_same_symbols ["NQ"; "CL"]%string)
    as (_ & _ & _ & _ & _ & Hcme).
  exact (Hcme ops H).
Defined.

(** The claim speaks of the subscription set. The list that holds it is
    extended without a membership test, so after subscribe(["ES"]) twice
    it holds the symbol twice, and one unsubscribe(["ES"]) then leaves
    the symbol subscribed. *)
Lemma subscribe_twice_repeats_symbol :
  let once :=
    (databento_handler.subscribe ["ES"%string]
       databento_handler.DatabentoHandler_init).1 in
  let twice := (databento_handler.subscribe ["ES"%string] once).1 in
  databento_handler._subscriptions once = ["ES"%string] ∧
  databento_handler._subscriptions twice = ["ES"; "ES"]%string ∧
  databento_handler._subscriptions
    (databento_handler.unsubscribe ["ES"%string] once).1 = [] ∧
  databento_handler._subscriptions
    (databento_handler.unsubscribe ["ES"%string] twice).1 = ["ES"%string].
Proof. simpl. split_and!; done. Qed.

End handler_facts.

(** ** Supervisor loop *)

Section supervisor_facts.
Import models base_handler supervisor_runs supervisor_more.

Lemma sleeps_app tr1 tr2 : sleeps (tr1 ++ tr2) = sleeps tr1 ++ sleeps tr2.
Proof. apply omap_app. Qed.

Lemma during_delay a h : _reconnect_delay (during a h) = _reconnect_delay h.
Proof. unfold during. by destruct (stop_requested a). Qed.

Lemma during_max a h : _max_reconnect_delay (during a h) = _max_reconnect_delay h.
Proof. unfold during. by destruct (stop_requested a). Qed.

Lemma during_connected a h : _connected (during a h) = _connected h.
Proof. unfold during. by destruct (stop_requested a). Qed.

Lemma during_on_error a h : _on_error (during a h) = _on_error h.
Proof. unfold during. by destruct (stop_requested a). Qed.

(** The read loop calls nothing but [on_tick], and touches neither the
    delay nor the connected flag. *)
Lemma read_loop_spec ds : ∀ fin h r h' tr,
  read_loop ds fin h = (r, h', tr) →
  sleeps tr = [] ∧
  _reconnect_delay h' = _reconnect_delay h ∧
  _max_reconnect_delay h' = _max_reconnect_delay h ∧
  _connected h' = _connected h ∧
  _on_error h' = _on_error h.
Proof.
  induction ds as [|[tick a] ds IH]; intros fin h r h' tr; simpl.
  - destruct (how fin); intros [= <- <- <-];
      by rewrite during_delay, during_max, during_connected, during_on_error.
  - destruct (_running h); simpl; [|by intros [= <- <- <-]].
    destruct (how a).
    + destruct (read_loop ds fin (during a h)) as [[r1 h1] tr1] eqn:E.
      intros [= <- <- <-]. destruct (IH _ _ _ _ _ E) as (? & ? & ? & ? & ?).
      by rewrite during_delay, during_max, during_connected, during_on_error in *.
    + intros [= <- <- <-].
      by rewrite during_delay, during_max, during_connected, during_on_error.
    + intros [= <- <- <-].
      by rewrite during_delay, during_max, during_connected, during_on_error.
Qed.

(** The try body starts with [connect], never sleeps, and leaves the
    delay at 1 whenever [connect] returned. *)
Lemma try_body_spec it h r h1 tr1 :
  try_body it h = (r, h1, tr1) →
  (∃ tr', tr1 = Connect :: tr') ∧
  sleeps tr1 = [] ∧
  _max_reconnect_delay h1 = _max_reconnect_delay h ∧
  _on_error h1 = _on_error h ∧
  (how (connect_ it) = Returned → _reconnect_delay h1 = 1) ∧
  (how (connect_ it) ≠ Returned →
   r ≠ StreamEnded ∧ r ≠ LoopBroken ∧
   h1 = during (connect_ it) h ∧ tr1 = [Connect]).
Proof.
  unfold try_body. destruct (how (connect_ it)) eqn:Hc.
  - set (h0 := set_reconnect_delay 1 (set_connected true (during (connect_ it) h))).
    assert (_max_reconnect_delay h0 = _max_reconnect_delay h) as Hm
      by (simpl; apply during_max).
    assert (_on_error h0 = _on_error h) as He by (simpl; apply during_on_error).
    destruct (has_subscriptions it).
    + destruct (how (subscribe_ it)).
      * destruct (read_loop _ _ _) as [[r' h'] tr'] eqn:E. intros [= <- <- <-].
        destruct (read_loop_spec _ _ _ _ _ _ E) as (Hs & Hd & Hmx & _ & Hoe).
        rewrite during_delay in Hd. rewrite during_max in Hmx.
        rewrite during_on_error in Hoe.
        split_and!; eauto; try congruence.
      * intros [= <- <- <-]. rewrite during_max, during_on_error, during_delay.
        split_and!; eauto; try congruence.
      * intros [= <- <- <-]. rewrite during_max, during_on_error, during_delay.
        split_and!; eauto; try congruence.
    + destruct (read_loop _ _ _) as [[r' h'] tr'] eqn:E. intros [= <- <- <-].
      destruct (read_loop_spec _ _ _ _ _ _ E) as (Hs & Hd & Hmx & _ & Hoe).
      split_and!; eauto; try congruence.
  - intros [= <- <- <-]. rewrite during_max, during_on_error.
    split_and!; eauto; try congruence; done.
  - intros [= <- <- <-]. rewrite during_max, during_on_error.
    split_and!; eauto; try congruence; done.
Qed.

Lemma sleep_in_sleeps d tr : Sleep d ∈ tr → d ∈ sleeps tr.
Proof. intros H. apply list_elem_of_omap. by exists (Sleep d). Qed.


Lemma iteration_spec it h s h' tr :
  iteration it h = (s, h', tr) →
  (∃ tr', tr = Connect :: tr') ∧
  (∀ d, Sleep d ∈ tr → ∃ h1 tr1, try_body it h = (Failed, h1, tr1)).
Proof.
  unfold iteration. destruct (try_body it h) as [[r h1] tr1] eqn:E.
  destruct (try_body_spec _ _ _ _ _ E) as ([tr' ->] & Hs & _).
  assert (∀ d, Sleep d ∉ Connect :: tr') as Hno.
  { intros d Hd%sleep_in_sleeps. rewrite Hs in Hd. by apply elem_of_nil in Hd. }
  destruct r.
  - intros [= <- <- <-]. split; [eauto|]. intros d Hd. by destruct (Hno d).
  - intros [= <- <- <-]. split; [eauto|]. intros d Hd. by destruct (Hno d).
  - destruct (on_failure it h1) as [[s2 h2] tr2]. intros [= <- <- <-].
    split; [simpl; eauto|]. eauto.
  - intros [= <- <- <-]. split; [eauto|]. intros d Hd. by destruct (Hno d).
Qed.


(** *** Passes described by what the environment does *)

Lemma during_quiet a h : no_stop a → during a h = h.
Proof. unfold no_stop, during. by intros ->. Qed.

Lemma during_running a h :
  _running (during a h) = _running h && negb (stop_requested a).
Proof.
  unfold during. destruct (stop_requested a); simpl;
    [by rewrite andb_false_r|by rewrite andb_true_r].
Qed.

Lemma on_ticks_app ds1 ds2 : on_ticks (ds1 ++ ds2) = on_ticks ds1 ++ on_ticks ds2.
Proof. apply fmap_app. Qed.

(** An exception out of [on_tick]. *)
Lemma read_loop_on_tick c pre : ∀ tick a post fin h,
  c ≠ Returned → _running h = true →
  Forall (λ d, quiet d.2) pre → how a = c →
  read_loop (pre ++ (tick, a) :: post) fin h
  = (body_end c, during a h, on_ticks pre ++ [OnTick tick]).
Proof.
  induction pre as [|[t0 a0] pre IH]; intros tick a post fin h Hc Hrun Hq Ha.
  - simpl. rewrite Hrun. simpl. rewrite Ha. by destruct c.
  - apply Forall_cons in Hq as [[Hr Hs] Hq]. simpl in Hr, Hs.
    cbn [app read_loop]. rewrite Hrun. cbn [negb]. rewrite Hr.
    rewrite (during_quiet a0 h Hs). by rewrite (IH tick a post fin h Hc Hrun Hq Ha).
Qed.

(** The stream's last step is reached when every [on_tick] returned and
    no stop was requested before the last of them. *)
Lemma read_loop_end ds : ∀ fin h,
  Forall (λ d, returned d.2) ds →
  (∀ pre d, ds = pre ++ [d] →
     _running h = true ∧ Forall (λ d, no_stop d.2) pre) →
  ∃ h0,
    read_loop ds fin h = (body_end (how fin), during fin h0, on_ticks ds) ∧
    _reconnect_delay h0 = _reconnect_delay h ∧
    _max_reconnect_delay h0 = _max_reconnect_delay h ∧
    _on_error h0 = _on_error h ∧
    (Forall (λ d, no_stop d.2) ds → h0 = h).
Proof.
  induction ds as [|[t a] ds IH]; intros fin h Hret Hreach.
  - exists h. simpl. split; [by destruct (how fin)|done].
  - apply Forall_cons in Hret as [Hr Hret]. simpl in Hr.
    assert (_running h = true) as Hrun.
    { destruct (exists_last (l := (t, a) :: ds) ltac:(done)) as (pre & d & E).
      by destruct (Hreach pre d E). }
    cbn [read_loop]. rewrite Hrun. cbn [negb]. rewrite Hr.
    destruct (IH fin (during a h) Hret) as (h0 & -> & Hd & Hm & He & Heq).
    { intros pre d E.
      destruct (Hreach ((t, a) :: pre) d) as [_ Hns]; [by rewrite E|].
      apply Forall_cons in Hns as [Hs Hns]. simpl in Hs.
      rewrite (during_quiet a h Hs). done. }
    exists h0. split; [done|].
    rewrite Hd, Hm, He, during_delay, during_max, during_on_error.
    split_and!; try done.
    intros Hall. apply Forall_cons in Hall as [Hs Hall]. simpl in Hs.
    rewrite (Heq Hall). by apply during_quiet.
Qed.

(** Conversely, however the read loop is left by an exception, it is one
    of the two cases above. *)
Lemma read_loop_interrupted c ds : ∀ fin h h' tr,
  c ≠ Returned →
  read_loop ds fin h = (body_end c, h', tr) →
  (∃ pre tick a post,
     ds = pre ++ (tick, a) :: post ∧ _running h = true ∧
     Forall (λ d, quiet d.2) pre ∧ how a = c ∧
     tr = on_ticks pre ++ [OnTick tick]) ∨
  (Forall (λ d, returned d.2) ds ∧
   (∀ pre d, ds = pre ++ [d] →
      _running h = true ∧ Forall (λ d, no_stop d.2) pre) ∧
   how fin = c ∧ tr = on_ticks ds).
Proof.
  induction ds as [|[t a] ds IH]; intros fin h h' tr Hc.
  - simpl. intros E. right. split; [done|]. split.
    { intros pre d E'. by destruct pre. }
    destruct (how fin), c; by simplify_eq.
  - cbn [read_loop]. destruct (_running h) eqn:Hrun; cbn [negb].
    2:{ destruct c; by intros [=]. }
    destruct (how a) eqn:Ha.
    + destruct (read_loop ds fin (during a h)) as [[r1 h1] tr1] eqn:E.
      intros [= -> <- <-].
      destruct (IH _ _ _ _ Hc E)
        as [(pre & tick & a' & post & -> & Hrun' & Hq & Ha' & ->)|
            (Hret & Hreach & Hfin & ->)].
      * left. exists ((t, a) :: pre), tick, a', post.
        rewrite during_running, Hrun in Hrun'. simpl in Hrun'.
        apply negb_true_iff in Hrun'.
        split_and!; try done. by constructor.
      * right. split; [by constructor|]. split; [|done].
        intros pre d E'. split; [done|].
        destruct pre as [|p pre]; [constructor|].
        simpl in E'. injection E' as <- E'.
        destruct (Hreach pre d E') as [Hrun' Hns].
        rewrite during_running, Hrun in Hrun'. simpl in Hrun'.
        apply negb_true_iff in Hrun'. by constructor.
    + intros [= Hc' <- <-]. left. exists [], t, a, ds.
      split_and!; try done. by destruct c.
    + intros [= Hc' <- <-]. left. exists [], t, a, ds.
      split_and!; try done. by destruct c.
Qed.

Lemma read_loop_actions ds : ∀ fin h r h' tr,
  read_loop ds fin h = (r, h', tr) →
  (∃ n, tr = OnTick <$> take n (fst <$> ds)) ∧
  (_running h = false → tr = []) ∧
  (∀ (k : nat) t a, ds !! k = Some (t, a) → stop_requested a = true →
     (length tr ≤ S k)%nat) ∧
  (r = LoopBroken → _running h' = false) ∧
  (_running h' = true → _running h = true).
Proof.
  induction ds as [|[tick a] ds IH]; intros fin h r h' tr; simpl.
  - intros Hr.
    assert (tr = [] ∧ h' = during fin h ∧ r ≠ LoopBroken) as (-> & -> & Hnb)
      by (destruct (how fin); injection Hr as <- <- <-; done).
    split_and!; try done.
    + by exists 0%nat.
    + unfold during. by destruct (stop_requested fin).
  - destruct (_running h) eqn:Hrun; simpl.
    2:{ intros [= <- <- <-]. split_and!; try done;
          try (by exists 0%nat);
          intros; simpl; first [lia | congruence]. }
    assert (_running (during a h) = negb (stop_requested a)) as Hd.
    { unfold during. destruct (stop_requested a); simpl; [done|by rewrite Hrun]. }
    destruct (how a).
    + destruct (read_loop ds fin (during a h)) as [[r1 h1] tr1] eqn:E.
      intros [= <- <- <-].
      destruct (IH _ _ _ _ _ E) as ([n Hn] & Hstop & Hk & Hbr & Hrun1).
      split_and!; try done.
      * exists (S n). simpl. by rewrite Hn.
      * intros [|k] t a' Hl Hs; simpl in *.
        -- injection Hl as <- <-. rewrite Hstop; [simpl; lia|].
           rewrite Hd, Hs. done.
        -- specialize (Hk k t a' Hl Hs). lia.
    + intros [= <- <- <-]. split_and!; try done.
      * by exists 1%nat.
      * intros k t a' _ _. simpl. lia.
    + intros [= <- <- <-]. split_and!; try done.
      * by exists 1%nat.
      * intros k t a' _ _. simpl. lia.
Qed.

Lemma read_loop_body_actions ds fin h :
  Forall body_action (read_loop ds fin h).2.
Proof.
  destruct (read_loop ds fin h) as [[r h'] tr] eqn:E.
  destruct (read_loop_actions _ _ _ _ _ _ E) as ([n ->] & _). simpl.
  apply Forall_fmap, Forall_true. done.
Qed.

Lemma try_body_actions it h : Forall body_action (try_body it h).2.
Proof.
  unfold try_body.
  pose proof (read_loop_body_actions (deliveries it) (stream_end it)) as Hrl.
  destruct (how (connect_ it)); [|repeat constructor..].
  destruct (has_subscriptions it).
  - destruct (how (subscribe_ it)); [|repeat constructor..].
    match goal with |- context [read_loop ?d ?f ?x] => specialize (Hrl x) end.
    destruct (read_loop _ _ _) as [[r h'] tr]. simpl in *.
    by repeat constructor.
  - match goal with |- context [read_loop ?d ?f ?x] => specialize (Hrl x) end.
    destruct (read_loop _ _ _) as [[r h'] tr]. simpl in *.
    by repeat constructor.
Qed.

Lemma try_body_after_setup it h :
  Forall returned (setup_awaits it) →
  try_body it h
  = let '(r, h', tr) :=
      read_loop (deliveries it) (stream_end it) (after_setup it h) in
    (r, h', setup_calls it ++ tr).
Proof.
  unfold setup_awaits, setup_calls, try_body, after_setup, returned.
  intros [Hc Hset]%Forall_cons. rewrite Hc.
  destruct (has_subscriptions it).
  - apply Forall_cons in Hset as [Hs _]. rewrite Hs.
    by destruct (read_loop _ _ _) as [[r h'] tr].
  - by destruct (read_loop _ _ _) as [[r h'] tr].
Qed.

Lemma after_setup_fields it h :
  _reconnect_delay (after_setup it h) = 1 ∧
  _max_reconnect_delay (after_setup it h) = _max_reconnect_delay h ∧
  _on_error (after_setup it h) = _on_error h ∧
  (_running (after_setup it h) = true ↔
   _running h = true ∧ Forall no_stop (setup_awaits it)).
Proof.
  unfold after_setup, setup_awaits, no_stop.
  destruct (has_subscriptions it);
    rewrite ?during_delay, ?during_max, ?during_on_error, ?during_running;
    cbn [_reconnect_delay _max_reconnect_delay _on_error _running
         set_reconnect_delay set_connected];
    rewrite ?during_max, ?during_on_error, ?during_running;
    (split_and!; try done);
    rewrite ?Forall_cons, ?Forall_nil, ?andb_true_iff, ?negb_true_iff; tauto.
Qed.

(** The try body of a pass that the environment interrupts. *)
Lemma interrupted_body it c a0 tr h :
  c ≠ Returned → _running h = true → interrupted it c a0 tr →
  ∃ h1,
    try_body it h = (body_end c, h1, tr) ∧
    _reconnect_delay h1 = delay_at_failure it (_reconnect_delay h) ∧
    _max_reconnect_delay h1 = _max_reconnect_delay h ∧
    _on_error h1 = _on_error h ∧
    (stop_requested a0 = true → _running h1 = false) ∧
    (body_undisturbed it → _running h1 = true).
Proof.
  intros Hc Hrun Hint.
  destruct (after_setup_fields it h) as (Hd0 & Hm0 & He0 & Hr0).
  destruct Hint as [ Hcon | Hcon Hsub Hs | pre tick a post Hset Hds Hq Ha
                   | Hset Hret Hreach Hfin ].
  - unfold try_body, delay_at_failure. rewrite Hcon.
    exists (during (connect_ it) h).
    rewrite during_delay, during_max, during_on_error, during_running, Hrun.
    destruct c; [done|..]; (split_and!; try done;
      [by intros ->|
       intros ([Hns _]%Forall_cons & _); unfold no_stop in Hns; by rewrite Hns]).
  - unfold try_body, delay_at_failure. unfold returned in Hcon.
    rewrite Hcon, Hsub, Hs.
    eexists. split; [by destruct c|].
    rewrite !during_delay, !during_max, !during_on_error, !during_running.
    cbn [_reconnect_delay _max_reconnect_delay _on_error _running
         set_reconnect_delay set_connected].
    rewrite during_max, during_on_error, during_running, Hrun.
    split_and!; try done.
    + intros ->. by rewrite andb_false_r.
    + intros (Hns & _). unfold setup_awaits in Hns. rewrite Hsub in Hns.
      apply Forall_cons in Hns as [H1 [H2 _]%Forall_cons].
      unfold no_stop in H1, H2. by rewrite H1, H2.
  - assert (Forall returned (setup_awaits it)) as Hret
      by (eapply Forall_impl; [exact Hset|by intros ? [? ?]]).
    assert (Forall no_stop (setup_awaits it)) as Hns
      by (eapply Forall_impl; [exact Hset|by intros ? [? ?]]).
    assert (_running (after_setup it h) = true) as Hrun0 by (by apply Hr0).
    rewrite (try_body_after_setup it h Hret), Hds.
    rewrite (read_loop_on_tick c pre tick a post _ _ Hc Hrun0 Hq Ha).
    exists (during a (after_setup it h)). split; [done|].
    rewrite during_delay, during_max, during_on_error, during_running, Hrun0.
    unfold delay_at_failure.
    assert (how (connect_ it) = Returned) as ->
      by (unfold setup_awaits in Hret; by apply Forall_cons in Hret as [? _]).
    split_and!; try done; [by intros ->|].
    intros (_ & Hall & _). rewrite Hds in Hall.
    apply Forall_app in Hall as [_ [Hs _]%Forall_cons].
    unfold no_stop in Hs. simpl in Hs. by rewrite Hs.
  - rewrite (try_body_after_setup it h Hset).
    destruct (read_loop_end (deliveries it) (stream_end it) (after_setup it h) Hret)
      as (h1 & -> & Hd1 & Hm1 & He1 & Heq).
    { intros pre d E. destruct (Hreach pre d E) as [Hns Hpre].
      split; [by apply Hr0|done]. }
    rewrite Hfin. exists (during (stream_end it) h1). split; [done|].
    rewrite during_delay, during_max, during_on_error, during_running.
    unfold delay_at_failure.
    assert (how (connect_ it) = Returned) as ->
      by (unfold setup_awaits in Hset; by apply Forall_cons in Hset as [? _]).
    split_and!; try congruence.
    + intros ->. by rewrite andb_false_r.
    + intros (Hns & Hall & Hend). rewrite (Heq Hall).
      unfold no_stop in Hend. rewrite Hend, andb_true_r. by apply Hr0.
Qed.

(** Conversely, a try body left by an exception was interrupted by the
    environment: the description misses no case. *)
Lemma body_interrupted it c h h1 tr :
  c ≠ Returned → _running h = true →
  try_body it h = (body_end c, h1, tr) →
  ∃ a, interrupted it c a tr.
Proof.
  intros Hc Hrun E.
  destruct (how (connect_ it)) eqn:Hcon.
  2,3: unfold try_body in E; rewrite Hcon in E; injection E as E <- <-;
       exists (connect_ it); apply in_connect; destruct c; simpl in E; congruence.
  destruct (has_subscriptions it) eqn:Hhas.
  - destruct (how (subscribe_ it)) eqn:Hsub.
    2,3: unfold try_body in E; rewrite Hcon, Hhas, Hsub in E;
         injection E as E <- <-; exists (subscribe_ it);
         apply in_subscribe; [done|done|destruct c; simpl in E; congruence].
    assert (Forall returned (setup_awaits it)) as Hret.
    { unfold setup_awaits. rewrite Hhas. by repeat constructor. }
    rewrite (try_body_after_setup it h Hret) in E.
    destruct (read_loop _ _ _) as [[r h'] tr'] eqn:Erl.
    injection E as -> -> <-.
    destruct (after_setup_fields it h) as (_ & _ & _ & Hr0).
    destruct (read_loop_interrupted c _ _ _ _ _ Hc Erl)
      as [(pre & tick & a & post & Hds & Hrun0 & Hq & Ha & ->)|
          (Hall & Hreach & Hfin & ->)].
    + exists a. apply in_on_tick with post; try done.
      apply Hr0 in Hrun0 as [_ Hns].
      apply Forall_forall. intros x Hx. split.
      * by apply (proj1 (Forall_forall _ _) Hret).
      * by apply (proj1 (Forall_forall _ _) Hns).
    + exists (stream_end it). apply in_stream_end; try done.
      intros pre d Ed. destruct (Hreach pre d Ed) as [Hrun0 Hpre].
      split; [|done]. by apply Hr0 in Hrun0 as [_ ?].
  - assert (Forall returned (setup_awaits it)) as Hret.
    { unfold setup_awaits. rewrite Hhas. by repeat constructor. }
    rewrite (try_body_after_setup it h Hret) in E.
    destruct (read_loop _ _ _) as [[r h'] tr'] eqn:Erl.
    injection E as -> -> <-.
    destruct (after_setup_fields it h) as (_ & _ & _ & Hr0).
    destruct (read_loop_interrupted c _ _ _ _ _ Hc Erl)
      as [(pre & tick & a & post & Hds & Hrun0 & Hq & Ha & ->)|
          (Hall & Hreach & Hfin & ->)].
    + exists a. apply in_on_tick with post; try done.
      apply Hr0 in Hrun0 as [_ Hns].
      apply Forall_forall. intros x Hx. split.
      * by apply (proj1 (Forall_forall _ _) Hret).
      * by apply (proj1 (Forall_forall _ _) Hns).
    + exists (stream_end it). apply in_stream_end; try done.
      intros pre d Ed. destruct (Hreach pre d Ed) as [Hrun0 Hpre].
      split; [|done]. by apply Hr0 in Hrun0 as [_ ?].
Qed.





(** A pass all of whose awaits return. *)
Lemma normal_pass it h :
  _running h = true → ends_normally it →
  ∃ h1 tr1,
    iteration it h = (Continue, h1, tr1) ∧
    sleeps tr1 = [] ∧ (OnError ∉ tr1) ∧ _reconnect_delay h1 = 1 ∧
    (body_undisturbed it →
     tr1 = setup_calls it ++ on_ticks (deliveries it) ∧ _running h1 = true).
Proof.
  intros Hrun (Hset & Hret & Hend).
  destruct (try_body it h) as [[r h1] tr1] eqn:E.
  destruct (try_body_spec _ _ _ _ _ E) as (_ & Hs & _ & _ & Hd & _).
  assert (how (connect_ it) = Returned) as Hcon
    by (unfold setup_awaits in Hset; by apply Forall_cons in Hset as [? _]).
  pose proof (try_body_actions it h) as Hact. rewrite E in Hact. simpl in Hact.
  assert (OnError ∉ tr1) as Hno.
  { intros Hin. by apply (proj1 (Forall_forall body_action tr1) Hact) in Hin. }
  assert (r = StreamEnded ∨ r = LoopBroken) as Hr.
  { destruct r; [by left|by right|..].
    - destruct (body_interrupted it Raised h h1 tr1 ltac:(done) Hrun E) as [a Hint].
      exfalso. unfold returned in *.
      destruct Hint as [Hc|_ Hhas Hs'|pre tick a post _ Hds _ Ha|_ _ _ Hf];
        try congruence.
      + unfold setup_awaits in Hset. rewrite Hhas in Hset.
        apply Forall_cons in Hset as [_ [? _]%Forall_cons]. congruence.
      + rewrite Hds in Hret. apply Forall_app in Hret as [_ [? _]%Forall_cons].
        simpl in *. congruence.
    - destruct (body_interrupted it Cancelled h h1 tr1 ltac:(done) Hrun E) as [a Hint].
      exfalso. unfold returned in *.
      destruct Hint as [Hc|_ Hhas Hs'|pre tick a post _ Hds _ Ha|_ _ _ Hf];
        try congruence.
      + unfold setup_awaits in Hset. rewrite Hhas in Hset.
        apply Forall_cons in Hset as [_ [? _]%Forall_cons]. congruence.
      + rewrite Hds in Hret. apply Forall_app in Hret as [_ [? _]%Forall_cons].
        simpl in *. congruence. }
  exists h1, tr1. split.
  { unfold iteration. rewrite E. by destruct Hr as [-> | ->]. }
  split; [done|]. split; [done|]. split; [by apply Hd|].
  intros (Hns & Hall & Hfin).
  rewrite (try_body_after_setup it h Hset) in E.
  destruct (after_setup_fields it h) as (_ & _ & _ & Hr0).
  destruct (read_loop_end (deliveries it) (stream_end it) (after_setup it h) Hret)
    as (h0 & Hrl & _ & _ & _ & Heq).
  { intros pre d Ed. split; [by apply Hr0|].
    rewrite Ed in Hall. by apply Forall_app in Hall as [? _]. }
  rewrite Hrl in E. injection E as _ <- <-. split; [done|].
  rewrite (Heq Hall), (during_quiet _ _ Hfin). by apply Hr0.
Qed.

(** C10. A pass of the supervisor loop in which _read_messages ends
    normally (connect, subscribe, every on_tick and the stream's last
    step return) takes no backoff step: the pass calls neither on_error
    nor sleep and leaves reconnect_delay at the 1 s set after connect (not
    doubled), and while running is true the next call is connect again. A
    sleep occurs only in a pass that raised a non-cancellation
    exception. *)
Theorem stream_end_no_backoff :
  (∀ it h,
     _running h = true → ends_normally it →
     ∃ h1 tr1,
       iteration it h = (Continue, h1, tr1) ∧
       sleeps tr1 = [] ∧ (OnError ∉ tr1) ∧ _reconnect_delay h1 = 1 ∧
       (body_undisturbed it →
        tr1 = setup_calls it ++ on_ticks (deliveries it) ∧
        _running h1 = true ∧
        ∀ it2 rest, ∃ e h2 tr2,
          supervise (it :: it2 :: rest) h = (e, h2, tr1 ++ Connect :: tr2))) ∧
  (∀ it h s h' tr d,
     _running h = true → iteration it h = (s, h', tr) → Sleep d ∈ tr →
     ∃ a tr1, interrupted it Raised a tr1).
Proof.
  split.
  - intros it h Hrun Hend.
    destruct (normal_pass it h Hrun Hend) as (h1 & tr1 & Hit & Hs & Hno & Hd & Hund).
    exists h1, tr1. split_and!; try done.
    intros Hu. destruct (Hund Hu) as [Htr Hrun1]. split_and!; try done.
    intros it2 rest.
    cbn [supervise]. rewrite Hrun, Hit. cbn [negb]. cbn [supervise].
    rewrite Hrun1. cbn [negb].
    destruct (iteration it2 h1) as [[s2 h2] tr2] eqn:E2.
    destruct (iteration_spec _ _ _ _ _ E2) as ([tr' ->] & _).
    destruct s2.
    + destruct (supervise rest h2) as [[e h3] tr3].
      eexists _, _, _. by rewrite <- app_comm_cons.
    + by eexists _, _, _.
    + by eexists _, _, _.
  - intros it h s h' tr d Hrun E Hin.
    destruct (iteration_spec _ _ _ _ _ E) as (_ & H).
    destruct (H d Hin) as (h1 & tr1 & Hbody).
    destruct (body_interrupted it Raised h h1 tr1 ltac:(done) Hrun Hbody) as [a Ha].
    by exists a, tr1.
Qed.

(** Witness of C10: a pass that delivers three ticks and whose stream then
    ends; the next pass starts with connect at once. *)
Lemma stream_end_no_backoff_witness :
  let it := stream_ends samples.three_ticks in
  _running (started true) = true ∧ ends_normally it ∧ body_undisturbed it ∧
  ∃ h1 tr1,
    iteration it (started true) = (Continue, h1, tr1) ∧
    sleeps tr1 = [] ∧ (OnError ∉ tr1) ∧ _reconnect_delay h1 = 1 ∧
    tr1 = Connect :: (OnTick <$> samples.three_ticks) ∧ _running h1 = true ∧
    ∃ e h2 tr2,
      supervise [it; connect_fails] (started true)
        = (e, h2, tr1 ++ Connect :: tr2).
Proof.
  cbv zeta.
  assert (_running (started true) = true) as Hrun by reflexivity.
  assert (ends_normally (stream_ends samples.three_ticks)) as Hend
    by (split_and!; repeat constructor).
  assert (body_undisturbed (stream_ends samples.three_ticks)) as Hund
    by (split_and!; repeat constructor).
  split; [exact Hrun|]. split; [exact Hend|]. split; [exact Hund|].
  destruct stream_end_no_backoff as [Hnormal _].
  destruct (Hnormal _ _ Hrun Hend) as (h1 & tr1 & Hit & Hs & Hno & Hd & Hnext).
  destruct (Hnext Hund) as (Htr & Hrun1 & Hsup).
  exists h1, tr1. split; [exact Hit|]. split; [exact Hs|]. split; [exact Hno|].
  split; [exact Hd|]. split; [exact Htr|]. split; [exact Hrun1|].
  exact (Hsup connect_fails []).
Defined.

End supervisor_facts.

(** * Further verified properties *)

(** ** Ring buffer as a bounded queue *)

Section ring_queue_facts.
Import models tick_buffer tick_buffer_runs tick_buffer_more.

Lemma ring_step_refines bound rb q op :
  holds rb q → bound = _capacity rb - 1 →
  ∃ rb', ring_step_out rb op = Some (rb', (queue_step bound q op).2) ∧
         holds rb' (queue_step bound q op).1 ∧ _capacity rb' = _capacity rb.
Proof.
  intros H ->. destruct op as [t|]; simpl.
  - destruct (push_cases rb q t H) as [(Hlt & rb' & -> & H' & Hc)|(Heq & ->)]; simpl.
    + destruct (Z.ltb_spec (Z.of_nat (length q)) (_capacity rb - 1)); [|lia].
      by exists rb'.
    + destruct (Z.ltb_spec (Z.of_nat (length q)) (_capacity rb - 1)); [lia|].
      by exists rb.
  - destruct (pop_cases rb q H) as (rb' & -> & H' & Hc). simpl. by exists rb'.
Qed.

Lemma run_ring_refines ops : ∀ rb q,
  holds rb q →
  ∃ rb', run_ring_out ops rb = Some (rb', (queue_run (_capacity rb - 1) ops q).2) ∧
         holds rb' (queue_run (_capacity rb - 1) ops q).1 ∧
         _capacity rb' = _capacity rb.
Proof.
  induction ops as [|op ops IH]; intros rb q H; simpl.
  - by exists rb.
  - destruct (ring_step_refines (_capacity rb - 1) rb q op H eq_refl)
      as (rb1 & -> & H1 & Hc1). simpl.
    destruct (queue_step (_capacity rb - 1) q op) as [q1 r1]. simpl in *.
    destruct (IH rb1 q1 H1) as (rb2 & Hrun & H2 & Hc2).
    rewrite Hc1 in Hrun, H2. rewrite Hrun. simpl.
    destruct (queue_run (_capacity rb - 1) ops q1) as [q2 rs]. simpl in *.
    exists rb2. split_and!; [done|done|congruence].
Qed.

Lemma holds_drain rb q :
  holds rb q →
  ∃ rb2, pop_times (length q) rb = Some (rb2, Some <$> q) ∧ holds rb2 [].
Proof.
  intros H. rewrite <- (app_nil_r q) in H.
  destruct (pop_times_drains q rb [] H) as (rb2 & Hp & H2). by exists rb2.
Qed.

(** X1. The ring buffer behaves as a FIFO queue bounded by capacity - 1:
    for any interleaving of pushes and pops on a fresh buffer, every push
    and every pop returns what the queue returns, and what is left in the
    ring at the end is the queue's content, oldest first. *)
Theorem ring_refines_queue (N : Z) (ops : list ring_op) :
  let bound := _capacity (RingBuffer_init N) - 1 in
  ∃ rb rb2,
    run_ring_out ops (RingBuffer_init N) = Some (rb, (queue_run bound ops []).2) ∧
    size rb = Z.of_nat (length (queue_run bound ops []).1) ∧
    pop_times (length (queue_run bound ops []).1) rb
      = Some (rb2, Some <$> (queue_run bound ops []).1) ∧
    is_empty rb2 = true.
Proof.
  simpl. destruct (run_ring_refines ops _ [] (init_holds N)) as (rb & Hrun & H & _).
  destruct (holds_drain _ _ H) as (rb2 & Hdrain & H2).
  exists rb, rb2. split_and!; [done| by apply size_holds | done |].
  by apply holds_empty.
Qed.

Lemma holds_flags rb q :
  holds rb q →
  (is_empty rb = true ↔ q = []) ∧
  (is_full rb = true ↔ Z.of_nat (length q) = _capacity rb - 1).
Proof.
  intros H. split.
  - split.
    + intros He. destruct q as [|t q]; [done|].
      destruct (pop_head rb t q H) as (rb' & Hp & _).
      unfold pop in Hp. unfold is_empty in He. apply Z.eqb_eq in He.
      rewrite He, Z.eqb_refl in Hp. done.
    + intros ->. by apply holds_empty.
  - unfold is_full. rewrite (size_holds _ _ H). apply Z.eqb_eq.
Qed.

(** X2. On every state a fresh ring buffer reaches by pushes and pops,
    the flags tell what the next operation does: is_empty holds exactly
    when size is 0 and exactly when pop returns none, otherwise pop returns
    a tick; is_full holds exactly when push is refused, otherwise push is
    accepted. *)
Theorem ring_flags_agree (N : Z) (ops : list ring_op) (t : Tick) :
  ∃ rb,
    run_ring ops (RingBuffer_init N) = Some rb ∧
    (is_empty rb = true ↔ size rb = 0) ∧
    (is_empty rb = true ↔ pop rb = Some (rb, None)) ∧
    (is_empty rb = false → ∃ rb' t', pop rb = Some (rb', Some t')) ∧
    (is_full rb = true ↔ push t rb = Some (rb, false)) ∧
    (is_full rb = false → ∃ rb', push t rb = Some (rb', true)).
Proof.
  destruct (run_ring_holds ops _ [] (init_holds N)) as (rb & q & Hrun & H & _).
  destruct (holds_flags _ _ H) as [He Hf].
  pose proof (size_holds _ _ H) as Hs. pose proof (holds_bound _ _ H) as Hb.
  exists rb. split; [done|]. split_and!.
  - rewrite He, Hs. destruct q; simpl; split; intros; (done || lia).
  - rewrite He. split.
    + intros ->. by apply pop_empty.
    + intros Hp. destruct q as [|t' q]; [done|].
      destruct (pop_head rb t' q H) as (rb' & Hp' & _). congruence.
  - intros Hne. destruct q as [|t' q].
    + destruct He as [_ He]. rewrite He in Hne; done.
    + destruct (pop_head rb t' q H) as (rb' & Hp' & _). eauto.
  - rewrite Hf. split.
    + intros Hfull. by apply (push_rejects rb q).
    + intros Hp.
      destruct (push_cases rb q t H) as [(_ & rb' & Hp' & _)|(Heq & _)]; [congruence|done].
  - intros Hnf.
    destruct (push_cases rb q t H) as [(_ & rb' & Hp' & _)|(Heq & _)]; [eauto|].
    apply Hf in Heq. congruence.
Qed.

(** X3. pop_batch(max_size) on any state a fresh ring reaches returns
    exactly the ticks that the first min(max_size, size) single pops
    would return, in the same order, and leaves the others in place; with
    max_size <= 0 it returns the empty list and removes nothing. *)
Theorem pop_batch_is_prefix (N : Z) (ops : list ring_op) (max_size : Z) :
  ∃ rb q rb1 rb2 rb3,
    run_ring ops (RingBuffer_init N) = Some rb ∧
    pop_times (length q) rb = Some (rb1, Some <$> q) ∧
    size rb = Z.of_nat (length q) ∧
    pop_batch max_size rb = Some (rb2, take (Z.to_nat max_size) q) ∧
    Z.of_nat (length (take (Z.to_nat max_size) q)) = Z.max 0 (Z.min max_size (size rb)) ∧
    size rb2 = size rb - Z.max 0 (Z.min max_size (size rb)) ∧
    pop_times (length (drop (Z.to_nat max_size) q)) rb2
      = Some (rb3, Some <$> drop (Z.to_nat max_size) q).
Proof.
  destruct (run_ring_holds ops _ [] (init_holds N)) as (rb & q & Hrun & H & _).
  destruct (holds_drain _ _ H) as (rb1 & Hd1 & _).
  destruct (pop_batch_spec rb q max_size H) as (rb2 & Hpb & H2).
  destruct (holds_drain _ _ H2) as (rb3 & Hd3 & _).
  exists rb, q, rb1, rb2, rb3.
  rewrite (size_holds _ _ H), (size_holds _ _ H2).
  split_and!; try done.
  - rewrite length_take. lia.
  - rewrite length_drop. lia.
Qed.

Ltac ltb_split :=
  repeat match goal with
         | |- context [?a <? ?b] => destruct (Z.ltb_spec a b)
         end.

Ltac unwrap := repeat (rewrite mod_wrap by (ltb_split; lia)); ltb_split; try lia.

Lemma push_shape t rb rb' :
  ring_wf rb → push t rb = Some (rb', true) →
  rb' = {| _capacity := _capacity rb; _mask := _mask rb;
           _slots := <[Z.to_nat (_write_idx rb) := Some t]> (_slots rb);
           _write_idx := (_write_idx rb + 1) mod _capacity rb;
           _read_idx := _read_idx rb |}.
Proof.
  intros Hwf. pose proof Hwf as (_ & _ & Hsl & _ & Hw).
  unfold push. rewrite land_mask by done.
  destruct (_ =? _); [done|].
  rewrite setitem_in_range by lia. simpl. by intros [= <-].
Qed.

Lemma pop_shape rb rb' t :
  ring_wf rb → pop rb = Some (rb', Some t) →
  rb' = {| _capacity := _capacity rb; _mask := _mask rb;
           _slots := <[Z.to_nat (_read_idx rb) := None]> (_slots rb);
           _write_idx := _write_idx rb;
           _read_idx := (_read_idx rb + 1) mod _capacity rb |}.
Proof.
  intros Hwf. pose proof Hwf as (_ & _ & Hsl & Hr & _).
  unfold pop. destruct (_ =? _); [done|].
  rewrite getitem_in_range by lia.
  destruct (_slots rb !! Z.to_nat (_read_idx rb)) as [slot|]; [|done]. simpl.
  rewrite setitem_in_range by lia. simpl. rewrite land_mask by done.
  by intros [= <- _].
Qed.

Lemma init_clean N : holds_clean (RingBuffer_init N) [].
Proof.
  split; [apply init_holds|]. intros i _ Hi.
  pose proof (init_holds N) as ((_ & _ & Hsl & _) & _).
  simpl in *. apply lookup_replicate_2.
  rewrite length_replicate in Hsl. rewrite Z.add_0_l.
  rewrite Z.mod_small by lia. lia.
Qed.

Lemma push_clean rb q t rb' :
  holds_clean rb q → push t rb = Some (rb', true) → holds_clean rb' (q ++ [t]).
Proof.
  intros [H Hc] Hp.
  destruct (push_cases rb q t H) as [(Hlt & rb1 & Hp1 & H1 & _)|(_ & Hp1)];
    [|congruence].
  assert (rb1 = rb') as -> by congruence. split; [done|].
  pose proof H as (Hwf & Hlen & Hw & _).
  pose proof Hwf as (_ & _ & Hsl & Hr & Hwr).
  rewrite (push_shape t rb rb' Hwf Hp). simpl.
  intros i Hi Hcap. rewrite length_app in Hi. simpl in Hi.
  rewrite list_lookup_insert_ne; [apply Hc; lia|].
  rewrite Hw. unwrap.
Qed.

Lemma pop_clean rb t q rb' :
  holds_clean rb (t :: q) → pop rb = Some (rb', Some t) → holds_clean rb' q.
Proof.
  intros [H Hc] Hp.
  destruct (pop_head rb t q H) as (rb1 & Hp1 & H1 & _).
  assert (rb1 = rb') as -> by congruence. split; [done|].
  pose proof H as (Hwf & Hlen & Hw & _).
  pose proof Hwf as (_ & _ & Hsl & Hr & Hwr).
  rewrite (pop_shape rb rb' t Hwf Hp). simpl. simpl in Hlen, Hc.
  intros i Hi Hcap.
  rewrite Zplus_mod_idemp_l.
  destruct (decide (Z.of_nat i + 1 = _capacity rb)) as [Heq|Hne].
  - replace ((_read_idx rb + 1 + Z.of_nat i) mod _capacity rb) with (_read_idx rb)
      by unwrap.
    apply list_lookup_insert_eq. lia.
  - rewrite list_lookup_insert_ne by unwrap.
    replace (_read_idx rb + 1 + Z.of_nat i) with (_read_idx rb + Z.of_nat (S i)) by lia.
    apply Hc; lia.
Qed.

Lemma run_ring_clean ops : ∀ rb q,
  holds_clean rb q → ∃ rb' q', run_ring ops rb = Some rb' ∧ holds_clean rb' q'.
Proof.
  induction ops as [|op ops IH]; intros rb q Hc; simpl.
  - by exists rb, q.
  - pose proof Hc as [H _]. destruct op as [t|]; simpl.
    + destruct (push_cases rb q t H) as [(_ & rb' & Hp & _)|(_ & Hp)];
        rewrite Hp; simpl.
      * apply (IH rb' (q ++ [t])). by eapply push_clean.
      * by apply (IH rb q).
    + destruct q as [|t q].
      * rewrite (pop_empty rb H). simpl. by apply (IH rb []).
      * destruct (pop_head rb t q H) as (rb' & Hp & _). rewrite Hp. simpl.
        apply (IH rb' q). by eapply pop_clean.
Qed.

Lemma clean_slots rb q (j : nat) t :
  holds_clean rb q → _slots rb !! j = Some (Some t) → t ∈ q.
Proof.
  intros [H Hc] Hj.
  pose proof H as (Hwf & Hlen & Hw & Hq).
  pose proof Hwf as (_ & _ & Hsl & Hr & Hwr).
  apply lookup_lt_Some in Hj as Hjlt.
  set (i := Z.to_nat ((Z.of_nat j - _read_idx rb) mod _capacity rb)).
  assert (0 ≤ (Z.of_nat j - _read_idx rb) mod _capacity rb < _capacity rb) as Hi
    by (apply Z.mod_pos_bound; lia).
  assert (Z.to_nat ((_read_idx rb + Z.of_nat i) mod _capacity rb) = j) as Hidx.
  { unfold i. rewrite Z2Nat.id by lia.
    rewrite Zplus_mod_idemp_r.
    replace (_read_idx rb + (Z.of_nat j - _read_idx rb)) with (Z.of_nat j) by lia.
    rewrite Z.mod_small by lia. lia. }
  destruct (decide (i < length q)%nat) as [Hlt|Hge].
  - destruct (lookup_lt_is_Some_2 q i Hlt) as [t' Ht'].
    pose proof (Hq i t' Ht') as Hs. rewrite Hidx in Hs.
    assert (t = t') as -> by congruence. by eapply list_elem_of_lookup_2.
  - assert (_slots rb !! j = Some None) as Hn.
    { rewrite <- Hidx. apply Hc; [lia|]. unfold i. lia. }
    congruence.
Qed.

(** X4. The ring keeps no reference to a tick that was popped: on every
    state a fresh ring reaches by pushes and pops, a slot that holds a tick
    holds one of the ticks still queued, and once the ring is empty every
    slot is None. *)
Theorem ring_keeps_no_popped_tick (N : Z) (ops : list ring_op) :
  ∃ rb q rb1,
    run_ring ops (RingBuffer_init N) = Some rb ∧
    pop_times (length q) rb = Some (rb1, Some <$> q) ∧
    size rb = Z.of_nat (length q) ∧
    (∀ (j : nat) t, _slots rb !! j = Some (Some t) → t ∈ q) ∧
    (is_empty rb = true → Forall (λ slot, slot = None) (_slots rb)).
Proof.
  destruct (run_ring_clean ops _ [] (init_clean N)) as (rb & q & Hrun & Hc).
  pose proof Hc as [H _].
  destruct (holds_drain _ _ H) as (rb1 & Hd & _).
  exists rb, q, rb1. split_and!; [done|done|by apply size_holds|..].
  - intros j t. by apply clean_slots.
  - intros He. apply (holds_flags _ _ H) in He. subst q.
    apply Forall_lookup. intros j [t|] Hj; [|done].
    by apply (clean_slots rb [] j t Hc) in Hj; apply elem_of_nil in Hj.
Qed.

End ring_queue_facts.

(** ** Batcher: delivery, counters, stop *)

Section batcher_facts.
Import models tick_buffer tick_buffer_runs tick_buffer_more.

Lemma accepted_app l1 l2 : accepted (l1 ++ l2) = accepted l1 ++ accepted l2.
Proof. unfold accepted. by rewrite filter_app, fmap_app. Qed.

Lemma rejected_app l1 l2 : rejected (l1 ++ l2) = rejected l1 ++ rejected l2.
Proof. unfold rejected. by rewrite filter_app, fmap_app. Qed.

(** A flush, field by field. *)
Lemma flush_fields now tb q :
  holds (_buffer tb) q →
  let batch := take (Z.to_nat (_batch_size tb)) q in
  ∃ tb',
    _flush now tb = Some tb' ∧
    holds (_buffer tb') (drop (Z.to_nat (_batch_size tb)) q) ∧
    _capacity (_buffer tb') = _capacity (_buffer tb) ∧
    _batch_size tb' = _batch_size tb ∧
    _running tb' = _running tb ∧
    ticks_received (_stats tb') = ticks_received (_stats tb) ∧
    ticks_dropped (_stats tb') = ticks_dropped (_stats tb) ∧
    ticks_processed (_stats tb')
      = ticks_processed (_stats tb) + Z.of_nat (length batch) ∧
    batches_flushed (_stats tb')
      = batches_flushed (_stats tb) + (if decide (batch = []) then 0 else 1) ∧
    max_latency_ns (_stats tb) ≤ max_latency_ns (_stats tb') ∧
    delivered tb' = delivered tb ++ (if decide (batch = []) then [] else [batch]).
Proof.
  intros H batch. unfold _flush.
  destruct (pop_batch_spec _ _ (_batch_size tb) H) as (rb' & Hpb & H').
  rewrite Hpb. simpl. fold batch.
  assert (_capacity rb' = _capacity (_buffer tb)) as Hcap.
  { unfold pop_batch in Hpb. revert Hpb.
    generalize (Z.to_nat (Z.min (_batch_size tb) (size (_buffer tb)))).
    generalize (@nil Tick). generalize (_buffer tb).
    intros rb0 acc n. revert rb0 acc.
    induction n as [|n IH]; intros rb0 acc; simpl.
    - by intros [= -> _].
    - unfold pop at 1. destruct (_ =? _); simpl.
      + apply IH.
      + destruct (Py.getitem _ _); [|done]. simpl.
        destruct (Py.setitem _ _ _); [|done]. simpl.
        intros Hl. by apply IH in Hl. }
  destruct batch as [|oldest rest] eqn:E.
  - eexists. split; [done|]. simpl. split_and!; try done; try lia.
    by rewrite app_nil_r.
  - eexists. split; [done|]. simpl. split_and!; try done; lia.
Qed.

Lemma accepted_snoc log t ok :
  accepted (log ++ [(t, ok)]) = accepted log ++ (if ok then [t] else []).
Proof. rewrite accepted_app. by destruct ok. Qed.

Lemma rejected_snoc log t ok :
  rejected (log ++ [(t, ok)]) = rejected log ++ (if ok then [] else [t]).
Proof. rewrite rejected_app. by destruct ok. Qed.

Lemma flush_core now tb log q :
  batcher_core tb log q →
  (1 ≤ _batch_size tb → Z.of_nat (length q) ≤ _batch_size tb) →
  ∃ tb', _flush now tb = Some tb' ∧ batcher_inv tb' log ∧
    _batch_size tb' = _batch_size tb ∧ _running tb' = _running tb ∧
    _capacity (_buffer tb') = _capacity (_buffer tb) ∧
    (1 ≤ _batch_size tb → is_empty (_buffer tb') = true ∧
                           concat (delivered tb') = accepted log).
Proof.
  intros (H & Hord & Hr & Hd & Hp & Hb & Hall) Hle.
  destruct (flush_fields now tb q H)
    as (tb' & Hf & H' & Hcap & Hbs & Hrun & Hr' & Hd' & Hp' & Hb' & _ & Hdel).
  set (batch := take (Z.to_nat (_batch_size tb)) q) in *.
  assert (concat (delivered tb') = concat (delivered tb) ++ batch) as Hcat.
  { rewrite Hdel, concat_app. case_decide as Hbatch; simpl; [by rewrite Hbatch|].
    by rewrite app_nil_r. }
  exists tb'. split; [done|]. split_and!; try done.
  - exists (drop (Z.to_nat (_batch_size tb)) q). split.
    + unfold batcher_core. rewrite Hbs, Hr', Hd', Hp', Hb', Hcat.
      split_and!; try done.
      * rewrite <- app_assoc. unfold batch. by rewrite take_drop.
      * rewrite length_app. lia.
      * rewrite Hdel, length_app. case_decide; simpl; lia.
      * rewrite Hdel. apply Forall_app. split; [done|].
        case_decide as Hbatch; [done|]. apply Forall_singleton. split; [done|].
        unfold batch. rewrite length_take.
        destruct (Z.le_gt_cases (_batch_size tb) 0) as [Hle0|Hgt]; [|lia].
        exfalso. apply Hbatch. unfold batch.
        replace (Z.to_nat (_batch_size tb)) with 0%nat by lia. done.
    + rewrite Hbs. intros Hge. rewrite length_drop. specialize (Hle Hge). lia.
  - intros Hge. specialize (Hle Hge).
    assert (drop (Z.to_nat (_batch_size tb)) q = []) as Hnil by (apply drop_ge; lia).
    split.
    + apply (holds_flags _ _ H'). done.
    + rewrite Hcat. unfold batch. rewrite take_ge by lia. rewrite <- Hord.
      by rewrite <- (take_drop (Z.to_nat (_batch_size tb)) q), Hnil, app_nil_r,
           take_ge by lia.
Qed.

Lemma flush_inv now tb log :
  batcher_inv tb log →
  ∃ tb', _flush now tb = Some tb' ∧ batcher_inv tb' log ∧
    _batch_size tb' = _batch_size tb ∧ _running tb' = _running tb ∧
    _capacity (_buffer tb') = _capacity (_buffer tb) ∧
    (1 ≤ _batch_size tb → is_empty (_buffer tb') = true ∧
                           concat (delivered tb') = accepted log).
Proof.
  intros (q & Hcore & Hlt). apply (flush_core now tb log q Hcore).
  intros Hge. specialize (Hlt Hge). lia.
Qed.

Lemma push_inv t now tb log :
  batcher_inv tb log →
  ∃ tb' ok, TickBuffer_push t now tb = Some (tb', ok) ∧
    batcher_inv tb' (log ++ [(t, ok)]) ∧
    _batch_size tb' = _batch_size tb ∧ _running tb' = _running tb ∧
    _capacity (_buffer tb') = _capacity (_buffer tb) ∧
    (ok = false → 1 ≤ _batch_size tb → _capacity (_buffer tb) - 1 < _batch_size tb).
Proof.
  intros (q & (H & Hord & Hr & Hd & Hp & Hb & Hall) & Hlt).
  unfold TickBuffer_push.
  destruct (push_cases _ q t H) as [(Hroom & rb' & Hpush & H' & Hcap)|(Hfull & Hpush)];
    rewrite Hpush; simpl.
  - set (tb1 := with_ring rb' (received_incr (_stats tb)) tb).
    assert (batcher_core tb1 (log ++ [(t, true)]) (q ++ [t])) as Hcore1.
    { unfold batcher_core, tb1. simpl.
      rewrite accepted_snoc, rejected_snoc, length_app, app_nil_r, app_assoc, Hord.
      simpl. split_and!; try done; lia. }
    pose proof (size_holds _ _ H') as Hsize. rewrite length_app in Hsize.
    simpl in Hsize.
    destruct (Z.leb_spec (_batch_size tb) (size rb')) as [Hle|Hgt].
    + destruct (flush_core now tb1 _ _ Hcore1)
        as (tb2 & Hf & Hinv2 & Hbs & Hrun & Hc2 & _).
      { intros Hge. specialize (Hlt Hge). rewrite length_app. simpl. lia. }
      rewrite Hf. simpl. exists tb2, true. split_and!; try done.
      rewrite Hc2. done.
    + exists tb1, true. split_and!; try done.
      exists (q ++ [t]). split; [done|]. intros _. simpl.
      rewrite length_app. simpl. lia.
  - exists (with_ring (_buffer tb) (dropped_incr (received_incr (_stats tb))) tb), false.
    split; [done|]. split_and!; try done.
    + exists q. split; [|done]. unfold batcher_core. simpl.
      rewrite accepted_snoc, rejected_snoc, !length_app, app_nil_r. simpl.
      split_and!; try done; lia.
    + intros _ Hge. specialize (Hlt Hge). lia.
Qed.

Lemma init_batcher_inv batch_size flush_interval_ms capacity now :
  batcher_inv (TickBuffer_init batch_size flush_interval_ms capacity now) [].
Proof.
  exists []. split; [|simpl; lia].
  unfold batcher_core. simpl. split_and!; try done. apply init_holds.
Qed.

(** Every event keeps the invariant and the parameters. *)
Lemma event_inv ev tb log :
  batcher_inv tb log →
  ∃ tb' log',
    buffer_event_step tb ev = Some (tb', log') ∧ batcher_inv tb' (log ++ log') ∧
    _batch_size tb' = _batch_size tb ∧
    _capacity (_buffer tb') = _capacity (_buffer tb) ∧
    (1 ≤ _batch_size tb → _batch_size tb ≤ _capacity (_buffer tb) - 1 →
     Forall (λ p, p.2 = true) log').
Proof.
  intros Hinv. destruct ev as [|t now|now|now]; simpl.
  - exists (TickBuffer_start tb), []. rewrite app_nil_r. split_and!; try done.
  - destruct (push_inv t now tb log Hinv) as (tb' & ok & -> & Hinv' & Hbs & _ & Hc & Hok).
    simpl. exists tb', [(t, ok)]. split_and!; try done.
    intros Hge Hle. apply Forall_singleton. simpl.
    destruct ok; [done|]. specialize (Hok eq_refl Hge). lia.
  - destruct (_running tb).
    + unfold _flush_loop_turn. destruct (is_empty (_buffer tb)); simpl.
      * exists tb, []. rewrite app_nil_r. split_and!; try done.
      * destruct (flush_inv now tb log Hinv) as (tb' & -> & Hinv' & Hbs & _ & Hc & _).
        simpl. exists tb', []. rewrite app_nil_r. split_and!; try done.
    + exists tb, []. rewrite app_nil_r. split_and!; try done.
  - unfold TickBuffer_stop.
    assert (batcher_inv (set_buffer_running false tb) log) as Hinv0 by done.
    destruct (flush_inv now _ log Hinv0) as (tb' & -> & Hinv' & Hbs & _ & Hc & _).
    simpl. exists tb', []. rewrite app_nil_r. split_and!; try done.
Qed.

Lemma run_events_inv evs : ∀ tb log,
  batcher_inv tb log →
  ∃ tb' log',
    run_events evs tb = Some (tb', log') ∧ batcher_inv tb' (log ++ log') ∧
    _batch_size tb' = _batch_size tb ∧
    _capacity (_buffer tb') = _capacity (_buffer tb) ∧
    (1 ≤ _batch_size tb → _batch_size tb ≤ _capacity (_buffer tb) - 1 →
     Forall (λ p, p.2 = true) log').
Proof.
  induction evs as [|ev evs IH]; intros tb log Hinv; simpl.
  - exists tb, []. rewrite app_nil_r. split_and!; try done.
  - destruct (event_inv ev tb log Hinv) as (tb1 & log1 & -> & Hinv1 & Hbs1 & Hc1 & Hok1).
    simpl.
    destruct (IH tb1 _ Hinv1) as (tb2 & log2 & -> & Hinv2 & Hbs2 & Hc2 & Hok2).
    simpl. exists tb2, (log1 ++ log2). rewrite app_assoc.
    split_and!; try done; try congruence.
    intros Hge Hle. apply Forall_app. split; [by apply Hok1|].
    apply Hok2; congruence.
Qed.

Lemma log_partition log :
  (length (accepted log) + length (rejected log))%nat = length log.
Proof.
  unfold accepted, rejected. rewrite !length_fmap.
  induction log as [|[t ok] log IH]; [done|].
  rewrite !filter_cons. destruct ok; simpl; lia.
Qed.

Lemma all_accepted log : Forall (λ p : Tick * bool, p.2 = true) log → rejected log = [].
Proof.
  unfold rejected. induction 1 as [|[t ok] log Hok _ IH]; [done|].
  simpl in Hok. subst ok. rewrite filter_cons. simpl. done.
Qed.

(** X5. The batcher loses, repeats and reorders nothing: after any run of
    start, push, timer and stop events on a fresh batcher, the batches
    handed to the sink, concatenated in delivery order, followed by the
    ticks still in the ring, are exactly the ticks whose push returned
    true, in push order. *)
Theorem batcher_delivers_in_order
    (batch_size flush_interval_ms capacity now0 : Z) (evs : list buffer_event) :
  ∃ tb log q rb2,
    run_events evs (TickBuffer_init batch_size flush_interval_ms capacity now0)
      = Some (tb, log) ∧
    in_flight tb = Z.of_nat (length q) ∧
    pop_times (length q) (_buffer tb) = Some (rb2, Some <$> q) ∧
    concat (delivered tb) ++ q = accepted log.
Proof.
  destruct (run_events_inv evs _ []
              (init_batcher_inv batch_size flush_interval_ms capacity now0))
    as (tb & log & Hrun & (q & (H & Hord & _) & _) & _).
  destruct (holds_drain _ _ H) as (rb2 & Hd & _).
  exists tb, log, q, rb2. split_and!; try done. by apply size_holds.
Qed.

(** X6. After any run of events on a fresh batcher the counters count
    what they name: ticks_received is the number of pushes, ticks_dropped
    the number of refused pushes, ticks_processed the number of ticks
    delivered and batches_flushed the number of batches delivered; every
    delivered batch is non-empty and at most batch_size long, so a batcher
    with batch_size <= 0 never delivers anything. *)
Theorem batcher_counters
    (batch_size flush_interval_ms capacity now0 : Z) (evs : list buffer_event) :
  ∃ tb log,
    run_events evs (TickBuffer_init batch_size flush_interval_ms capacity now0)
      = Some (tb, log) ∧
    ticks_received (_stats tb) = Z.of_nat (length log) ∧
    ticks_dropped (_stats tb) = Z.of_nat (length (rejected log)) ∧
    ticks_processed (_stats tb) = Z.of_nat (length (concat (delivered tb))) ∧
    batches_flushed (_stats tb) = Z.of_nat (length (delivered tb)) ∧
    Forall (λ b, b ≠ [] ∧ Z.of_nat (length b) ≤ batch_size) (delivered tb) ∧
    (batch_size ≤ 0 → delivered tb = []).
Proof.
  destruct (run_events_inv evs _ []
              (init_batcher_inv batch_size flush_interval_ms capacity now0))
    as (tb & log & Hrun & (q & (H & Hord & Hr & Hd & Hp & Hb & Hall) & _) & Hbs & _).
  simpl in Hbs. rewrite Hbs in Hall.
  exists tb, log. split_and!; try done.
  intros Hle. destruct (delivered tb) as [|b bs]; [done|].
  apply Forall_cons in Hall as [[Hne Hlen] _]. destruct b; [done|]. simpl in Hlen. lia.
Qed.

(** X7. With batch_size >= 1 the count trigger keeps the ring below
    batch_size between events; if moreover batch_size is at most the
    actual capacity minus one, no push is ever refused and ticks_dropped
    stays 0. *)
Theorem batcher_never_drops
    (batch_size flush_interval_ms capacity now0 : Z) (evs : list buffer_event) :
  1 ≤ batch_size →
  ∃ tb log,
    run_events evs (TickBuffer_init batch_size flush_interval_ms capacity now0)
      = Some (tb, log) ∧
    in_flight tb < batch_size ∧
    (batch_size ≤ _capacity (RingBuffer_init capacity) - 1 →
     Forall (λ p, p.2 = true) log ∧ rejected log = [] ∧
     ticks_dropped (_stats tb) = 0).
Proof.
  intros Hge.
  destruct (run_events_inv evs _ []
              (init_batcher_inv batch_size flush_interval_ms capacity now0))
    as (tb & log & Hrun & (q & (H & Hord & Hr & Hd & _) & Hlt) & Hbs & Hc & Hok).
  simpl in Hbs, Hok. rewrite Hbs in Hlt.
  exists tb, log. split; [done|]. split.
  - unfold in_flight. rewrite (size_holds _ _ H). by apply Hlt.
  - intros Hle. specialize (Hok Hge Hle). split; [done|].
    pose proof (all_accepted _ Hok) as Hrej. split; [done|].
    change ([] ++ log) with log in Hd. by rewrite Hd, Hrej.
Qed.

(** X8. stop() flushes what is left: with batch_size >= 1, after any run
    of events followed by stop the ring is empty, the batcher is not
    running, the delivered batches hold exactly the accepted ticks in push
    order, and ticks_received = ticks_processed + ticks_dropped. *)
Theorem batcher_stop_drains
    (batch_size flush_interval_ms capacity now0 now : Z) (evs : list buffer_event) :
  1 ≤ batch_size →
  ∃ tb log tb',
    run_events evs (TickBuffer_init batch_size flush_interval_ms capacity now0)
      = Some (tb, log) ∧
    TickBuffer_stop now tb = Some tb' ∧
    is_empty (_buffer tb') = true ∧
    _running tb' = false ∧
    concat (delivered tb') = accepted log ∧
    ticks_received (_stats tb')
      = ticks_processed (_stats tb') + ticks_dropped (_stats tb').
Proof.
  intros Hge.
  destruct (run_events_inv evs _ []
              (init_batcher_inv batch_size flush_interval_ms capacity now0))
    as (tb & log & Hrun & Hinv & Hbs & _).
  simpl in Hbs, Hinv.
  assert (batcher_inv (set_buffer_running false tb) log) as Hinv0 by done.
  destruct (flush_inv now _ log Hinv0)
    as (tb' & Hf & (q & (_ & _ & Hr & Hd & Hp & _) & _) & _ & Hrun' & _ & Hempty).
  destruct Hempty as [He Hcat]; [simpl; lia|].
  exists tb, log, tb'. split_and!; try done.
  change ([] ++ log) with log in *.
  rewrite Hr, Hp, Hd, Hcat. pose proof (log_partition log). lia.
Qed.

(** Witness of X7: batch size 2 on a ring of 4 slots (3 usable), through
    start, three pushes and a timer tick. *)
Lemma batcher_never_drops_witness :
  1 ≤ 2 ∧ 2 ≤ _capacity (RingBuffer_init 4) - 1 ∧
  ∃ tb log,
    run_events more_samples.batcher_events (TickBuffer_init 2 100 4 0)
      = Some (tb, log) ∧
    in_flight tb < 2 ∧
    (2 ≤ _capacity (RingBuffer_init 4) - 1 →
     Forall (λ p, p.2 = true) log ∧ rejected log = [] ∧
     ticks_dropped (_stats tb) = 0).
Proof.
  split; [lia|]. split; [vm_compute; discriminate|].
  apply (batcher_never_drops 2 100 4 0 more_samples.batcher_events). lia.
Defined.

(** Witness of X8: the same run, stopped at time 50. *)
Lemma batcher_stop_drains_witness :
  1 ≤ 2 ∧
  ∃ tb log tb',
    run_events more_samples.batcher_events (TickBuffer_init 2 100 4 0)
      = Some (tb, log) ∧
    TickBuffer_stop 50 tb = Some tb' ∧
    is_empty (_buffer tb') = true ∧
    _running tb' = false ∧
    concat (delivered tb') = accepted log ∧
    ticks_received (_stats tb')
      = ticks_processed (_stats tb') + ticks_dropped (_stats tb').
Proof.
  split; [lia|].
  apply (batcher_stop_drains 2 100 4 0 50 more_samples.batcher_events). lia.
Defined.

End batcher_facts.

(** ** Aggregator over a stream *)

Section aggregator_stream_facts.
Import models tick_buffer aggregator_more.

(** The four outcomes of [process_tick] on a non-zero timeframe. *)
Lemma process_tick_cases tick agg :
  _timeframe_ns agg ≠ 0 →
  let bar_ts := timestamp_ns tick / _timeframe_ns agg * _timeframe_ns agg in
  let s := symbol tick in
  (select_price tick = None ∧ process_tick tick agg = Some (agg, None)) ∨
  (∃ price, select_price tick = Some price ∧ _bars agg !! s = None ∧
     process_tick tick agg
     = Some (set_bar s (new_bar bar_ts tick price (select_size tick)) agg, None)) ∨
  (∃ price cur, select_price tick = Some price ∧ _bars agg !! s = Some cur ∧
     bar_timestamp_ns cur < bar_ts ∧
     process_tick tick agg
     = Some (set_bar s (new_bar bar_ts tick price (select_size tick)) (emit cur agg),
             Some cur)) ∨
  (∃ price cur, select_price tick = Some price ∧ _bars agg !! s = Some cur ∧
     bar_ts ≤ bar_timestamp_ns cur ∧
     process_tick tick agg
     = Some (set_bar s (update_bar cur price (select_size tick)) agg, None)).
Proof.
  intros Htf. simpl. unfold process_tick, _get_bar_timestamp.
  apply Z.eqb_neq in Htf. rewrite Htf. simpl.
  destruct (select_price tick) as [price|]; [|by left].
  right. destruct (_bars agg !! symbol tick) as [cur|] eqn:Hb.
  - right. destruct (Z.ltb_spec (bar_timestamp_ns cur)
      (timestamp_ns tick / _timeframe_ns agg * _timeframe_ns agg)).
    + left. by exists price, cur.
    + right. by exists price, cur.
  - left. by exists price.
Qed.

Lemma process_tick_timeframe tick agg agg' out :
  process_tick tick agg = Some (agg', out) →
  _timeframe_ns agg' = _timeframe_ns agg ∧ _on_bar agg' = _on_bar agg.
Proof.
  unfold process_tick, _get_bar_timestamp.
  destruct (_ =? 0); [done|]. simpl.
  destruct (select_price tick); [|by intros [= <- _]].
  destruct (_bars agg !! symbol tick); [destruct (_ <? _)|]; by intros [= <- _].
Qed.

Lemma bars_ok_step tick agg agg' out :
  _timeframe_ns agg ≠ 0 → bars_ok agg →
  process_tick tick agg = Some (agg', out) →
  bars_ok agg' ∧ (∀ b, out = Some b → bar_ok (_timeframe_ns agg) (symbol tick) b).
Proof.
  intros Htf Hok Hp.
  assert (∀ price size,
    bar_ok (_timeframe_ns agg) (symbol tick)
      (new_bar (timestamp_ns tick / _timeframe_ns agg * _timeframe_ns agg)
         tick price size)) as Hnew.
  { intros price size. unfold bar_ok. simpl. split_and!; try done; try lia.
    apply Z.divide_factor_r. }
  destruct (process_tick_cases tick agg Htf)
    as [[_ Heq]|[(p & _ & _ & Heq)|[(p & cur & _ & Hcur & _ & Heq)|(p & cur & _ & Hcur & _ & Heq)]]];
    rewrite Heq in Hp; injection Hp as <- <-.
  - split; [done|]. by intros b.
  - split; [|by intros b]. intros s b. simpl. rewrite lookup_insert.
    case_decide as Hs; [|apply Hok]. intros [= <-]. subst s. apply Hnew.
  - split.
    + intros s b. simpl. rewrite lookup_insert.
      case_decide as Hs; [|apply Hok]. intros [= <-]. subst s. apply Hnew.
    + intros b [= <-]. by apply Hok.
  - split; [|by intros b]. intros s b. simpl. rewrite lookup_insert.
    case_decide as Hs; [|apply Hok]. intros [= <-]. subst s.
    destruct (Hok _ _ Hcur) as (Hsym & Ho & Hc & Hn & Hd).
    unfold bar_ok. simpl. split_and!; try done; lia.
Qed.

Lemma init_bars_ok timeframe_seconds on_bar :
  bars_ok (TickAggregator_init timeframe_seconds on_bar).
Proof. intros s b. simpl. by rewrite lookup_empty. Qed.

(** A run never stops on a non-zero timeframe, and keeps it. *)
Lemma run_ticks_ok ticks : ∀ agg,
  _timeframe_ns agg ≠ 0 → bars_ok agg →
  ∃ agg' outs,
    run_ticks ticks agg = Some (agg', outs) ∧ bars_ok agg' ∧
    _timeframe_ns agg' = _timeframe_ns agg ∧ _on_bar agg' = _on_bar agg ∧
    Forall (λ b, bar_ok (_timeframe_ns agg) (bar_symbol b) b) outs.
Proof.
  induction ticks as [|t ts IH]; intros agg Htf Hok; simpl.
  - by exists agg, [].
  - destruct (process_tick t agg) as [[agg1 out]|] eqn:Hp.
    2:{ destruct (process_tick_cases t agg Htf)
          as [[_ Heq]|[(p & _ & _ & Heq)|[(p & cur & _ & _ & _ & Heq)|(p & cur & _ & _ & _ & Heq)]]];
          congruence. }
    simpl. destruct (process_tick_timeframe _ _ _ _ Hp) as [Htf1 Hob1].
    destruct (bars_ok_step _ _ _ _ Htf Hok Hp) as [Hok1 Hout].
    destruct (IH agg1) as (agg2 & outs & -> & Hok2 & Htf2 & Hob2 & Hall);
      [congruence|done|].
    simpl. exists agg2, (option_list out ++ outs).
    split_and!; try done; try congruence.
    apply Forall_app. split; [|by rewrite <- Htf1].
    destruct out as [b|]; simpl; [|done]. apply Forall_singleton.
    pose proof (Hout b eq_refl) as Hb. destruct Hb as [Hs ?].
    rewrite Hs. by split.
Qed.

(** X9. On an aggregator built with a non-zero timeframe, process_tick
    never raises, and after any stream of ticks every current bar and
    every completed bar is well formed: it is stored under its own symbol,
    low <= open <= high, low <= close <= high, tick_count >= 1, and its
    timestamp is a multiple of the timeframe. *)
Theorem bars_well_formed
    (timeframe_seconds : Z) (on_bar : bool) (ticks : list Tick) :
  timeframe_seconds ≠ 0 →
  ∃ agg outs,
    run_ticks ticks (TickAggregator_init timeframe_seconds on_bar)
      = Some (agg, outs) ∧
    (∀ s b, get_current_bar s agg = Some b →
       bar_ok (timeframe_seconds * 1000000000) s b) ∧
    Forall (λ b, bar_ok (timeframe_seconds * 1000000000) (bar_symbol b) b) outs.
Proof.
  intros Hne.
  destruct (run_ticks_ok ticks (TickAggregator_init timeframe_seconds on_bar))
    as (agg & outs & Hrun & Hok & Htf & _ & Hall).
  { simpl. lia. } { apply init_bars_ok. }
  exists agg, outs. split; [done|]. split; [|done].
  intros s b Hb. specialize (Hok s b Hb). by rewrite Htf in Hok.
Qed.

(** One step: the stored timestamps never go back, and a returned bar is
    the bar that was current, now replaced by a strictly later one. *)
Lemma step_order tick agg agg1 out :
  _timeframe_ns agg ≠ 0 →
  process_tick tick agg = Some (agg1, out) →
  (∀ s b0, _bars agg !! s = Some b0 →
     ∃ b1, _bars agg1 !! s = Some b1 ∧ bar_timestamp_ns b0 ≤ bar_timestamp_ns b1) ∧
  (∀ s, s ≠ symbol tick → _bars agg1 !! s = _bars agg !! s) ∧
  (∀ b, out = Some b →
     _bars agg !! symbol tick = Some b ∧
     ∃ cur, _bars agg1 !! symbol tick = Some cur ∧
            bar_timestamp_ns b < bar_timestamp_ns cur) ∧
  emitted agg1 = emitted agg ++ (if _on_bar agg then option_list out else []).
Proof.
  intros Htf Hp.
  destruct (process_tick_cases tick agg Htf)
    as [[_ Heq]|[(p & _ & Hnone & Heq)|[(p & cur & _ & Hcur & Hlt & Heq)|(p & cur & _ & Hcur & Hle & Heq)]]];
    rewrite Heq in Hp; injection Hp as <- <-; simpl.
  - split_and!; [|done|done|].
    + intros s b0 Hb0. exists b0. split; [done|lia].
    + destruct (_on_bar agg); simpl; by rewrite ?app_nil_r.
  - split_and!.
    + intros s b0 Hb0. rewrite lookup_insert. case_decide as Hs; [congruence|].
      exists b0. split; [done|lia].
    + intros s Hs. by rewrite lookup_insert_ne.
    + done.
    + destruct (_on_bar agg); simpl; by rewrite ?app_nil_r.
  - split_and!.
    + intros s b0 Hb0. rewrite lookup_insert. case_decide as Hs; [|exists b0; split; [done|lia]].
      subst s. assert (b0 = cur) as -> by congruence.
      eexists. split; [done|]. simpl. lia.
    + intros s Hs. by rewrite lookup_insert_ne.
    + intros b [= <-]. split; [done|]. rewrite lookup_insert_eq.
      eexists. split; [done|]. done.
    + destruct (_on_bar agg); simpl; by rewrite ?app_nil_r.
  - split_and!.
    + intros s b0 Hb0. rewrite lookup_insert. case_decide as Hs; [|exists b0; split; [done|lia]].
      subst s. assert (b0 = cur) as -> by congruence.
      eexists. split; [done|]. simpl. lia.
    + intros s Hs. by rewrite lookup_insert_ne.
    + done.
    + destruct (_on_bar agg); simpl; by rewrite ?app_nil_r.
Qed.

Lemma bars_of_app s l1 l2 : bars_of s (l1 ++ l2) = bars_of s l1 ++ bars_of s l2.
Proof. apply filter_app. Qed.

Lemma run_order ticks : ∀ agg agg' outs,
  _timeframe_ns agg ≠ 0 → bars_ok agg →
  run_ticks ticks agg = Some (agg', outs) →
  (∀ s b0, _bars agg !! s = Some b0 →
     ∃ b1, _bars agg' !! s = Some b1 ∧ bar_timestamp_ns b0 ≤ bar_timestamp_ns b1) ∧
  (∀ b, b ∈ outs →
     (∃ cur, _bars agg' !! bar_symbol b = Some cur ∧
             bar_timestamp_ns b < bar_timestamp_ns cur) ∧
     (∀ b0, _bars agg !! bar_symbol b = Some b0 →
            bar_timestamp_ns b0 ≤ bar_timestamp_ns b)) ∧
  (∀ s, StronglySorted (λ a b, bar_timestamp_ns a < bar_timestamp_ns b)
          (bars_of s outs)) ∧
  emitted agg' = emitted agg ++ (if _on_bar agg then outs else []).
Proof.
  induction ticks as [|t ts IH]; intros agg agg' outs Htf Hok; simpl.
  - intros [= <- <-]. split_and!; [| |constructor|].
    + intros s b0 Hb0. exists b0. split; [done|lia].
    + by intros b Hb%elem_of_nil.
    + destruct (_on_bar agg); simpl; by rewrite ?app_nil_r.
  - destruct (process_tick t agg) as [[agg1 out]|] eqn:Hp; [|done]. simpl.
    destruct (run_ticks ts agg1) as [[agg2 outs2]|] eqn:Hrun; [|done]. simpl.
    intros [= <- <-].
    destruct (process_tick_timeframe _ _ _ _ Hp) as [Htf1 Hob1].
    destruct (bars_ok_step _ _ _ _ Htf Hok Hp) as [Hok1 Hout].
    destruct (step_order _ _ _ _ Htf Hp) as (Ha1 & _ & Hb1 & He1).
    destruct (IH agg1 agg2 outs2) as (Ha & Hb & Hc & He); [congruence|done|done|].
    split_and!.
    + intros s b0 Hb0. destruct (Ha1 s b0 Hb0) as (b1 & Hb1' & Hle1).
      destruct (Ha s b1 Hb1') as (b2 & Hb2 & Hle2). exists b2. split; [done|lia].
    + intros b [Hin|Hin]%elem_of_app.
      * destruct out as [b'|]; [|by apply elem_of_nil in Hin].
        apply list_elem_of_singleton in Hin. subst b'.
        destruct (Hb1 b eq_refl) as (Hcur & cur1 & Hcur1 & Hlt).
        destruct (Hout b eq_refl) as [Hsym _]. rewrite Hsym. split.
        -- destruct (Ha _ _ Hcur1) as (b2 & Hb2 & Hle2). exists b2. split; [done|lia].
        -- intros b0 Hb0. assert (b0 = b) as -> by congruence. lia.
      * destruct (Hb b Hin) as [Hcur Hlow]. split; [done|].
        intros b0 Hb0. destruct (Ha1 _ _ Hb0) as (b1 & Hb1' & Hle1).
        specialize (Hlow b1 Hb1'). lia.
    + intros s. rewrite bars_of_app.
      destruct out as [b|]; simpl; [|apply Hc].
      unfold bars_of at 1. rewrite filter_cons, filter_nil.
      case_decide as Hs; simpl; [|apply Hc].
      constructor; [apply Hc|]. apply Forall_forall. intros b' Hb'.
      apply list_elem_of_filter in Hb' as [Hs' Hin].
      destruct (Hb1 b eq_refl) as (_ & cur1 & Hcur1 & Hlt).
      destruct (Hout b eq_refl) as [Hsym _].
      destruct (Hb b' Hin) as [_ Hlow].
      assert (bar_symbol b' = symbol t) as Hkey by congruence.
      rewrite Hkey in Hlow. specialize (Hlow cur1 Hcur1). lia.
    + rewrite He, He1, Hob1, <- app_assoc. by destruct (_on_bar agg).
Qed.

(** X10. The completed bars of a symbol come out in strictly increasing
    timestamp order, and each is strictly older than the symbol's current
    bar: a completed bar is never reopened or returned twice. *)
Theorem completed_bars_increase
    (timeframe_seconds : Z) (on_bar : bool) (ticks : list Tick)
    (agg : TickAggregator) (outs : list Bar) :
  timeframe_seconds ≠ 0 →
  run_ticks ticks (TickAggregator_init timeframe_seconds on_bar) = Some (agg, outs) →
  (∀ s, StronglySorted (λ a b, bar_timestamp_ns a < bar_timestamp_ns b)
          (bars_of s outs)) ∧
  (∀ b, b ∈ outs →
     ∃ cur, get_current_bar (bar_symbol b) agg = Some cur ∧
            bar_timestamp_ns b < bar_timestamp_ns cur).
Proof.
  intros Hne Hrun.
  assert (_timeframe_ns (TickAggregator_init timeframe_seconds on_bar) ≠ 0) as Htf
    by (simpl; lia).
  destruct (run_order ticks _ _ _ Htf
              (init_bars_ok timeframe_seconds on_bar) Hrun) as (_ & Hb & Hc & _).
  split; [done|]. intros b Hin. by destruct (Hb b Hin).
Qed.

(** X11. The bar sink receives exactly the completed bars, in the order
    process_tick returned them, when on_bar is set, and nothing is logged
    for it otherwise. *)
Theorem sink_gets_completed_bars
    (timeframe_seconds : Z) (on_bar : bool) (ticks : list Tick)
    (agg : TickAggregator) (outs : list Bar) :
  timeframe_seconds ≠ 0 →
  run_ticks ticks (TickAggregator_init timeframe_seconds on_bar) = Some (agg, outs) →
  emitted agg = if on_bar then outs else [].
Proof.
  intros Hne Hrun.
  assert (_timeframe_ns (TickAggregator_init timeframe_seconds on_bar) ≠ 0) as Htf
    by (simpl; lia).
  by destruct (run_order ticks _ _ _ Htf
                 (init_bars_ok timeframe_seconds on_bar) Hrun) as (_ & _ & _ & He).
Qed.

Lemma list_total_app f l1 l2 :
  list_total f (l1 ++ l2) = list_total f l1 + list_total f l2.
Proof. unfold list_total. induction l1 as [|b l1 IH]; simpl; lia. Qed.

Lemma bars_total_insert_new f (m : gmap string Bar) k v :
  m !! k = None → bars_total f (<[k := v]> m) = f v + bars_total f m.
Proof.
  intros Hk. unfold bars_total. rewrite map_fold_insert_L; [done| |done].
  intros. lia.
Qed.

Lemma bars_total_insert_old f (m : gmap string Bar) k v old :
  m !! k = Some old → bars_total f (<[k := v]> m) = f v + bars_total f m - f old.
Proof.
  intros Hk. rewrite <- insert_delete_eq.
  rewrite bars_total_insert_new by apply lookup_delete_eq.
  unfold bars_total. rewrite (map_fold_delete_L _ _ k old m); [lia| |done].
  intros. lia.
Qed.

Lemma priced_single c tick :
  tick_total c (priced [tick])
  = match select_price tick with Some _ => c tick | None => 0 end.
Proof.
  unfold priced. rewrite filter_cons, filter_nil.
  destruct (decide (is_Some (select_price tick))) as [[p Hp]|Hn].
  - rewrite Hp. simpl. lia.
  - destruct (select_price tick) as [p|]; [destruct Hn; eauto|done].
Qed.

(** A bar field that a new bar starts at the tick's amount and an update
    increases by it is conserved by [process_tick]. *)
Lemma step_total (f : Bar → Z) (c : Tick → Z) tick agg agg1 out :
  (∀ ts p, f (new_bar ts tick p (select_size tick)) = c tick) →
  (∀ cur p, f (update_bar cur p (select_size tick)) = f cur + c tick) →
  _timeframe_ns agg ≠ 0 →
  process_tick tick agg = Some (agg1, out) →
  bars_total f (_bars agg1) + list_total f (option_list out)
  = bars_total f (_bars agg) + tick_total c (priced [tick]).
Proof.
  intros Hnew Hupd Htf Hp. rewrite priced_single.
  destruct (process_tick_cases tick agg Htf)
    as [[Hsel Heq]|[(p & Hsel & Hnone & Heq)|[(p & cur & Hsel & Hcur & Hlt & Heq)|(p & cur & Hsel & Hcur & Hle & Heq)]]];
    rewrite Heq in Hp; injection Hp as <- <-; rewrite Hsel; simpl.
  - lia.
  - rewrite bars_total_insert_new by done. rewrite Hnew. lia.
  - rewrite (bars_total_insert_old _ _ _ _ cur) by done. rewrite Hnew. lia.
  - rewrite (bars_total_insert_old _ _ _ _ cur) by done. rewrite Hupd. lia.
Qed.

Lemma tick_total_priced_cons c t ts :
  tick_total c (priced (t :: ts)) = tick_total c (priced [t]) + tick_total c (priced ts).
Proof.
  unfold priced. rewrite !filter_cons, filter_nil.
  destruct (decide (is_Some (select_price t))); simpl; lia.
Qed.

Lemma run_total (f : Bar → Z) (c : Tick → Z) ticks : ∀ agg agg' outs,
  (∀ tick ts p, f (new_bar ts tick p (select_size tick)) = c tick) →
  (∀ tick cur p, f (update_bar cur p (select_size tick)) = f cur + c tick) →
  _timeframe_ns agg ≠ 0 →
  run_ticks ticks agg = Some (agg', outs) →
  bars_total f (_bars agg') + list_total f outs
  = bars_total f (_bars agg) + tick_total c (priced ticks).
Proof.
  induction ticks as [|t ts IH]; intros agg agg' outs Hnew Hupd Htf; simpl.
  - intros [= <- <-]. unfold priced, tick_total, list_total. simpl. lia.
  - destruct (process_tick t agg) as [[agg1 out]|] eqn:Hp; [|done]. simpl.
    destruct (run_ticks ts agg1) as [[agg2 outs2]|] eqn:Hrun; [|done]. simpl.
    intros [= <- <-].
    destruct (process_tick_timeframe _ _ _ _ Hp) as [Htf1 _].
    pose proof (step_total f c t agg agg1 out (Hnew t) (Hupd t) Htf Hp) as Hstep.
    pose proof (IH agg1 agg2 outs2 Hnew Hupd ltac:(congruence) Hrun) as Hrest.
    rewrite list_total_app, tick_total_priced_cons. lia.
Qed.

(** X12. Every tick that contributes a price is counted in exactly one
    bar and its size in exactly one volume: over any stream, the
    tick_counts of the completed and current bars add up to the number of
    priced ticks, and their volumes to the sum of the sizes of the priced
    ticks. *)
Theorem bars_conserve_ticks
    (timeframe_seconds : Z) (on_bar : bool) (ticks : list Tick)
    (agg : TickAggregator) (outs : list Bar) :
  timeframe_seconds ≠ 0 →
  run_ticks ticks (TickAggregator_init timeframe_seconds on_bar) = Some (agg, outs) →
  list_total tick_count outs + bars_total tick_count (_bars agg)
    = Z.of_nat (length (priced ticks)) ∧
  list_total volume outs + bars_total volume (_bars agg)
    = tick_total select_size (priced ticks).
Proof.
  intros Hne Hrun.
  assert (_timeframe_ns (TickAggregator_init timeframe_seconds on_bar) ≠ 0) as Htf
    by (simpl; lia).
  assert (bars_total tick_count (∅ : gmap string Bar) = 0
          ∧ bars_total volume (∅ : gmap string Bar) = 0) as [Ht0 Hv0]
    by (unfold bars_total; by rewrite !map_fold_empty).
  split.
  - pose proof (run_total tick_count (λ _, 1) ticks _ _ _
                  ltac:(done) ltac:(done) Htf Hrun) as H.
    simpl in H. rewrite Ht0 in H.
    assert (tick_total (λ _, 1) (priced ticks) = Z.of_nat (length (priced ticks))) as Hlen.
    { generalize (priced ticks). intros l. unfold tick_total.
      induction l as [|t l IH]; simpl; lia. }
    lia.
  - pose proof (run_total volume select_size ticks _ _ _
                  ltac:(done) ltac:(done) Htf Hrun) as H.
    simpl in H. rewrite Hv0 in H. lia.
Qed.

Lemma step_same_symbol tick agg1 agg2 :
  _timeframe_ns agg1 = _timeframe_ns agg2 →
  _bars agg1 !! symbol tick = _bars agg2 !! symbol tick →
  match process_tick tick agg1, process_tick tick agg2 with
  | Some (a1, out1), Some (a2, out2) =>
      out1 = out2 ∧ _bars a1 !! symbol tick = _bars a2 !! symbol tick
  | None, None => True
  | _, _ => False
  end.
Proof.
  intros Htf Hb. unfold process_tick, _get_bar_timestamp. rewrite Htf, Hb.
  destruct (_ =? 0); [done|]. simpl.
  destruct (select_price tick); [|done].
  destruct (_bars agg2 !! symbol tick) as [cur|]; [destruct (_ <? _)|];
    simpl; by rewrite !lookup_insert_eq.
Qed.

Lemma ticks_of_cons s t ts :
  ticks_of s (t :: ts) = if decide (symbol t = s) then t :: ticks_of s ts else ticks_of s ts.
Proof. unfold ticks_of. by rewrite filter_cons. Qed.

Lemma run_per_symbol s ticks : ∀ agg1 agg2 a1 outs1,
  _timeframe_ns agg1 = _timeframe_ns agg2 → _timeframe_ns agg1 ≠ 0 →
  bars_ok agg1 →
  _bars agg1 !! s = _bars agg2 !! s →
  run_ticks ticks agg1 = Some (a1, outs1) →
  ∃ a2, run_ticks (ticks_of s ticks) agg2 = Some (a2, bars_of s outs1) ∧
        _bars a1 !! s = _bars a2 !! s.
Proof.
  induction ticks as [|t ts IH]; intros agg1 agg2 a1 outs1 Heq Hne Hok Hb; simpl.
  - intros [= <- <-]. by exists agg2.
  - destruct (process_tick t agg1) as [[agg1' out]|] eqn:Hp; [|done]. simpl.
    destruct (run_ticks ts agg1') as [[agg1'' outs]|] eqn:Hrun; [|done]. simpl.
    intros [= <- <-].
    destruct (process_tick_timeframe _ _ _ _ Hp) as [Htf1 _].
    destruct (bars_ok_step _ _ _ _ Hne Hok Hp) as [Hok1 Hout].
    rewrite ticks_of_cons, bars_of_app. case_decide as Hs.
    + subst s. pose proof (step_same_symbol t agg1 agg2 Heq Hb) as Hsame.
      rewrite Hp in Hsame.
      destruct (process_tick t agg2) as [[agg2' out2]|] eqn:Hp2; [|done].
      destruct Hsame as [<- Hb'].
      destruct (process_tick_timeframe _ _ _ _ Hp2) as [Htf2 _].
      destruct (IH agg1' agg2' _ _ ltac:(congruence) ltac:(congruence) Hok1 Hb' Hrun)
        as (a2 & Hrun2 & Hfin).
      exists a2. simpl. rewrite Hp2. simpl. rewrite Hrun2. simpl. split; [|done].
      do 2 f_equal. destruct out as [b|]; simpl; [|done].
      unfold bars_of. rewrite filter_cons, filter_nil.
      destruct (Hout b eq_refl) as [Hsym _]. by rewrite decide_True.
    + destruct (step_order _ _ _ _ Hne Hp) as (_ & Hframe & _).
      destruct (IH agg1' agg2 _ _ ltac:(congruence) ltac:(congruence) Hok1
                  ltac:(rewrite Hframe; done) Hrun) as (a2 & Hrun2 & Hfin).
      exists a2. split; [|done]. rewrite Hrun2. do 2 f_equal.
      destruct out as [b|]; simpl; [|done].
      unfold bars_of. rewrite filter_cons, filter_nil.
      destruct (Hout b eq_refl) as [Hsym _]. rewrite decide_False; [done|congruence].
Qed.

(** X13. Symbols are aggregated independently: the completed bars of a
    symbol and its current bar after a stream are those obtained from the
    ticks of that symbol alone. *)
Theorem symbols_are_independent
    (timeframe_seconds : Z) (on_bar : bool) (ticks : list Tick) (s : string)
    (agg : TickAggregator) (outs : list Bar) :
  timeframe_seconds ≠ 0 →
  run_ticks ticks (TickAggregator_init timeframe_seconds on_bar) = Some (agg, outs) →
  ∃ agg_s,
    run_ticks (ticks_of s ticks) (TickAggregator_init timeframe_seconds on_bar)
      = Some (agg_s, bars_of s outs) ∧
    get_current_bar s agg = get_current_bar s agg_s.
Proof.
  intros Hne Hrun.
  assert (_timeframe_ns (TickAggregator_init timeframe_seconds on_bar) ≠ 0) as Htf
    by (simpl; lia).
  by apply (run_per_symbol s ticks _ (TickAggregator_init timeframe_seconds on_bar)
              agg outs eq_refl Htf (init_bars_ok timeframe_seconds on_bar) eq_refl).
Qed.

(** Witness of X9: the one-minute aggregator on the two-symbol stream. *)
Lemma bars_well_formed_witness :
  60 ≠ 0 ∧
  ∃ agg outs,
    run_ticks more_samples.two_symbols (TickAggregator_init 60 true)
      = Some (agg, outs) ∧
    (∀ s b, get_current_bar s agg = Some b → bar_ok (60 * 1000000000) s b) ∧
    Forall (λ b, bar_ok (60 * 1000000000) (bar_symbol b) b) outs.
Proof.
  split; [lia|]. apply (bars_well_formed 60 true more_samples.two_symbols). lia.
Defined.

(** Witness of X10: the two-symbol stream completes three bars. *)
Lemma completed_bars_increase_witness :
  60 ≠ 0 ∧
  run_ticks more_samples.two_symbols (TickAggregator_init 60 true)
    = Some (more_samples.two_symbols_agg, more_samples.two_symbols_bars) ∧
  length more_samples.two_symbols_bars = 3%nat ∧
  (∀ s, StronglySorted (λ a b, bar_timestamp_ns a < bar_timestamp_ns b)
          (bars_of s more_samples.two_symbols_bars)) ∧
  (∀ b, b ∈ more_samples.two_symbols_bars →
     ∃ cur, get_current_bar (bar_symbol b) more_samples.two_symbols_agg = Some cur ∧
            bar_timestamp_ns b < bar_timestamp_ns cur).
Proof.
  split; [lia|]. split; [vm_compute; reflexivity|].
  split; [vm_compute; reflexivity|].
  apply (completed_bars_increase 60 true more_samples.two_symbols);
    [lia|vm_compute; reflexivity].
Defined.

(** Witness of X11: with a sink, the three completed bars reach it. *)
Lemma sink_gets_completed_bars_witness :
  60 ≠ 0 ∧
  run_ticks more_samples.two_symbols (TickAggregator_init 60 true)
    = Some (more_samples.two_symbols_agg, more_samples.two_symbols_bars) ∧
  emitted more_samples.two_symbols_agg = more_samples.two_symbols_bars.
Proof.
  split; [lia|]. split; [vm_compute; reflexivity|].
  apply (sink_gets_completed_bars 60 true more_samples.two_symbols);
    [lia|vm_compute; reflexivity].
Defined.

(** Witness of X12: six priced ticks, of total size 16. *)
Lemma bars_conserve_ticks_witness :
  60 ≠ 0 ∧
  run_ticks more_samples.two_symbols (TickAggregator_init 60 true)
    = Some (more_samples.two_symbols_agg, more_samples.two_symbols_bars) ∧
  length (priced more_samples.two_symbols) = 6%nat ∧
  tick_total select_size (priced more_samples.two_symbols) = 16 ∧
  list_total tick_count more_samples.two_symbols_bars
    + bars_total tick_count (_bars more_samples.two_symbols_agg)
    = Z.of_nat (length (priced more_samples.two_symbols)) ∧
  list_total volume more_samples.two_symbols_bars
    + bars_total volume (_bars more_samples.two_symbols_agg)
    = tick_total select_size (priced more_samples.two_symbols).
Proof.
  split; [lia|]. split; [vm_compute; reflexivity|].
  split; [vm_compute; reflexivity|]. split; [vm_compute; reflexivity|].
  apply (bars_conserve_ticks 60 true more_samples.two_symbols);
    [lia|vm_compute; reflexivity].
Defined.

(** Witness of X13: the "NQ" bars of the two-symbol stream. *)
Lemma symbols_are_independent_witness :
  60 ≠ 0 ∧
  run_ticks more_samples.two_symbols (TickAggregator_init 60 true)
    = Some (more_samples.two_symbols_agg, more_samples.two_symbols_bars) ∧
  length (bars_of "NQ" more_samples.two_symbols_bars) = 1%nat ∧
  ∃ agg_s,
    run_ticks (ticks_of "NQ" more_samples.two_symbols) (TickAggregator_init 60 true)
      = Some (agg_s, bars_of "NQ" more_samples.two_symbols_bars) ∧
    get_current_bar "NQ" more_samples.two_symbols_agg = get_current_bar "NQ" agg_s.
Proof.
  split; [lia|]. split; [vm_compute; reflexivity|].
  split; [vm_compute; reflexivity|].
  apply (symbols_are_independent 60 true more_samples.two_symbols "NQ");
    [lia|vm_compute; reflexivity].
Defined.

End aggregator_stream_facts.

(** ** Supervisor: delay bounds, shutdown, stop and cancellation *)

Section supervisor_more_facts.
Import models base_handler supervisor_runs supervisor_more.

(** X14. Once stop() has been requested no further tick reaches on_tick:
    the ticks handled in a pass are a prefix of the ticks the stream
    delivered; none is handled if the handler is already stopped, and if
    stop() lands while tick number k is being handled, tick k is the last
    one handled. *)
Theorem no_tick_after_stop
    (ds : list (Tick * await)) (fin : await) (h : FeedHandler) :
  (∃ n, (read_loop ds fin h).2 = OnTick <$> take n (fst <$> ds)) ∧
  (_running h = false → (read_loop ds fin h).2 = []) ∧
  (∀ (k : nat) t a, ds !! k = Some (t, a) → stop_requested a = true →
     (length (read_loop ds fin h).2 ≤ S k)%nat).
Proof.
  destruct (read_loop ds fin h) as [[r h'] tr] eqn:E.
  by destruct (read_loop_actions _ _ _ _ _ _ E) as (? & ? & ? & _).
Qed.

Lemma body_is_pass_action a : body_action a → pass_action a.
Proof. by destruct a. Qed.

(** What the except clause does to the delay, whatever its outcome. *)
Lemma on_failure_fields it h s h' tr :
  on_failure it h = (s, h', tr) →
  _max_reconnect_delay h' = _max_reconnect_delay h ∧
  (_reconnect_delay h' = _reconnect_delay h ∨
   _reconnect_delay h' = Z.min (_reconnect_delay h * 2) (_max_reconnect_delay h)) ∧
  Forall pass_action tr ∧
  (∀ d, d ∈ sleeps tr → d = _reconnect_delay h) ∧
  (s = Continue ∨ s = Escape).
Proof.
  unfold on_failure, during. destruct h as [oe run conn d mx]. simpl.
  destruct oe, run, (how (on_error_ it)), (stop_requested (on_error_ it)),
    (how (sleep_ it)), (stop_requested (sleep_ it));
    simpl; intros [= <- <- <-]; simpl; split_and!; eauto;
    try (by repeat constructor);
    try (intros d' Hd'; repeat (apply elem_of_cons in Hd' as [Hd'|Hd']; [done|]);
         by apply elem_of_nil in Hd').
Qed.

Lemma iteration_fields it h s h' tr :
  iteration it h = (s, h', tr) →
  _max_reconnect_delay h' = _max_reconnect_delay h ∧
  (_reconnect_delay h' = _reconnect_delay h ∨ _reconnect_delay h' = 1 ∨
   _reconnect_delay h' = Z.min (_reconnect_delay h * 2) (_max_reconnect_delay h) ∨
   _reconnect_delay h' = Z.min (1 * 2) (_max_reconnect_delay h)) ∧
  Forall pass_action tr ∧
  (∀ d, d ∈ sleeps tr → d = _reconnect_delay h ∨ d = 1) ∧
  (s = Break → _running h' = false).
Proof.
  unfold iteration. destruct (try_body it h) as [[r h1] tr1] eqn:E.
  pose proof (try_body_actions it h) as Hact. rewrite E in Hact. simpl in Hact.
  destruct (try_body_spec _ _ _ _ _ E) as (_ & Hs & Hmx & _ & Hd1 & Hnc).
  assert (_reconnect_delay h1 = _reconnect_delay h ∨ _reconnect_delay h1 = 1) as Hd.
  { destruct (how (connect_ it)) eqn:Hc; [by right; apply Hd1|..];
      (destruct Hnc as (_ & _ & -> & _); [done|]; left; apply during_delay). }
  assert (Forall pass_action tr1) as Hp1
    by (eapply Forall_impl; [done|apply body_is_pass_action]).
  destruct r.
  - intros [= <- <- <-]. split_and!; try done; [tauto|].
    intros d Hin. rewrite Hs in Hin. by apply elem_of_nil in Hin.
  - intros [= <- <- <-]. split_and!; try done; [tauto|].
    intros d Hin. rewrite Hs in Hin. by apply elem_of_nil in Hin.
  - destruct (on_failure it h1) as [[s2 h2] tr2] eqn:E2. intros [= <- <- <-].
    destruct (on_failure_fields _ _ _ _ _ E2) as (Hmx2 & Hd2 & Hp2 & Hsl & Hs2).
    split_and!.
    + congruence.
    + rewrite Hmx in Hd2. destruct Hd as [Hd|Hd], Hd2 as [Hd2|Hd2];
        rewrite Hd in Hd2; tauto.
    + by apply Forall_app.
    + intros d. rewrite sleeps_app, Hs. simpl. intros Hin.
      apply Hsl in Hin. subst d. tauto.
    + intros ->. by destruct Hs2.
  - intros [= <- <- <-]. simpl. split_and!; try done; [tauto|].
    intros d Hin. rewrite Hs in Hin. by apply elem_of_nil in Hin.
Qed.

Lemma schedule_closed d :
  d ∈ delay_schedule →
  1 ∈ delay_schedule ∧ Z.min (d * 2) 60 ∈ delay_schedule ∧
  Z.min (1 * 2) 60 ∈ delay_schedule ∧ 1 ≤ d ≤ 60.
Proof.
  unfold delay_schedule. intros Hd.
  repeat (apply elem_of_cons in Hd as [->|Hd]; [vm_compute; split_and!;
    try (intros; discriminate); repeat first [left; reflexivity | right]|]).
  by apply elem_of_nil in Hd.
Qed.

Lemma supervise_actions script : ∀ h e h' tr,
  supervise script h = (e, h', tr) →
  Forall pass_action tr ∧
  (e = Exited → _running h' = false) ∧
  (e = Pending → _running h' = true).
Proof.
  induction script as [|it rest IH]; intros h e h' tr; simpl.
  - destruct (_running h) eqn:Hrun; simpl; intros [= <- <- <-]; done.
  - destruct (_running h) eqn:Hrun; simpl.
    2:{ intros [= <- <- <-]. done. }
    destruct (iteration it h) as [[s h1] tr1] eqn:E.
    destruct (iteration_fields _ _ _ _ _ E) as (_ & _ & Hp1 & _ & Hbr).
    destruct s.
    + destruct (supervise rest h1) as [[e2 h2] tr2] eqn:E2. intros [= <- <- <-].
      destruct (IH _ _ _ _ E2) as (? & ? & ?).
      split_and!; try done. by apply Forall_app.
    + intros [= <- <- <-]. split_and!; try done. by intros _; apply Hbr.
    + intros [= <- <- <-]. done.
Qed.

Lemma supervise_delays script : ∀ h e h' tr,
  _max_reconnect_delay h = 60 → _reconnect_delay h ∈ delay_schedule →
  supervise script h = (e, h', tr) →
  _max_reconnect_delay h' = 60 ∧ _reconnect_delay h' ∈ delay_schedule ∧
  (∀ d, d ∈ sleeps tr → d ∈ delay_schedule).
Proof.
  induction script as [|it rest IH]; intros h e h' tr Hmx Hd; simpl.
  - destruct (_running h) eqn:Hrun; simpl; intros [= <- <- <-];
      split_and!; try done; by intros d Hin%elem_of_nil.
  - destruct (_running h) eqn:Hrun; simpl.
    2:{ intros [= <- <- <-]. split_and!; try done. by intros d Hin%elem_of_nil. }
    destruct (iteration it h) as [[s h1] tr1] eqn:E.
    destruct (iteration_fields _ _ _ _ _ E) as (Hmx1 & Hd1 & _ & Hsl1 & _).
    destruct (schedule_closed _ Hd) as (H1 & Hdbl & H2 & _).
    assert (_reconnect_delay h1 ∈ delay_schedule) as Hd1'.
    { rewrite Hmx in Hd1. destruct Hd1 as [-> | [-> | [-> | ->]]]; done. }
    assert (∀ d, d ∈ sleeps tr1 → d ∈ delay_schedule) as Hsl1'.
    { intros d Hin. destruct (Hsl1 d Hin) as [->| ->]; done. }
    assert (_max_reconnect_delay h1 = 60) as Hmx1' by congruence.
    destruct s.
    + destruct (supervise rest h1) as [[e2 h2] tr2] eqn:E2. intros [= <- <- <-].
      destruct (IH _ _ _ _ Hmx1' Hd1' E2) as (? & ? & Hsl2).
      split_and!; try done.
      intros d. rewrite sleeps_app. intros [Hin|Hin]%elem_of_app; eauto.
    + intros [= <- <- <-]. done.
    + intros [= <- <- <-]. done.
Qed.

(** X15. Whatever the environment does, the reconnect delay of a handler
    run by start is one of 1, 2, 4, 8, 16, 32, 60 seconds, the cap stays
    60, and every backoff sleep lasts one of these values: the loop never
    waits longer than 60 s nor less than 1 s. *)
Theorem backoff_stays_in_schedule
    (script : list Iteration) (disconnect_ : await) (on_error : bool) :
  let '(e, h', tr) := start script disconnect_ (FeedHandler_init on_error) in
  _reconnect_delay h' ∈ delay_schedule ∧
  _max_reconnect_delay h' = 60 ∧
  ∀ d, d ∈ sleeps tr → d ∈ delay_schedule ∧ 1 ≤ d ≤ 60.
Proof.
  unfold start.
  destruct (supervise script (set_running true (FeedHandler_init on_error)))
    as [[e h1] tr1] eqn:E.
  assert (_reconnect_delay (set_running true (FeedHandler_init on_error))
          ∈ delay_schedule) as Hd0 by (by left).
  assert (_max_reconnect_delay (set_running true (FeedHandler_init on_error))
          = 60) as Hmx0 by done.
  destruct (supervise_delays _ _ _ _ _ Hmx0 Hd0 E) as (Hmx & Hd & Hsl).
  assert (∀ d, d ∈ sleeps tr1 → d ∈ delay_schedule ∧ 1 ≤ d ≤ 60) as Hsl'.
  { intros d Hin. split; [by apply Hsl|]. by apply schedule_closed, Hsl. }
  destruct e; [|done..].
  destruct (how disconnect_); simpl;
    rewrite ?during_delay, ?during_max; (split_and!; [done|done|]);
    intros d; rewrite sleeps_app; simpl; rewrite app_nil_r; apply Hsl'.
Qed.

(** X16. In every run, start calls disconnect at most once and only as
    its last call, also when disconnect itself raises or is cancelled.
    When start returns normally the handler is neither running nor
    connected and the last call was disconnect, which returned; while the
    loop is still looping, and when an exception leaves start from the
    except clause (on_error raising, or the backoff sleep being
    cancelled), disconnect has not been called; an exception that leaves
    start after disconnect was called is disconnect's own, and the loop
    had ended. *)
Theorem start_disconnects_last
    (script : list Iteration) (disconnect_ : await) (h : FeedHandler) :
  let '(e, h', tr) := start script disconnect_ h in
  ((Disconnect ∉ tr) ∨ ∃ tr0, tr = tr0 ++ [Disconnect] ∧ Disconnect ∉ tr0) ∧
  (e = Exited →
     _running h' = false ∧ _connected h' = false ∧
     how disconnect_ = Returned ∧
     ∃ tr0, tr = tr0 ++ [Disconnect] ∧ Disconnect ∉ tr0) ∧
  (e = Pending → _running h' = true ∧ Disconnect ∉ tr) ∧
  (e = Escaped → how disconnect_ = Returned → Disconnect ∉ tr) ∧
  (e = Escaped → Disconnect ∈ tr →
     how disconnect_ ≠ Returned ∧ _running h' = false ∧
     ∃ tr0, tr = tr0 ++ [Disconnect] ∧ Disconnect ∉ tr0).
Proof.
  unfold start.
  destruct (supervise script (set_running true h)) as [[e1 h1] tr1] eqn:E.
  destruct (supervise_actions _ _ _ _ _ E) as (Hp & Hex & Hpe).
  assert (Disconnect ∉ tr1) as Hno.
  { intros Hin. by apply (proj1 (Forall_forall pass_action tr1) Hp) in Hin. }
  destruct e1.
  - specialize (Hex eq_refl).
    assert (_running (during disconnect_ h1) = false) as Hrun
      by (unfold during; by destruct (stop_requested disconnect_)).
    assert (∃ tr0, tr1 ++ [Disconnect] = tr0 ++ [Disconnect] ∧ Disconnect ∉ tr0)
      as Hlast by (by exists tr1).
    destruct (how disconnect_) eqn:Hdis.
    + split; [by right|]. split; [|done]. intros _. by split_and!.
    + split; [by right|]. split; [done|]. split; [done|]. split; [done|].
      intros _ _. by split_and!.
    + split; [by right|]. split; [done|]. split; [done|]. split; [done|].
      intros _ _. by split_and!.
  - split; [by left|]. split; [done|]. split; [done|]. split; [by intros|].
    intros _ Hin. by destruct Hno.
  - split; [by left|]. split; [done|]. split; [|done].
    intros _. split; [by apply Hpe|done].
Qed.

(** X17. Cancellation ends the supervisor at once: when the environment
    cancels connect, subscribe, an on_tick call or the stream, the pass
    calls neither on_error nor sleep, clears running, and no later pass
    is run; start then goes straight to disconnect. *)
Theorem cancellation_ends_loop
    (it : Iteration) (rest : list Iteration) (disconnect_ : await)
    (h : FeedHandler) (a : await) (tr1 : list Action) :
  interrupted it Cancelled a tr1 →
  ∃ h1,
    iteration it (set_running true h) = (Break, h1, tr1) ∧
    _running h1 = false ∧
    (OnError ∉ tr1) ∧ sleeps tr1 = [] ∧
    supervise (it :: rest) (set_running true h) = (Exited, h1, tr1) ∧
    (∃ e h', start (it :: rest) disconnect_ h = (e, h', tr1 ++ [Disconnect]) ∧
             _running h' = false).
Proof.
  intros Hint.
  destruct (interrupted_body it Cancelled a tr1 (set_running true h)
              ltac:(done) eq_refl Hint) as (h0 & E & _).
  cbn [body_end] in E.
  assert (iteration it (set_running true h) = (Break, set_running false h0, tr1))
    as Hit by (unfold iteration; by rewrite E).
  pose proof (try_body_actions it (set_running true h)) as Hact.
  rewrite E in Hact. simpl in Hact.
  destruct (try_body_spec _ _ _ _ _ E) as (_ & Hs & _).
  assert (supervise (it :: rest) (set_running true h)
          = (Exited, set_running false h0, tr1)) as Hsup.
  { cbn [supervise]. rewrite Hit. done. }
  exists (set_running false h0). split_and!; try done.
  - intros Hin. by apply (proj1 (Forall_forall body_action tr1) Hact) in Hin.
  - unfold start. rewrite Hsup.
    assert (_running (during disconnect_ (set_running false h0)) = false) as Hrun
      by (unfold during; by destruct (stop_requested disconnect_)).
    destruct (how disconnect_); eexists _, _; (split; [done|]); done.
Qed.

(** Witness of X17: the second on_tick is cancelled. *)
Lemma cancellation_ends_loop_witness :
  interrupted second_tick_cancelled Cancelled (mkAwait Cancelled false)
    [Connect; OnTick (samples.trade 1 100 1); OnTick (samples.trade 2 101 1)] ∧
  ∃ h1,
    iteration second_tick_cancelled (set_running true (FeedHandler_init true))
      = (Break, h1,
         [Connect; OnTick (samples.trade 1 100 1); OnTick (samples.trade 2 101 1)]) ∧
    _running h1 = false ∧
    (OnError ∉ [Connect; OnTick (samples.trade 1 100 1);
                OnTick (samples.trade 2 101 1)]) ∧
    sleeps [Connect; OnTick (samples.trade 1 100 1);
            OnTick (samples.trade 2 101 1)] = [] ∧
    supervise [second_tick_cancelled; connect_fails]
              (set_running true (FeedHandler_init true))
      = (Exited, h1,
         [Connect; OnTick (samples.trade 1 100 1); OnTick (samples.trade 2 101 1)]) ∧
    (∃ e h', start [second_tick_cancelled; connect_fails] returns
               (FeedHandler_init true)
             = (e, h',
                [Connect; OnTick (samples.trade 1 100 1);
                 OnTick (samples.trade 2 101 1)] ++ [Disconnect]) ∧
             _running h' = false).
Proof.
  assert (interrupted second_tick_cancelled Cancelled (mkAwait Cancelled false)
            [Connect; OnTick (samples.trade 1 100 1);
             OnTick (samples.trade 2 101 1)]) as Hint.
  { apply (in_on_tick second_tick_cancelled Cancelled
             [(samples.trade 1 100 1, returns)] (samples.trade 2 101 1)
             (mkAwait Cancelled false) [(samples.trade 3 102 1, returns)]);
      try reflexivity; repeat constructor. }
  split; [exact Hint|].
  exact (cancellation_ends_loop second_tick_cancelled [connect_fails] returns
           (FeedHandler_init true) _ _ Hint).
Defined.

End supervisor_more_facts.

(** ** FeedStats: counting and gap detection over a stream *)

Section feed_stats_facts.
Import models feed_stats.

Lemma update_fields tick rt st :
  fs_vendor (update tick rt st) = fs_vendor st ∧
  fs_symbol (update tick rt st) = fs_symbol st ∧
  ticks_received (update tick rt st) = ticks_received st + 1 ∧
  last_tick_time_ns (update tick rt st) = rt ∧
  last_sequence (update tick rt st)
    = default (last_sequence st) (sequence_num tick) ∧
  gaps_detected (update tick rt st)
    = gaps_detected st + breaks (last_sequence st) (option_list (sequence_num tick)).
Proof.
  unfold update. destruct (sequence_num tick) as [s|]; simpl.
  - destruct ((0 <? last_sequence st) && negb (s =? last_sequence st + 1));
      simpl; split_and!; try done; lia.
  - split_and!; try done; lia.
Qed.

Lemma last_cons_default (rest : list Z) : ∀ s d,
  List.last (s :: rest) d = List.last rest s.
Proof.
  induction rest as [|r rest IH]; intros s d; [done|].
  change (List.last (s :: r :: rest) d) with (List.last (r :: rest) d).
  by rewrite (IH r d), (IH r s).
Qed.

Lemma breaks_app seqs1 : ∀ last seqs2,
  breaks last (seqs1 ++ seqs2)
  = breaks last seqs1 + breaks (List.last seqs1 last) seqs2.
Proof.
  induction seqs1 as [|s rest IH]; intros last seqs2; [simpl; lia|].
  change ((s :: rest) ++ seqs2) with (s :: (rest ++ seqs2)).
  cbn [breaks]. rewrite IH.
  rewrite last_cons_default. lia.
Qed.

Lemma breaks_bounds seqs : ∀ last,
  0 ≤ breaks last seqs ≤ Z.of_nat (length seqs).
Proof.
  induction seqs as [|s rest IH]; intros last; simpl; [lia|].
  specialize (IH s). destruct ((0 <? last) && negb (s =? last + 1)); lia.
Qed.

Lemma update_all_fields ups : ∀ st,
  fs_vendor (update_all ups st) = fs_vendor st ∧
  fs_symbol (update_all ups st) = fs_symbol st ∧
  ticks_received (update_all ups st)
    = ticks_received st + Z.of_nat (length ups) ∧
  last_tick_time_ns (update_all ups st)
    = List.last (snd <$> ups) (last_tick_time_ns st) ∧
  last_sequence (update_all ups st)
    = List.last (sequence_nums ups) (last_sequence st) ∧
  gaps_detected (update_all ups st)
    = gaps_detected st + breaks (last_sequence st) (sequence_nums ups).
Proof.
  induction ups as [|[tick rt] ups IH] using rev_ind; intros st.
  - simpl. split_and!; try done; lia.
  - unfold update_all. rewrite foldl_app. simpl.
    fold (update_all ups st).
    destruct (IH st) as (Hv & Hs & Hn & Ht & Hl & Hg).
    destruct (update_fields tick rt (update_all ups st))
      as (Hv' & Hs' & Hn' & Ht' & Hl' & Hg').
    unfold sequence_nums in *. rewrite omap_app, fmap_app. simpl.
    rewrite Hv', Hs', Hn', Ht', Hl', Hg', Hv, Hs, Hn, Hg, Hl.
    rewrite length_app, breaks_app, last_last. simpl.
    destruct (sequence_num tick) as [s|]; simpl;
      rewrite ?last_last, ?app_nil_r; split_and!; try done; lia.
Qed.

Lemma breaks_zero seqs : ∀ last,
  Forall (λ s, 0 < s) seqs →
  (breaks last seqs = 0 ↔
   (0 < last → ∀ s, head seqs = Some s → s = last + 1) ∧ consecutive seqs).
Proof.
  induction seqs as [|s rest IH]; intros last Hpos.
  - simpl. split; [|done]. intros _. split; [done|]. by intros i a b Ha.
  - apply Forall_cons in Hpos as [Hs Hrest].
    cbn [breaks]. pose proof (breaks_bounds rest s) as Hb.
    specialize (IH s Hrest).
    split.
    + intros H0.
      assert (breaks s rest = 0) as Hr
        by (destruct ((0 <? last) && negb (s =? last + 1)); lia).
      apply IH in Hr as [Hhd Hc]. split.
      * intros Hl s' [= <-].
        destruct (Z.ltb_spec 0 last); [|lia].
        destruct (Z.eqb_spec s (last + 1)); [done|]. simpl in H0. lia.
      * intros [|i] a b Ha Hb'; simpl in *.
        -- injection Ha as <-. apply (Hhd Hs). by destruct rest; simplify_eq.
        -- by apply (Hc i).
    + intros [Hhd Hc].
      assert (breaks s rest = 0) as ->.
      { apply IH. split.
        - intros _ s' Hs'. apply (Hc 0%nat); [done|]. by destruct rest; simplify_eq.
        - intros i a b Ha Hb'. by apply (Hc (S i)). }
      destruct (Z.ltb_spec 0 last); [|done].
      rewrite (Hhd ltac:(done) s eq_refl), Z.eqb_refl. done.
Qed.


(** X19. Gap detection is exact on positive sequence numbers: starting
    from fresh statistics, a stream whose sequence numbers are all
    positive leaves gaps_detected at 0 exactly when each sequence number
    is its predecessor plus one.  The first number may be anything, and a
    repeated or an older number counts as a gap just as a skipped one. *)
Theorem feed_stats_gap_free_iff
    (v : Vendor) (s : string) (ups : list (Tick * Z)) :
  Forall (λ n, 0 < n) (sequence_nums ups) →
  gaps_detected (update_all ups (FeedStats_new v s)) = 0
  ↔ consecutive (sequence_nums ups).
Proof.
  intros Hpos.
  destruct (update_all_fields ups (FeedStats_new v s)) as (_ & _ & _ & _ & _ & ->).
  simpl. rewrite (breaks_zero _ 0 Hpos). split; [by intros [_ ?]|].
  intros Hc. split; [lia|done].
Qed.

(** Witness of X19: sequence numbers 5, 6, 7 around an unsequenced tick. *)
Lemma feed_stats_gap_free_iff_witness :
  Forall (λ n, 0 < n) (sequence_nums more_samples.in_order_updates) ∧
  (gaps_detected
     (update_all more_samples.in_order_updates (FeedStats_new DATABENTO "ESZ4")) = 0
   ↔ consecutive (sequence_nums more_samples.in_order_updates)).
Proof.
  assert (Forall (λ n, 0 < n) (sequence_nums more_samples.in_order_updates)) as H
    by (repeat constructor).
  split; [exact H|].
  exact (feed_stats_gap_free_iff DATABENTO "ESZ4" more_samples.in_order_updates H).
Defined.

End feed_stats_facts.

(** ** CME: wire format, tick shape, packet size and gaps *)

Section cme_more_facts.
Import models handlers handler_runs cme_more.

Lemma le_bytes_length n : ∀ v, length (le_bytes n v) = n.
Proof. induction n as [|n IH]; intros v; simpl; [done|]. by rewrite IH. Qed.

(** Decoding undoes encoding, up to the width of the field. *)
Lemma le_uint_le_bytes n : ∀ v,
  cme_handler.le_uint (le_bytes n v) = v mod 256 ^ Z.of_nat n.
Proof.
  induction n as [|n IH]; intros v.
  - simpl. by rewrite Z.mod_1_r.
  - cbn [le_bytes]. unfold cme_handler.le_uint. cbn [foldr].
    fold (cme_handler.le_uint (le_bytes n (v / 256))). rewrite IH.
    rewrite Nat2Z.inj_succ, Z.pow_succ_r by lia.
    rewrite Z.rem_mul_r by lia.
    pose proof (Z.mod_pos_bound v 256 ltac:(lia)) as Hb.
    destruct (Byte.of_N (Z.to_N (v mod 256))) as [b|] eqn:E.
    + apply Byte.to_of_N in E. simpl. rewrite E. lia.
    + apply Byte.of_N_None_iff in E. lia.
Qed.

Lemma le_uint_small n v :
  0 ≤ v < 256 ^ Z.of_nat n → cme_handler.le_uint (le_bytes n v) = v.
Proof. intros H. rewrite le_uint_le_bytes. by apply Z.mod_small. Qed.

Lemma le_int64_le_bytes v :
  - 2 ^ 63 ≤ v < 2 ^ 63 → cme_handler.le_int64 (le_bytes 8 v) = v.
Proof.
  intros H. unfold cme_handler.le_int64. rewrite le_uint_le_bytes.
  change (256 ^ Z.of_nat 8) with (2 ^ 64).
  destruct (Z.le_gt_cases 0 v).
  - rewrite Z.mod_small by lia. destruct (Z.ltb_spec v (2 ^ 63)); lia.
  - assert (v mod 2 ^ 64 = v + 2 ^ 64) as ->.
    { symmetry. apply (Z.mod_unique_pos _ _ (-1)); lia. }
    destruct (Z.ltb_spec (v + 2 ^ 64) (2 ^ 63)); lia.
Qed.

Lemma le_uint_bound bs :
  0 ≤ cme_handler.le_uint bs < 256 ^ Z.of_nat (length bs).
Proof.
  induction bs as [|b bs IH]; [simpl; lia|].
  cbn [length]. rewrite Nat2Z.inj_succ, Z.pow_succ_r by lia.
  unfold cme_handler.le_uint in *. cbn [foldr].
  assert (0 ≤ Z.of_N (Byte.to_N b) < 256) as Hb.
  { pose proof (Byte.to_N_bounded b). lia. }
  lia.
Qed.

Lemma parse_messages_S fuel h data sending_time offset ticks :
  cme_handler.parse_messages (S fuel) h data sending_time offset ticks
  = if offset + cme_handler.MSG_HEADER_SIZE <=? cme_handler.len data then
      let header :=
        cme_handler.slice data offset (offset + cme_handler.MSG_HEADER_SIZE) in
      let msg_size := cme_handler.le_uint (cme_handler.slice header 0 2) in
      let template_id := cme_handler.le_uint (cme_handler.slice header 4 6) in
      if msg_size =? 0 then ticks
      else
        let msg_data :=
          cme_handler.slice data (offset + cme_handler.MSG_HEADER_SIZE)
                            (offset + msg_size) in
        let ticks :=
          if template_id =? cme_handler.TEMPLATE_MD_INCREMENTAL_REFRESH
          then ticks ++ cme_handler._parse_incremental_refresh h msg_data sending_time
          else ticks in
        cme_handler.parse_messages fuel h data sending_time (offset + msg_size) ticks
    else ticks.
Proof. reflexivity. Qed.

(** One entry of an Incremental Refresh body, field by field. *)
Lemma refresh_body et sid price size (pad : list Byte.byte) :
  0 ≤ et < 256 → 0 ≤ sid < 2 ^ 32 → - 2 ^ 63 ≤ price < 2 ^ 63 →
  0 ≤ size < 2 ^ 32 → (3 ≤ length pad)%nat →
  let body := le_bytes 1 et ++ le_bytes 4 sid ++ le_bytes 8 price
              ++ le_bytes 4 size ++ pad in
  (cme_handler.len body <? 20) = false ∧
  cme_handler.le_uint (cme_handler.slice body 0 1) = et ∧
  cme_handler.le_uint (cme_handler.slice body 1 5) = sid ∧
  cme_handler.le_int64 (cme_handler.slice body 5 13) = price ∧
  cme_handler.le_uint (cme_handler.slice body 13 17) = size.
Proof.
  intros Het Hsid Hprice Hsize Hpad.
  pose proof (le_uint_small 1 et ltac:(simpl; lia)) as Ret.
  pose proof (le_uint_small 4 sid ltac:(simpl; lia)) as Rsid.
  pose proof (le_int64_le_bytes price Hprice) as Rprice.
  pose proof (le_uint_small 4 size ltac:(simpl; lia)) as Rsize.
  pose proof (le_bytes_length 1 et) as L1.
  pose proof (le_bytes_length 4 sid) as L2.
  pose proof (le_bytes_length 8 price) as L3.
  pose proof (le_bytes_length 4 size) as L4.
  destruct (le_bytes 1 et) as [|e0 [|]]; try discriminate L1.
  destruct (le_bytes 4 sid) as [|s0 [|s1 [|s2 [|s3 [|]]]]]; try discriminate L2.
  destruct (le_bytes 8 price)
    as [|p0 [|p1 [|p2 [|p3 [|p4 [|p5 [|p6 [|p7 [|]]]]]]]]]; try discriminate L3.
  destruct (le_bytes 4 size) as [|z0 [|z1 [|z2 [|z3 [|]]]]]; try discriminate L4.
  simpl. split_and!; try done.
  unfold cme_handler.len. simpl length.
  destruct (Z.ltb_spec (Z.of_nat (S (S (S (S (S (S (S (S (S (S (S (S (S (S (S (S
    (S (length pad))))))))))))))))))) 20); [lia|done].
Qed.

(** The packet and message headers of a one-message packet. *)
Lemma refresh_packet_parses h seq sending_time (body : list Byte.byte) :
  0 ≤ seq < 2 ^ 32 → 0 ≤ sending_time < 2 ^ 64 → length body = 20%nat →
  cme_handler.parse_packet
    (le_bytes 4 seq ++ le_bytes 8 sending_time
     ++ le_bytes 2 30 ++ le_bytes 2 20 ++ le_bytes 2 32 ++ le_bytes 2 1
     ++ le_bytes 2 9 ++ body) h
  = (cme_handler.track_sequence seq h,
     cme_handler._parse_incremental_refresh
       (cme_handler.track_sequence seq h) body sending_time).
Proof.
  intros Hseq Hst Lb.
  pose proof (le_uint_small 4 seq ltac:(simpl; lia)) as Rseq.
  pose proof (le_uint_small 8 sending_time ltac:(simpl; lia)) as Rst.
  pose proof (le_bytes_length 4 seq) as L1.
  pose proof (le_bytes_length 8 sending_time) as L2.
  destruct (le_bytes 4 seq) as [|q0 [|q1 [|q2 [|q3 [|]]]]]; try discriminate L1.
  destruct (le_bytes 8 sending_time)
    as [|t0 [|t1 [|t2 [|t3 [|t4 [|t5 [|t6 [|t7 [|]]]]]]]]]; try discriminate L2.
  do 20 (destruct body as [|? body]; [discriminate Lb|]).
  destruct body; [|discriminate Lb]. clear L1 L2 Lb.
  unfold cme_handler.parse_packet.
  match goal with |- context [cme_handler.len ?d <? _] => set (data := d) end.
  change (cme_handler.len data <? cme_handler.PACKET_HEADER_SIZE) with false.
  cbv beta iota zeta.
  change (cme_handler.slice
            (cme_handler.slice data 0 cme_handler.PACKET_HEADER_SIZE) 0 4)
    with [q0; q1; q2; q3].
  change (cme_handler.slice
            (cme_handler.slice data 0 cme_handler.PACKET_HEADER_SIZE) 4 12)
    with [t0; t1; t2; t3; t4; t5; t6; t7].
  rewrite Rseq, Rst. reflexivity.
Qed.

(** X20. A packet laid out as the format strings say decodes to the
    values that were encoded: a packet header "<IQ" (sequence number,
    sending time), one message header "<HHHHH" with msg_size 30 and
    template 32, and a body holding entry type, security id, price
    mantissa and size at offsets 0, 1, 5 and 13.  For every in-range
    choice of the fields the packet yields exactly one tick for entry
    types '0', '1', '2' (a bid quote, an offer quote, a trade), stamped
    with the sending time, and no tick for any other entry type; the
    sequence state advances to seq + 1. *)
Theorem refresh_packet_decodes
    (h : cme_handler.CMEHandler) (seq sending_time et sid price size : Z) :
  0 ≤ seq < 2 ^ 32 → 0 ≤ sending_time < 2 ^ 64 → 0 ≤ et < 256 →
  0 ≤ sid < 2 ^ 32 → - 2 ^ 63 ≤ price < 2 ^ 63 → 0 ≤ size < 2 ^ 32 →
  let result :=
    cme_handler.parse_packet
      (refresh_packet seq sending_time et sid price size) h in
  result.1 = cme_handler.track_sequence seq h ∧
  cme_handler._expected_seq result.1 = seq + 1 ∧
  (et = 48 →
   result.2 =
     [ {| timestamp_ns := sending_time; symbol := symbol_of h sid;
          tick_type := QUOTE;
          bid_price := Some price; ask_price := None; trade_price := None;
          bid_size := Some size; ask_size := None; trade_size := None;
          exchange := None; vendor := Some CME; sequence_num := None;
          price_precision := 7 |} ]) ∧
  (et = 49 →
   result.2 =
     [ {| timestamp_ns := sending_time; symbol := symbol_of h sid;
          tick_type := QUOTE;
          bid_price := None; ask_price := Some price; trade_price := None;
          bid_size := None; ask_size := Some size; trade_size := None;
          exchange := None; vendor := Some CME; sequence_num := None;
          price_precision := 7 |} ]) ∧
  (et = 50 →
   result.2 =
     [ {| timestamp_ns := sending_time; symbol := symbol_of h sid;
          tick_type := TRADE;
          bid_price := None; ask_price := None; trade_price := Some price;
          bid_size := None; ask_size := None; trade_size := Some size;
          exchange := None; vendor := Some CME; sequence_num := None;
          price_precision := 7 |} ]) ∧
  (et ≠ 48 → et ≠ 49 → et ≠ 50 → result.2 = []).
Proof.
  intros Hseq Hst Het Hsid Hprice Hsize.
  destruct (refresh_body et sid price size (le_bytes 3 0) Het Hsid Hprice Hsize
              ltac:(simpl; lia)) as (Hlen & Ret & Rsid & Rprice & Rsize).
  unfold refresh_packet.
  set (body := le_bytes 1 et ++ _) in *.
  assert (length body = 20%nat) as Lb
    by (unfold body; rewrite !length_app, !le_bytes_length; done).
  cbv zeta. rewrite (refresh_packet_parses h seq sending_time body Hseq Hst Lb).
  cbn [fst snd]. split; [done|]. split; [done|].
  unfold cme_handler._parse_incremental_refresh.
  rewrite Hlen, Ret, Rsid, Rprice, Rsize.
  unfold cme_handler.ENTRY_TYPE_BID, cme_handler.ENTRY_TYPE_OFFER,
    cme_handler.ENTRY_TYPE_TRADE.
  split_and!.
  - intros ->. reflexivity.
  - intros ->. reflexivity.
  - intros ->. reflexivity.
  - intros H1 H2 H3.
    destruct (Z.eqb_spec et 48); [done|].
    destruct (Z.eqb_spec et 49); [done|].
    destruct (Z.eqb_spec et 50); [done|]. done.
Qed.

Lemma slice_length {A} (data : list A) a b :
  length (cme_handler.slice data a b)
  = (Z.to_nat (b - a) `min` (length data - Z.to_nat a))%nat.
Proof. unfold cme_handler.slice. by rewrite length_take, length_drop. Qed.

Lemma le_uint_width bs (n : nat) :
  (length bs ≤ n)%nat → 0 ≤ cme_handler.le_uint bs < 256 ^ Z.of_nat n.
Proof.
  intros Hn. pose proof (le_uint_bound bs) as Hb.
  assert (256 ^ Z.of_nat (length bs) ≤ 256 ^ Z.of_nat n)
    by (apply Z.pow_le_mono_r; lia).
  lia.
Qed.

Lemma le_int64_range bs :
  (length bs ≤ 8)%nat → - 2 ^ 63 ≤ cme_handler.le_int64 bs < 2 ^ 63.
Proof.
  intros Hn. pose proof (le_uint_width bs 8 Hn) as Hb.
  change (256 ^ Z.of_nat 8) with (2 ^ 64) in Hb.
  unfold cme_handler.le_int64.
  destruct (Z.ltb_spec (cme_handler.le_uint bs) (2 ^ 63)); lia.
Qed.

Lemma refresh_shape h data timestamp :
  Forall (cme_tick_shape timestamp)
         (cme_handler._parse_incremental_refresh h data timestamp) ∧
  (length (cme_handler._parse_incremental_refresh h data timestamp) ≤ 1)%nat ∧
  (cme_handler._parse_incremental_refresh h data timestamp ≠ [] →
   20 ≤ cme_handler.len data).
Proof.
  unfold cme_handler._parse_incremental_refresh.
  destruct (Z.ltb_spec (cme_handler.len data) 20) as [Hlt|Hge].
  { split_and!; [constructor|simpl; lia|done]. }
  set (price := cme_handler.le_int64 _).
  set (size := cme_handler.le_uint (cme_handler.slice data 13 17)).
  assert (- 2 ^ 63 ≤ price < 2 ^ 63) as Hp.
  { apply le_int64_range. rewrite slice_length.
    change (Z.to_nat (13 - 5)) with 8%nat. lia. }
  assert (0 ≤ size < 2 ^ 32) as Hs.
  { change (2 ^ 32) with (256 ^ Z.of_nat 4). apply le_uint_width.
    rewrite slice_length. change (Z.to_nat (17 - 13)) with 4%nat. lia. }
  repeat case_match; (split_and!; [|simpl; lia|done]);
    repeat constructor; simpl; exists price, size; split_and!; try lia; tauto.
Qed.

Lemma parse_messages_forall (P : Tick → Prop) fuel :
  ∀ h data sending_time offset ticks,
  (∀ d, Forall P (cme_handler._parse_incremental_refresh h d sending_time)) →
  Forall P ticks →
  Forall P (cme_handler.parse_messages fuel h data sending_time offset ticks).
Proof.
  induction fuel as [|fuel IH]; intros h data st offset ticks HP Hticks; [done|].
  rewrite parse_messages_S. cbv zeta.
  destruct (_ <=? _); [|done]. destruct (_ =? 0); [done|].
  apply IH; [done|]. destruct (_ =? _); [|done]. apply Forall_app. split; [done|apply HP].
Qed.

Lemma shape_invariant timestamp t :
  cme_tick_shape timestamp t → tick_invariant t ∧ tick_type t ≠ BBO.
Proof.
  intros (_ & _ & _ & _ & _ & price & size & _ & _ & Hcases).
  unfold tick_invariant, has_price, bbo_complete.
  destruct Hcases as [(Ht & [= Hb Ha Htr] & _)|[(Ht & [= Hb Ha Htr] & _)|(Ht & [= Hb Ha Htr] & _)]];
    rewrite Ht, ?Hb, ?Ha, ?Htr; split_and!; try done; eauto.
Qed.

(** X21. Whatever bytes a packet holds, every tick parse_packet returns
    is stamped with the packet's sending time, carries vendor CME,
    precision 7, no sequence number and no exchange, and has exactly one
    side: a QUOTE with only a bid price and size, a QUOTE with only an
    ask price and size, or a TRADE with only a trade price and size;
    the price lies in the signed 64-bit range and the size in the
    unsigned 32-bit range.  Hence every CME tick satisfies the tick
    invariant and none is a BBO tick. *)
Theorem cme_ticks_well_formed
    (data : list Byte.byte) (h : cme_handler.CMEHandler) :
  Forall (λ t, cme_tick_shape (packet_time data) t ∧
               tick_invariant t ∧ tick_type t ≠ BBO)
         (cme_handler.parse_packet data h).2.
Proof.
  unfold cme_handler.parse_packet.
  destruct (_ <? _); [constructor|]. cbv zeta. cbn [snd].
  fold (packet_time data).
  apply parse_messages_forall; [|constructor].
  intros d. eapply Forall_impl; [apply refresh_shape|].
  intros t Ht. split; [done|]. by eapply shape_invariant.
Qed.

Lemma parse_messages_count fuel : ∀ h data sending_time offset ticks,
  0 ≤ offset →
  30 * Z.of_nat (length (cme_handler.parse_messages fuel h data sending_time
                           offset ticks))
  ≤ 30 * Z.of_nat (length ticks) + Z.max 0 (cme_handler.len data - offset).
Proof.
  induction fuel as [|fuel IH]; intros h data st offset ticks Hoff; [simpl; lia|].
  rewrite parse_messages_S. cbv zeta.
  unfold cme_handler.MSG_HEADER_SIZE.
  destruct (Z.leb_spec (offset + 10) (cme_handler.len data)); [|lia].
  set (ms := cme_handler.le_uint _).
  pose proof (le_uint_nonneg
    (cme_handler.slice (cme_handler.slice data offset (offset + 10)) 0 2)) as Hms.
  fold ms in Hms.
  destruct (Z.eqb_spec ms 0); [lia|].
  match goal with |- context [cme_handler.parse_messages fuel h data st ?o ?t] =>
    specialize (IH h data st o t ltac:(lia)); set (ticks' := t) in * end.
  assert (30 * Z.of_nat (length ticks') + Z.max 0 (cme_handler.len data - (offset + ms))
          ≤ 30 * Z.of_nat (length ticks) + Z.max 0 (cme_handler.len data - offset));
    [|lia].
  unfold ticks'. destruct (_ =? cme_handler.TEMPLATE_MD_INCREMENTAL_REFRESH); [|lia].
  rewrite length_app.
  destruct (refresh_shape h (cme_handler.slice data (offset + 10) (offset + ms)) st)
    as (_ & Hone & Hlen).
  destruct (cme_handler._parse_incremental_refresh h _ st) as [|t l] eqn:E;
    [simpl; lia|].
  specialize (Hlen ltac:(done)). unfold cme_handler.len in Hlen.
  rewrite slice_length in Hlen. unfold cme_handler.len in *.
  simpl in Hone. simpl length. lia.
Qed.

(** X22. The message loop of parse_packet always ends, within
    len(data) turns, and a packet of n bytes yields at most (n - 12) / 30
    ticks: each tick costs a message of at least 30 bytes (10 of header,
    20 of body), and a message yields at most one tick. *)
Theorem packet_tick_bound (data : list Byte.byte) (h : cme_handler.CMEHandler) :
  Z.of_nat (length (cme_handler.parse_packet data h).2)
    ≤ Z.max 0 (cme_handler.len data - cme_handler.PACKET_HEADER_SIZE) / 30 ∧
  ∀ fuel, (length data ≤ fuel)%nat →
    cme_handler.PACKET_HEADER_SIZE ≤ cme_handler.len data →
    cme_handler.parse_messages fuel (cme_handler.parse_packet data h).1 data
      (packet_time data) cme_handler.PACKET_HEADER_SIZE []
    = (cme_handler.parse_packet data h).2.
Proof.
  split.
  - apply Z.div_le_lower_bound; [lia|].
    unfold cme_handler.parse_packet.
    destruct (_ <? _); [simpl; lia|]. cbv zeta. cbn [snd].
    etrans; [apply parse_messages_count; done|]. simpl. lia.
  - intros fuel Hfuel Hlen. rewrite (parse_packet_fuel fuel) by done.
    by rewrite parse_packet_state.
Qed.

(** *** Gaps over a run of packets *)

Lemma run_packets_track packets : ∀ h,
  run_packets packets h = track_all (header_seqs packets) h.
Proof.
  unfold run_packets, track_all, header_seqs.
  induction packets as [|p packets IH]; intros h; [done|].
  cbn [foldl]. rewrite filter_cons.
  destruct (decide (cme_handler.PACKET_HEADER_SIZE ≤ cme_handler.len p)) as [Hl|Hs].
  - rewrite parse_packet_state by done. cbn [fmap list_fmap foldl]. apply IH.
  - unfold cme_handler.parse_packet at 2.
    destruct (Z.ltb_spec (cme_handler.len p) cme_handler.PACKET_HEADER_SIZE); [|lia].
    apply IH.
Qed.

Lemma header_seqs_nonneg packets : Forall (λ s, 0 ≤ s) (header_seqs packets).
Proof.
  unfold header_seqs. apply Forall_fmap, Forall_true. intros p. apply le_uint_nonneg.
Qed.

Lemma track_all_snoc seqs s h :
  track_all (seqs ++ [s]) h = cme_handler.track_sequence s (track_all seqs h).
Proof. unfold track_all. by rewrite foldl_app. Qed.

Lemma covered_snoc n gaps g :
  covered n (gaps ++ [g]) ↔ covered n gaps ∨ g.1 ≤ n ≤ g.2.
Proof.
  unfold covered. split.
  - intros (g' & [Hin|Hin%list_elem_of_singleton]%elem_of_app & Hr); [left; eauto|].
    subst g'. by right.
  - intros [(g' & Hin & Hr)|Hr].
    + exists g'. split; [apply elem_of_app; by left|done].
    + exists g. split; [apply elem_of_app; right; by left|done].
Qed.

Lemma track_sequence_gaps s h :
  0 ≤ cme_handler._expected_seq h →
  let h' := cme_handler.track_sequence s h in
  cme_handler._expected_seq h' = s + 1 ∧
  (cme_handler._gaps h' = cme_handler._gaps h ∧
   (cme_handler._expected_seq h = 0 ∨ s ≤ cme_handler._expected_seq h) ∨
   cme_handler._gaps h' = cme_handler._gaps h ++ [(cme_handler._expected_seq h, s - 1)] ∧
   0 < cme_handler._expected_seq h < s).
Proof.
  intros He. unfold cme_handler.track_sequence. simpl. split; [done|].
  destruct (Z.ltb_spec 0 (cme_handler._expected_seq h)); simpl; [|left; split; [done|lia]].
  destruct (Z.eqb_spec s (cme_handler._expected_seq h)); simpl; [left; split; [done|lia]|].
  destruct (Z.ltb_spec (cme_handler._expected_seq h) s); [right|left]; split; try done; lia.
Qed.

Lemma track_all_sorted seqs :
  StronglySorted Z.lt seqs → Forall (λ s, 0 ≤ s) seqs →
  let h' := track_all seqs cme_handler.CMEHandler_init in
  cme_handler._expected_seq h' = from_option (λ l, l + 1) 0 (last seqs) ∧
  ∀ n, covered n (cme_handler._gaps h') ↔
       (∃ f l, head seqs = Some f ∧ last seqs = Some l ∧ f < n < l) ∧ n ∉ seqs.
Proof.
  induction seqs as [|s seqs IH] using rev_ind; intros Hsorted Hpos.
  - simpl. split; [done|]. intros n. split.
    + intros (g & Hin & _). by apply elem_of_nil in Hin.
    + by intros [(f & l & Hf & _) _].
  - apply StronglySorted_app in Hsorted as (Hlt & Hs1 & _).
    apply Forall_app in Hpos as [Hpos Hs0]. rewrite Forall_singleton in Hs0.
    destruct (IH Hs1 Hpos) as [Hexp Hcov]. clear IH.
    cbv zeta. rewrite track_all_snoc, last_snoc.
    set (h := track_all seqs cme_handler.CMEHandler_init) in *.
    assert (0 ≤ cme_handler._expected_seq h) as He.
    { rewrite Hexp. destruct (last seqs) as [l|] eqn:El; simpl; [|done].
      apply last_Some_elem_of in El.
      pose proof (proj1 (Forall_forall _ _) Hpos l El). simpl in *. lia. }
    destruct (track_sequence_gaps s h He) as [He' Hg]. split; [done|].
    intros n.
    assert (n ∉ seqs ++ [s] ↔ (n ∉ seqs) ∧ n ≠ s) as ->.
    { rewrite elem_of_app, list_elem_of_singleton. tauto. }
    destruct seqs as [|f rest] eqn:Eseqs.
    { destruct Hg as [[Hg _]|[_ Hr]]; [rewrite Hg|rewrite Hexp in Hr; simpl in Hr; lia].
      split.
      - intros Hc. apply Hcov in Hc as [(? & ? & ? & _) _]. done.
      - intros [(f & l & [= <-] & [= <-] & ?) _]. lia. }
    rewrite <- Eseqs in *.
    assert (head (seqs ++ [s]) = Some f) as -> by (by rewrite Eseqs).
    assert (head seqs = Some f) as Hhd by (by rewrite Eseqs).
    destruct (last seqs) as [l|] eqn:El;
      [|apply last_None in El; congruence].
    simpl in Hexp.
    assert (∀ x, x ∈ seqs → f ≤ x ≤ l) as Hrange.
    { intros x Hx. rewrite Eseqs in Hs1, Hx, El.
      apply StronglySorted_inv in Hs1 as [Hs1 Hall].
      apply elem_of_cons in Hx as [->|Hx].
      - split; [lia|]. apply last_Some_elem_of in El.
        apply elem_of_cons in El as [->|El]; [lia|].
        pose proof (proj1 (Forall_forall _ _) Hall l El). lia.
      - split; [pose proof (proj1 (Forall_forall _ _) Hall x Hx); lia|].
        clear -Hs1 Hx El. rewrite last_cons in El.
        destruct (last rest) as [l'|] eqn:El';
          [|apply last_None in El'; subst rest; by apply elem_of_nil in Hx].
        injection El as ->.
        apply list_elem_of_split in Hx as (l1 & l2 & ->).
        destruct l2 as [|y l2 _] using rev_ind.
        + rewrite last_snoc in El'. injection El' as ->. lia.
        + rewrite app_comm_cons, app_assoc, last_snoc in El'. injection El' as ->.
          assert (x < l); [|lia].
          apply (StronglySorted_app_1_elem_of Z.lt (l1 ++ [x]) (l2 ++ [l]) x l).
          * by rewrite <- app_assoc.
          * apply elem_of_app. right. by left.
          * apply elem_of_app. right. by left. }
    assert (l < s) as Hls.
    { apply (Hlt l s); [by apply last_Some_elem_of|by left]. }
    assert (l ∈ seqs) as Hlin by (by apply last_Some_elem_of).
    assert (0 ≤ l) as Hl0 by apply (proj1 (Forall_forall _ _) Hpos l Hlin).
    destruct Hg as [[-> Hno]|[-> Hyes]].
    + rewrite Hcov. split.
      * intros [(f' & l' & Hf' & Hl' & Hr) Hnin]. simplify_eq.
        split; [eexists _, _; split; [done|split; [done|lia]]|]. split; [done|lia].
      * intros [(f' & l' & Hf' & Hl' & Hr) [Hnin Hns]]. simplify_eq.
        split; [|done]. eexists _, _. split; [done|split; [done|]].
        assert (n ≠ l) by (by intros ->). lia.
    + rewrite covered_snoc, Hcov. simpl. split.
      * intros [[(f' & l' & Hf' & Hl' & Hr) Hnin]|Hr]; simplify_eq.
        -- split; [eexists _, _; split; [done|split; [done|lia]]|]. split; [done|lia].
        -- pose proof (Hrange f (head_Some_elem_of _ _ Hhd)).
           split; [eexists _, _; split; [done|split; [done|lia]]|].
           split; [|lia]. intros Hin%Hrange. lia.
      * intros [(f' & l' & Hf' & Hl' & Hr) [Hnin Hns]]. simplify_eq.
        assert (n ≠ l) by (by intros ->).
        destruct (Z.lt_ge_cases n l); [left|right; lia].
        split; [|done]. eexists _, _. split; [done|split; [done|lia]].
Qed.

(** X23. Gap detection is exact on an ordered feed: when the packets of
    a fresh handler arrive with strictly increasing sequence numbers, a
    sequence number lies in a recorded gap exactly when it lies strictly
    between the first and the last number seen and was carried by no
    packet.  Packets too short to hold a header are ignored. *)
Theorem cme_gaps_exact (packets : list (list Byte.byte)) :
  StronglySorted Z.lt (header_seqs packets) →
  let h' := run_packets packets cme_handler.CMEHandler_init in
  cme_handler._expected_seq h'
    = from_option (λ l, l + 1) 0 (last (header_seqs packets)) ∧
  ∀ n, covered n (cme_handler._gaps h') ↔
       (∃ f l, head (header_seqs packets) = Some f ∧
               last (header_seqs packets) = Some l ∧ f < n < l) ∧
       n ∉ header_seqs packets.
Proof.
  intros Hsorted. cbv zeta. rewrite run_packets_track.
  apply track_all_sorted; [done|apply header_seqs_nonneg].
Qed.

Lemma track_all_gaps seqs : ∀ h,
  0 ≤ cme_handler._expected_seq h → Forall (λ s, 0 ≤ s) seqs →
  let h' := track_all seqs h in
  0 ≤ cme_handler._expected_seq h' ∧
  ∃ new, cme_handler._gaps h' = cme_handler._gaps h ++ new ∧
         (length new ≤ length seqs)%nat ∧
         Forall (λ g, 1 ≤ g.1 ≤ g.2 ∧ g.2 + 1 ∈ seqs) new.
Proof.
  induction seqs as [|s seqs IH] using rev_ind; intros h He Hpos.
  - simpl. split; [done|]. exists []. by rewrite app_nil_r.
  - apply Forall_app in Hpos as [Hpos Hs0]. rewrite Forall_singleton in Hs0.
    destruct (IH h He Hpos) as (He1 & new & Hg & Hlen & Hall). clear IH.
    cbv zeta. rewrite track_all_snoc.
    destruct (track_sequence_gaps s (track_all seqs h) He1) as [He' Hg'].
    split; [lia|]. rewrite length_app. cbn [length].
    assert (Forall (λ g : Z * Z, 1 ≤ g.1 ≤ g.2 ∧ g.2 + 1 ∈ seqs ++ [s]) new) as Hall'.
    { eapply Forall_impl; [done|]. intros g [? ?]. split; [done|].
      apply elem_of_app. by left. }
    destruct Hg' as [[Hg' _]|[Hg' Hr]].
    + exists new. rewrite Hg'. split_and!; [done|lia|done].
    + exists (new ++ [(cme_handler._expected_seq (track_all seqs h), s - 1)]).
      rewrite Hg', Hg, <- app_assoc, length_app. cbn [length].
      split_and!; [done|lia|].
      apply Forall_app. split; [done|]. constructor; [|done]. simpl.
      split; [lia|]. apply elem_of_app. right.
      replace (s - 1 + 1) with s by lia. by left.
Qed.

(** X24. In whatever order packets arrive, the gap list of a fresh
    handler only grows by appending; every recorded gap (a, b) has
    1 <= a <= b and ends just before the sequence number of some packet
    that arrived, and there are never more gaps than packets. *)
Theorem cme_gaps_well_formed (packets : list (list Byte.byte)) :
  let h' := run_packets packets cme_handler.CMEHandler_init in
  0 ≤ cme_handler._expected_seq h' ∧
  (length (cme_handler._gaps h') ≤ length packets)%nat ∧
  Forall (λ g, 1 ≤ g.1 ≤ g.2 ∧ g.2 + 1 ∈ header_seqs packets)
         (cme_handler._gaps h') ∧
  ∀ more, cme_handler._gaps h'
            `prefix_of` cme_handler._gaps (run_packets more h').
Proof.
  cbv zeta. rewrite run_packets_track.
  destruct (track_all_gaps (header_seqs packets) cme_handler.CMEHandler_init
              ltac:(done) (header_seqs_nonneg packets))
    as (He & new & Hg & Hlen & Hall).
  simpl in Hg. subst new. split_and!; try done.
  - etrans; [done|]. unfold header_seqs. rewrite length_fmap. apply length_filter.
  - intros more. rewrite run_packets_track.
    destruct (track_all_gaps (header_seqs more)
                (track_all (header_seqs packets) cme_handler.CMEHandler_init)
                He (header_seqs_nonneg more)) as (_ & new & -> & _).
    by apply prefix_app_r.
Qed.

(** Witness of X20: the bid packet numbered 100. *)
Lemma refresh_packet_decodes_witness :
  (0 ≤ 100 < 2 ^ 32 ∧ 0 ≤ 1000 < 2 ^ 64 ∧ 0 ≤ 48 < 256 ∧ 0 ≤ 7 < 2 ^ 32 ∧
   - 2 ^ 63 ≤ 45322500000 < 2 ^ 63 ∧ 0 ≤ 10 < 2 ^ 32) ∧
  (cme_handler.parse_packet packet_100 cme_handler.CMEHandler_init).1
    = cme_handler.track_sequence 100 cme_handler.CMEHandler_init ∧
  (cme_handler.parse_packet packet_100 cme_handler.CMEHandler_init).2
    = [ {| timestamp_ns := 1000; symbol := symbol_of cme_handler.CMEHandler_init 7;
           tick_type := QUOTE;
           bid_price := Some 45322500000; ask_price := None; trade_price := None;
           bid_size := Some 10; ask_size := None; trade_size := None;
           exchange := None; vendor := Some CME; sequence_num := None;
           price_precision := 7 |} ].
Proof.
  assert (0 ≤ 100 < 2 ^ 32) as H1 by lia.
  assert (0 ≤ 1000 < 2 ^ 64) as H2 by lia.
  assert (0 ≤ 48 < 256) as H3 by lia.
  assert (0 ≤ 7 < 2 ^ 32) as H4 by lia.
  assert (- 2 ^ 63 ≤ 45322500000 < 2 ^ 63) as H5 by lia.
  assert (0 ≤ 10 < 2 ^ 32) as H6 by lia.
  split; [done|].
  destruct (refresh_packet_decodes cme_handler.CMEHandler_init
              100 1000 48 7 45322500000 10 H1 H2 H3 H4 H5 H6)
    as (Hstate & _ & Hbid & _).
  split; [exact Hstate|exact (Hbid eq_refl)].
Defined.

(** Witness of X23: packets 100, 101 and 105 leave the gap (102, 104). *)
Lemma cme_gaps_exact_witness :
  StronglySorted Z.lt (header_seqs more_samples.three_packets) ∧
  cme_handler._expected_seq
    (run_packets more_samples.three_packets cme_handler.CMEHandler_init)
    = from_option (λ l, l + 1) 0 (last (header_seqs more_samples.three_packets)) ∧
  ∀ n, covered n (cme_handler._gaps
                    (run_packets more_samples.three_packets
                                 cme_handler.CMEHandler_init)) ↔
       (∃ f l, head (header_seqs more_samples.three_packets) = Some f ∧
               last (header_seqs more_samples.three_packets) = Some l ∧
               f < n < l) ∧
       n ∉ header_seqs more_samples.three_packets.
Proof.
  assert (StronglySorted Z.lt (header_seqs more_samples.three_packets)) as H.
  { assert (header_seqs more_samples.three_packets = [100; 101; 105]) as ->
      by (vm_compute; reflexivity).
    repeat constructor; lia. }
  split; [exact H|].
  exact (cme_gaps_exact more_samples.three_packets H).
Defined.

End cme_more_facts.

(** ** Databento binary records *)

Section databento_binary_facts.
Import models handlers handler_runs databento_binary.

Lemma slice_app_prefix {A} (data extra : list A) (a b : Z) :
  0 ≤ a → b ≤ cme_handler.len data →
  cme_handler.slice (data ++ extra) a b = cme_handler.slice data a b.
Proof.
  intros Ha Hb. unfold cme_handler.slice, cme_handler.len in *.
  destruct (Z.le_gt_cases b a).
  - replace (Z.to_nat (b - a)) with 0%nat by lia. done.
  - rewrite drop_app_le by lia. rewrite take_app_le; [done|].
    rewrite length_drop. lia.
Qed.

(** X25. _parse_binary_record returns None exactly when fewer than 34
    bytes are given.  Otherwise it returns a BBO tick with both a bid and
    an ask price, so the tick invariant holds; the prices lie in the
    signed 64-bit range, the sizes in the unsigned 32-bit range, a trade
    price of 0 is reported as absent, and the tick carries an empty
    symbol, precision 9, vendor DATABENTO and the header's timestamp.
    The result depends neither on the record type, nor on the receive
    time, nor on bytes after the first 34. *)
Theorem binary_record_ticks
    (rtype timestamp : Z) (data : list Byte.byte) (receive_time : Z) :
  (_parse_binary_record rtype timestamp data receive_time = None
   ↔ cme_handler.len data < 34) ∧
  (∀ t, _parse_binary_record rtype timestamp data receive_time = Some t →
     tick_type t = BBO ∧ tick_invariant t ∧
     (∃ bid ask, bid_price t = Some bid ∧ ask_price t = Some ask ∧
                 - 2 ^ 63 ≤ bid < 2 ^ 63 ∧ - 2 ^ 63 ≤ ask < 2 ^ 63) ∧
     (∀ p, trade_price t = Some p → p ≠ 0 ∧ - 2 ^ 63 ≤ p < 2 ^ 63) ∧
     (∃ bsz asz, bid_size t = Some bsz ∧ ask_size t = Some asz ∧
                 0 ≤ bsz < 2 ^ 32 ∧ 0 ≤ asz < 2 ^ 32) ∧
     trade_size t = None ∧ symbol t = ""%string ∧ timestamp_ns t = timestamp ∧
     vendor t = Some DATABENTO ∧ price_precision t = 9 ∧
     sequence_num t = None) ∧
  (∀ rtype' receive_time' extra,
     34 ≤ cme_handler.len data →
     _parse_binary_record rtype' timestamp (data ++ extra) receive_time'
     = _parse_binary_record rtype timestamp data receive_time).
Proof.
  unfold _parse_binary_record, MBP1_SIZE. split_and!.
  - destruct (Z.ltb_spec (cme_handler.len data) 34); split; try done; lia.
  - intros t. destruct (Z.ltb_spec (cme_handler.len data) 34); [done|].
    cbv zeta. intros [= <-]. cbn -[Z.pow cme_handler.slice].
    assert (∀ a b, (Z.to_nat (b - a) ≤ 8)%nat →
              - 2 ^ 63 ≤ cme_handler.le_int64
                  (cme_handler.slice (cme_handler.slice data 0 34) a b) < 2 ^ 63)
      as Hpx.
    { intros a b Hab. apply le_int64_range. rewrite slice_length. lia. }
    assert (∀ a b, (Z.to_nat (b - a) ≤ 4)%nat →
              0 ≤ cme_handler.le_uint
                  (cme_handler.slice (cme_handler.slice data 0 34) a b) < 2 ^ 32)
      as Hsz.
    { intros a b Hab. change (2 ^ 32) with (256 ^ Z.of_nat 4).
      apply le_uint_width. rewrite slice_length. lia. }
    split_and!; try done.
    + split; [left; eauto|]. intros _. eauto.
    + eexists _, _. split_and!; try done; apply Hpx; vm_compute; lia.
    + intros p. destruct (_ =? 0) eqn:E; simpl; [done|]. intros [= <-].
      apply Z.eqb_neq in E. split; [done|]. apply Hpx. vm_compute; lia.
    + eexists _, _. split_and!; try done; apply Hsz; vm_compute; lia.
  - intros rtype' receive_time' extra Hlen.
    assert ((cme_handler.len (data ++ extra) <? 34) = false) as ->.
    { unfold cme_handler.len in *. rewrite length_app.
      destruct (Z.ltb_spec (Z.of_nat (length data + length extra)) 34); lia. }
    destruct (Z.ltb_spec (cme_handler.len data) 34); [lia|].
    cbv zeta. by rewrite slice_app_prefix by lia.
Qed.

(** X26. A record packed as "<qqqIIBB" is decoded to the values that were
    packed, whatever the flags and padding bytes: bid and ask price and
    size come back unchanged, and the trade price comes back unless it
    is 0, which is decoded as no trade price. *)
Theorem binary_record_round_trip
    (rtype timestamp receive_time : Z)
    (bid_px ask_px trade_px bid_sz ask_sz flags pad : Z) :
  - 2 ^ 63 ≤ bid_px < 2 ^ 63 → - 2 ^ 63 ≤ ask_px < 2 ^ 63 →
  - 2 ^ 63 ≤ trade_px < 2 ^ 63 →
  0 ≤ bid_sz < 2 ^ 32 → 0 ≤ ask_sz < 2 ^ 32 →
  _parse_binary_record rtype timestamp
    (mbp1_record bid_px ask_px trade_px bid_sz ask_sz flags pad) receive_time
  = Some {| timestamp_ns := timestamp; symbol := ""; tick_type := BBO;
            bid_price := Some bid_px; ask_price := Some ask_px;
            trade_price := if decide (trade_px = 0) then None else Some trade_px;
            bid_size := Some bid_sz; ask_size := Some ask_sz;
            trade_size := None; exchange := None; vendor := Some DATABENTO;
            sequence_num := None; price_precision := 9 |}.
Proof.
  intros Hb Ha Ht Hbs Has.
  pose proof (le_int64_le_bytes bid_px Hb) as Rb.
  pose proof (le_int64_le_bytes ask_px Ha) as Ra.
  pose proof (le_int64_le_bytes trade_px Ht) as Rt.
  pose proof (le_uint_small 4 bid_sz ltac:(simpl; lia)) as Rbs.
  pose proof (le_uint_small 4 ask_sz ltac:(simpl; lia)) as Ras.
  pose proof (le_bytes_length 8 bid_px) as L1.
  pose proof (le_bytes_length 8 ask_px) as L2.
  pose proof (le_bytes_length 8 trade_px) as L3.
  pose proof (le_bytes_length 4 bid_sz) as L4.
  pose proof (le_bytes_length 4 ask_sz) as L5.
  unfold mbp1_record.
  destruct (le_bytes 8 bid_px)
    as [|b0 [|b1 [|b2 [|b3 [|b4 [|b5 [|b6 [|b7 [|]]]]]]]]]; try discriminate L1.
  destruct (le_bytes 8 ask_px)
    as [|a0 [|a1 [|a2 [|a3 [|a4 [|a5 [|a6 [|a7 [|]]]]]]]]]; try discriminate L2.
  destruct (le_bytes 8 trade_px)
    as [|t0 [|t1 [|t2 [|t3 [|t4 [|t5 [|t6 [|t7 [|]]]]]]]]]; try discriminate L3.
  destruct (le_bytes 4 bid_sz) as [|x0 [|x1 [|x2 [|x3 [|]]]]]; try discriminate L4.
  destruct (le_bytes 4 ask_sz) as [|y0 [|y1 [|y2 [|y3 [|]]]]]; try discriminate L5.
  unfold _parse_binary_record.
  match goal with |- context [cme_handler.len ?d <? _] => set (data := d) end.
  change (cme_handler.len data <? MBP1_SIZE) with false.
  cbv beta iota zeta.
  change (cme_handler.slice (cme_handler.slice data 0 MBP1_SIZE) 0 8)
    with [b0; b1; b2; b3; b4; b5; b6; b7].
  change (cme_handler.slice (cme_handler.slice data 0 MBP1_SIZE) 8 16)
    with [a0; a1; a2; a3; a4; a5; a6; a7].
  change (cme_handler.slice (cme_handler.slice data 0 MBP1_SIZE) 16 24)
    with [t0; t1; t2; t3; t4; t5; t6; t7].
  change (cme_handler.slice (cme_handler.slice data 0 MBP1_SIZE) 24 28)
    with [x0; x1; x2; x3].
  change (cme_handler.slice (cme_handler.slice data 0 MBP1_SIZE) 28 32)
    with [y0; y1; y2; y3].
  rewrite Rb, Ra, Rt, Rbs, Ras.
  destruct (Z.eqb_spec trade_px 0); destruct (decide (trade_px = 0)); done.
Qed.

(** Witness of X26: a quote 4532.25 / 4532.50 with no trade. *)
Lemma binary_record_round_trip_witness :
  (- 2 ^ 63 ≤ 4532250000000 < 2 ^ 63 ∧ - 2 ^ 63 ≤ 4532500000000 < 2 ^ 63 ∧
   - 2 ^ 63 ≤ 0 < 2 ^ 63 ∧ 0 ≤ 150 < 2 ^ 32 ∧ 0 ≤ 200 < 2 ^ 32) ∧
  _parse_binary_record 1 1700000000000000000
    (mbp1_record 4532250000000 4532500000000 0 150 200 0 0) 1700000000000001000
  = Some {| timestamp_ns := 1700000000000000000; symbol := ""; tick_type := BBO;
            bid_price := Some 4532250000000; ask_price := Some 4532500000000;
            trade_price := None;
            bid_size := Some 150; ask_size := Some 200;
            trade_size := None; exchange := None; vendor := Some DATABENTO;
            sequence_num := None; price_precision := 9 |}.
Proof.
  assert (- 2 ^ 63 ≤ 4532250000000 < 2 ^ 63) as H1 by lia.
  assert (- 2 ^ 63 ≤ 4532500000000 < 2 ^ 63) as H2 by lia.
  assert (- 2 ^ 63 ≤ 0 < 2 ^ 63) as H3 by lia.
  assert (0 ≤ 150 < 2 ^ 32) as H4 by lia.
  assert (0 ≤ 200 < 2 ^ 32) as H5 by lia.
  split; [done|].
  exact (binary_record_round_trip 1 1700000000000000000 1700000000000001000
           4532250000000 4532500000000 0 150 200 0 0 H1 H2 H3 H4 H5).
Defined.

End databento_binary_facts.

(** ** Subscribing and unsubscribing *)

Section subscription_facts.
Import models handlers handler_runs.









End subscription_facts.

(** ** The manager's tick routing *)

Section feed_manager_facts.
Import models tick_buffer tick_buffer_runs tick_buffer_more aggregator_more.
Import feed_manager.

Lemma buffer_route_cons tick now stream buffer :
  buffer_route ((tick, now) :: stream) buffer
  = b ← match buffer with
        | Some tb => '(tb', _) ← TickBuffer_push tick now tb; Some (Some tb')
        | None => Some None
        end;
    buffer_route stream b.
Proof.
  destruct buffer as [tb|]; [|done]. simpl.
  destruct (TickBuffer_push tick now tb) as [[tb' ok]|]; [|done]. simpl.
  by destruct (run_events (pushes stream) tb') as [[tb'' log]|].
Qed.

Lemma aggregator_route_cons tick now stream aggregator :
  aggregator_route ((tick, now) :: stream) aggregator
  = a ← match aggregator with
        | Some agg => '(agg', _) ← process_tick tick agg; Some (Some agg')
        | None => Some None
        end;
    aggregator_route stream a.
Proof.
  destruct aggregator as [agg|]; [|done]. simpl.
  destruct (process_tick tick agg) as [[agg' out]|]; [|done]. simpl.
  change (list_fmap (Tick * Z)%type Tick fst stream) with (fst <$> stream).
  by destruct (run_ticks (fst <$> stream) agg') as [[agg'' outs]|].
Qed.

Lemma handle_all_routes (stream : list (Tick * Z)) (m : FeedManager) :
  handle_all stream m
  = buffer ← buffer_route stream (feed_manager._buffer m);
    aggregator ← aggregator_route stream (_aggregator m);
    Some {| _on_tick := _on_tick m;
            feed_manager._buffer := buffer;
            _aggregator := aggregator;
            _total_ticks := _total_ticks m + Z.of_nat (length stream);
            forwarded :=
              forwarded m ++ (if _on_tick m then fst <$> stream else []) |}.
Proof.
  revert m. induction stream as [|[tick now] stream IH]; intros m.
  - destruct m as [ot b a n f]. simpl.
    destruct b, a; simpl; rewrite Z.add_0_r; destruct ot; by rewrite app_nil_r.
  - rewrite buffer_route_cons, aggregator_route_cons.
    cbn [handle_all]. unfold _handle_tick.
    destruct m as [ot b a n f].
    cbn [feed_manager._buffer _aggregator _on_tick _total_ticks forwarded].
    set (B := match b with Some tb => _ | None => _ end).
    set (A := match a with Some agg => _ | None => _ end).
    destruct B as [b1|]; [|done]. cbn [mbind option_bind].
    destruct A as [a1|]; cbn [mbind option_bind].
    2:{ by destruct (buffer_route stream b1). }
    rewrite IH.
    cbn [feed_manager._buffer _aggregator _on_tick _total_ticks forwarded].
    destruct (buffer_route stream b1) as [b2|]; [|done]. cbn [mbind option_bind].
    destruct (aggregator_route stream a1) as [a2|]; [|done].
    cbn [mbind option_bind length fmap list_fmap].
    do 2 f_equal; [lia|]. destruct ot; by rewrite <- ?app_assoc.
Qed.

(** X28. The manager's three routes do not interfere: handling a stream
    of ticks leaves the buffer as if the ticks had been pushed to it
    alone and the aggregator as if it had processed them alone; the tick
    callback, if set, gets every tick in order; and total_ticks grows by
    the number of ticks.  In particular a tick dropped by a full buffer
    is still counted, forwarded and aggregated.  The manager raises
    exactly when one of the two routes does. *)
Theorem manager_routes_every_tick (stream : list (Tick * Z)) (m : FeedManager) :
  handle_all stream m
  = buffer ← buffer_route stream (feed_manager._buffer m);
    aggregator ← aggregator_route stream (_aggregator m);
    Some {| _on_tick := _on_tick m;
            feed_manager._buffer := buffer;
            _aggregator := aggregator;
            _total_ticks := _total_ticks m + Z.of_nat (length stream);
            forwarded :=
              forwarded m ++ (if _on_tick m then fst <$> stream else []) |}.
Proof. apply handle_all_routes. Qed.

Lemma pushes_log stream : ∀ tb tb' log,
  run_events (pushes stream) tb = Some (tb', log) → length log = length stream.
Proof.
  induction stream as [|[t now] stream IH]; intros tb0 tb log.
  - by intros [= <- <-].
  - change (pushes ((t, now) :: stream)) with (ev_push t now :: pushes stream).
    cbn [run_events buffer_event_step].
    destruct (TickBuffer_push t now tb0) as [[tb1 ok]|]; [|done].
    cbn [mbind option_bind].
    destruct (run_events (pushes stream) tb1) as [[tb2 log2]|] eqn:E; [|done].
    cbn [mbind option_bind]. intros [= <- <-]. cbn [app length]. f_equal.
    apply (IH _ _ _ E).
Qed.

(** X29. A manager built with batching and aggregation counts every tick
    on every route: handling a stream never raises when the timeframe is
    not 0; total_ticks equals the buffer's ticks_received; every tick is
    either delivered in a batch, still in the ring, or counted as
    dropped; and the bars count every priced tick, dropped by the buffer
    or not. *)
Theorem manager_counts_all_ticks
    (on_tick on_bar : bool) (buffer_size batch_size flush_interval_ms now0 : Z)
    (timeframe_seconds : Z) (stream : list (Tick * Z)) :
  timeframe_seconds ≠ 0 →
  ∃ m tb agg outs,
    handle_all stream
      (enable_aggregation timeframe_seconds on_bar
         (FeedManager_init on_tick true buffer_size batch_size
            flush_interval_ms now0)) = Some m ∧
    feed_manager._buffer m = Some tb ∧ _aggregator m = Some agg ∧
    run_ticks (fst <$> stream) (TickAggregator_init timeframe_seconds on_bar)
      = Some (agg, outs) ∧
    _total_ticks m = Z.of_nat (length stream) ∧
    ticks_received (_stats tb) = _total_ticks m ∧
    ticks_processed (_stats tb) + in_flight tb + ticks_dropped (_stats tb)
      = _total_ticks m ∧
    list_total tick_count outs + bars_total tick_count (_bars agg)
      = Z.of_nat (length (priced (fst <$> stream))) ∧
    forwarded m = if on_tick then fst <$> stream else [].
Proof.
  intros Hne.
  set (tb0 := TickBuffer_init batch_size flush_interval_ms buffer_size now0).
  set (agg0 := TickAggregator_init timeframe_seconds on_bar).
  assert (_timeframe_ns agg0 ≠ 0) as Htf by (simpl; lia).
  destruct (run_events_inv (pushes stream) tb0 []
              (init_batcher_inv batch_size flush_interval_ms buffer_size now0))
    as (tb & log & Hrun & (q & (H & Hord & Hr & Hd & Hp & _) & _) & _).
  destruct (run_ticks_ok (fst <$> stream) agg0 Htf
              (init_bars_ok timeframe_seconds on_bar))
    as (agg & outs & Hticks & _).
  pose proof (pushes_log stream _ _ _ Hrun) as Hlog.
  change ([] ++ log) with log in *.
  assert (bars_total tick_count (_bars agg0) = 0) as Hb0
    by (unfold bars_total; simpl; by rewrite map_fold_empty).
  pose proof (run_total tick_count (λ _, 1) (fst <$> stream) agg0 agg outs
                ltac:(done) ltac:(done) Htf Hticks) as Htotal.
  assert (tick_total (λ _, 1) (priced (fst <$> stream))
          = Z.of_nat (length (priced (fst <$> stream)))) as Hcount.
  { generalize (priced (fst <$> stream)). intros l.
    unfold tick_total. induction l as [|t l IHl]; simpl; lia. }
  pose proof (log_partition log) as Hpart.
  pose proof (f_equal (@length Tick) Hord) as Hlen.
  rewrite length_app in Hlen.
  exists {| _on_tick := on_tick; feed_manager._buffer := Some tb;
            _aggregator := Some agg;
            _total_ticks := 0 + Z.of_nat (length stream);
            forwarded := [] ++ (if on_tick then fst <$> stream else []) |},
    tb, agg, outs.
  rewrite handle_all_routes. simpl.
  fold tb0 agg0. rewrite Hrun, Hticks. simpl.
  unfold in_flight. rewrite (size_holds _ _ H).
  split_and!; try done; lia.
Qed.

(** Witness of X29: a manager with batches of 2 on a ring of 4 slots and
    one-minute bars, fed the two-symbol stream. *)
Lemma manager_counts_all_ticks_witness :
  60 ≠ 0 ∧
  ∃ m tb agg outs,
    handle_all more_samples.two_symbols_stream
      (enable_aggregation 60 true (FeedManager_init true true 4 2 100 0)) = Some m ∧
    feed_manager._buffer m = Some tb ∧ _aggregator m = Some agg ∧
    run_ticks (fst <$> more_samples.two_symbols_stream) (TickAggregator_init 60 true)
      = Some (agg, outs) ∧
    _total_ticks m = Z.of_nat (length more_samples.two_symbols_stream) ∧
    ticks_received (_stats tb) = _total_ticks m ∧
    ticks_processed (_stats tb) + in_flight tb + ticks_dropped (_stats tb)
      = _total_ticks m ∧
    list_total tick_count outs + bars_total tick_count (_bars agg)
      = Z.of_nat (length (priced (fst <$> more_samples.two_symbols_stream))) ∧
    forwarded m = fst <$> more_samples.two_symbols_stream.
Proof.
  split; [lia|].
  apply (manager_counts_all_ticks true true 4 2 100 0 60
           more_samples.two_symbols_stream).
  lia.
Defined.

End feed_manager_facts.
